(** * Medical-Chatbot: the retrieval pipeline, embedded and verified

    A shallow embedding of the text chunker ([chunkText] of the document
    processor), the in-memory store ([MemStorage]) and the RAG orchestrator
    ([indexDocument], [queryRAG], [queryRAGStream]), with the document
    processor, the provider calls of lib/openai.ts and the HTTP handlers of
    routes.ts around them.

    Conventions of the embedding:
    - a JavaScript string is the list of its UTF-16 code units ([jsstring]);
      [length] is JavaScript's [.length];
    - a JavaScript [number] that holds a measured quantity (an embedding
      component, a similarity, a confidence) is an IEEE-754 binary64 value,
      Rocq's primitive [float]; a [number] that holds a size, an index or a
      count is an integer of [Z];
    - a rejected promise or a thrown [Error] is the [Throw] outcome. *)

From Stdlib Require Import Ascii String.
From Stdlib Require Import List ZArith NArith Lia Bool.
From Stdlib Require Import Sorting.Sorted Sorting.Permutation Floats DecimalString.
Import ListNotations.

Local Open Scope Z_scope.

(** ** JavaScript strings *)

Module JsString.

(** A UTF-16 code unit. *)
Definition char := N.
Definition jsstring := list char.

(** A string literal of the source (ASCII only). *)
Definition lit (s : string) : jsstring :=
  map N_of_ascii (list_ascii_of_string s).
Arguments lit s%_string.

Definition len {A : Type} (l : list A) : Z := Z.of_nat (length l).

(** A string is falsy exactly when it is empty. *)
Definition is_empty {A : Type} (l : list A) : bool :=
  match l with [] => true | _ :: _ => false end.

(** The class [\s] of a regular expression, which is also what
    [String.prototype.trim] strips: WhiteSpace and LineTerminator. *)
Definition is_space (c : char) : bool :=
  ((9 <=? c) && (c <=? 13) || (c =? 32) || (c =? 160) || (c =? 5760)
   || (8192 <=? c) && (c <=? 8202) || (c =? 8232) || (c =? 8233)
   || (c =? 8239) || (c =? 8287) || (c =? 12288) || (c =? 65279))%N.

(** The class [[.!?]]. *)
Definition is_term (c : char) : bool :=
  ((c =? 46) || (c =? 33) || (c =? 63))%N.

Fixpoint drop_while {A : Type} (f : A -> bool) (l : list A) : list A :=
  match l with
  | [] => []
  | x :: r => if f x then drop_while f r else l
  end.

(** [String.prototype.trim]. *)
Definition trim (s : jsstring) : jsstring :=
  rev (drop_while is_space (rev (drop_while is_space s))).

(** [s.slice(start)] for an integer [start]: a negative [start] counts from
    the end, and [-0] is [0]. *)
Definition slice_from {A : Type} (start : Z) (s : list A) : list A :=
  let from := if start <? 0 then Z.max (len s + start) 0
              else Z.min start (len s) in
  skipn (Z.to_nat from) s.

(** [s.slice(0, e)] for an integer [e], on strings and on arrays. *)
Definition slice_to {A : Type} (e : Z) (s : list A) : list A :=
  let to := if e <? 0 then Z.max (len s + e) 0 else Z.min e (len s) in
  firstn (Z.to_nat to) s.

(** One attempt of [/[.!?]+\s+/] at the head of [s]: the greedy run of
    terminators, then the greedy run of white space, both non-empty. The
    two classes are disjoint, so giving back a terminator never helps.
    Returns what follows the match. *)
Definition match_sep (s : jsstring) : option jsstring :=
  let r1 := drop_while is_term s in
  let r2 := drop_while is_space r1 in
  if (length r1 <? length s)%nat && (length r2 <? length r1)%nat
  then Some r2 else None.

(** [text.split(/[.!?]+\s+/)]: scan for the leftmost match, cut the piece
    before it, resume after it; the rest of the text is the last piece.
    [acc] holds the current piece, reversed; [fuel] bounds the scan. *)
Fixpoint split_go (fuel : nat) (acc : jsstring) (s : jsstring)
  : list jsstring :=
  match fuel with
  | O => [rev acc ++ s]
  | S fuel' =>
      match s with
      | [] => [rev acc]
      | c :: s' =>
          match match_sep s with
          | Some r => rev acc :: split_go fuel' [] r
          | None => split_go fuel' (c :: acc) s'
          end
      end
  end.

Definition split_sentences (text : jsstring) : list jsstring :=
  split_go (length text) [] text.

(** [t] occurs in [s] as a contiguous substring. *)
Definition infix (t s : jsstring) : Prop :=
  exists p q, s = p ++ t ++ q.

End JsString.
Import JsString.

(** ** The text chunker (documentProcessor.ts) *)

Module Chunker.

Definition sp : jsstring := lit " ".

(** The three locals of [chunkText] that live across loop iterations. *)
Record state := mkState {
  chunks : list jsstring;
  currentChunk : jsstring;
  previousChunk : jsstring
}.

(** The body of [for (const sentence of sentences)]. *)
Definition step (chunkSize overlap : Z) (st : state) (sentence : jsstring)
  : state :=
  let trimmedSentence := trim sentence in
  if is_empty trimmedSentence then st
  else if chunkSize <? len (currentChunk st) + len trimmedSentence then
    if negb (is_empty (currentChunk st)) then
      let previous := slice_from (- overlap) (currentChunk st) in
      {| chunks := chunks st ++ [trim (currentChunk st)];
         currentChunk := previous ++ sp ++ trimmedSentence;
         previousChunk := previous |}
    else
      {| chunks := chunks st ++ [trimmedSentence];
         currentChunk := [];
         previousChunk := previousChunk st |}
  else
    {| chunks := chunks st;
       currentChunk :=
         currentChunk st
         ++ (if negb (is_empty (currentChunk st)) then sp else [])
         ++ trimmedSentence;
       previousChunk := previousChunk st |}.

Definition init : state :=
  {| chunks := []; currentChunk := []; previousChunk := [] |}.

(** The chunks accumulated before the final length filter. *)
Definition accumulate (text : jsstring) (chunkSize overlap : Z)
  : list jsstring :=
  let st := fold_left (step chunkSize overlap) (split_sentences text) init in
  if negb (is_empty (trim (currentChunk st)))
  then chunks st ++ [trim (currentChunk st)]
  else chunks st.

Definition chunkText (text : jsstring) (chunkSize overlap : Z)
  : list jsstring :=
  filter (fun chunk => 50 <? len chunk) (accumulate text chunkSize overlap).

(** The defaults of the signature. *)
Definition chunkText_default (text : jsstring) : list jsstring :=
  chunkText text 1000 200.

(** The sentences the loop does not skip: the trimmed, non-empty pieces. *)
Definition sentences (text : jsstring) : list jsstring :=
  filter (fun s => negb (is_empty s)) (map trim (split_sentences text)).

(** [l.join(" ")]. *)
Fixpoint join_sp (l : list jsstring) : jsstring :=
  match l with
  | [] => []
  | [x] => x
  | x :: r => x ++ sp ++ join_sp r
  end.

End Chunker.
Import Chunker.

(** ** Outcomes of asynchronous calls *)

(** A promise settles with a value or is rejected with an [Error]; only the
    message of the error is kept. *)
Inductive outcome (A : Type) : Type :=
| Ok (value : A)
| Throw (message : jsstring).
Arguments Ok {A} value.
Arguments Throw {A} message.

(** ** shared/schema.ts *)

Module Schema.

(** A [Date], as its time value in milliseconds. *)
Definition Date := Z.

Module Citation.
Record t := make {
  source : jsstring;
  excerpt : jsstring;
  confidence : option float;
  page : option Z
}.
End Citation.

Module DocumentMetadata.
Record t := make {
  fileName : jsstring;
  fileId : jsstring;
  totalChunks : Z;
  (** the instant whose ISO-8601 rendering the source stores *)
  processedAt : Date
}.
End DocumentMetadata.

Module InsertMessage.
Record t := make {
  conversationId : jsstring;
  role : jsstring;
  content : jsstring;
  citations : option (list Citation.t)
}.
End InsertMessage.

Module Message.
Record t := make {
  id : jsstring;
  conversationId : jsstring;
  role : jsstring;
  content : jsstring;
  citations : option (list Citation.t);
  timestamp : Date
}.
End Message.

Module InsertConversation.
Record t := make { title : option jsstring }.
End InsertConversation.

Module Conversation.
Record t := make {
  id : jsstring;
  title : option jsstring;
  createdAt : Date;
  updatedAt : Date
}.
End Conversation.

(** [Partial<Conversation>]: [None] is a property that is not set. *)
Module PartialConversation.
Record t := make {
  id : option jsstring;
  title : option (option jsstring);
  createdAt : option Date;
  updatedAt : option Date
}.
End PartialConversation.

Module InsertDocumentChunk.
Record t := make {
  documentId : jsstring;
  content : jsstring;
  embedding : option (list float);
  metadata : option DocumentMetadata.t;
  chunkIndex : Z
}.
End InsertDocumentChunk.

Module DocumentChunk.
Record t := make {
  id : jsstring;
  documentId : jsstring;
  content : jsstring;
  embedding : option (list float);
  metadata : option DocumentMetadata.t;
  chunkIndex : Z
}.
End DocumentChunk.

End Schema.
Import Schema.

(** ** JavaScript [Map] and [Array.prototype.sort] *)

Module JsMap.

Fixpoint str_eqb (a b : jsstring) : bool :=
  match a, b with
  | [], [] => true
  | x :: a', y :: b' => N.eqb x y && str_eqb a' b'
  | _, _ => false
  end.

(** The entries of a [Map], in insertion order. *)
Definition t (V : Type) := list (jsstring * V).

Definition empty {V : Type} : t V := [].

Fixpoint get {V : Type} (k : jsstring) (m : t V) : option V :=
  match m with
  | [] => None
  | (k', v) :: r => if str_eqb k k' then Some v else get k r
  end.

(** [set] overwrites an existing entry where it stands and appends a new
    one. *)
Fixpoint set {V : Type} (k : jsstring) (v : V) (m : t V) : t V :=
  match m with
  | [] => [(k, v)]
  | (k', v') :: r =>
      if str_eqb k k' then (k, v) :: r else (k', v') :: set k v r
  end.

(** [Array.from(m.values())]. *)
Definition values {V : Type} (m : t V) : list V := map snd m.

Definition keys {V : Type} (m : t V) : list jsstring := map fst m.

End JsMap.

Module JsArray.

(** [l.sort(compare)] is a stable sort. [after a b] tells that
    [compare(a, b) > 0], that is, that [a] has to come after [b]; a
    comparison that is zero, negative or [NaN] leaves [a] before [b]. With
    a consistent comparator every conforming engine returns the list
    computed here. *)
Fixpoint insert {A : Type} (after : A -> A -> bool) (x : A) (l : list A)
  : list A :=
  match l with
  | [] => [x]
  | y :: r => if after x y then y :: insert after x r else x :: l
  end.

Definition sort {A : Type} (after : A -> A -> bool) (l : list A) : list A :=
  fold_right (insert after) [] l.

(** [l.map((x, index) => f(x, index))]. *)
Fixpoint mapi_from {A B : Type} (i : Z) (f : A -> Z -> B) (l : list A)
  : list B :=
  match l with
  | [] => []
  | x :: r => f x i :: mapi_from (i + 1) f r
  end.

Definition mapi {A B : Type} (f : A -> Z -> B) (l : list A) : list B :=
  mapi_from 0 f l.

(** [l.join(sep)] on an array of strings. *)
Fixpoint join (sep : jsstring) (l : list jsstring) : jsstring :=
  match l with
  | [] => []
  | [x] => x
  | x :: r => x ++ sep ++ join sep r
  end.

End JsArray.

Module JsSet.

(** The elements of a [Set] of strings, in insertion order. *)
Definition t := list jsstring.

Definition has (x : jsstring) (s : t) : bool := existsb (JsMap.str_eqb x) s.

(** [add] keeps a set that already has the element as it is. *)
Definition add (s : t) (x : jsstring) : t := if has x s then s else s ++ [x].

(** [new Set(l)]: the elements of [l] are added one after the other. *)
Definition of_list (l : list jsstring) : t := fold_left add l [].

Definition size (s : t) : Z := len s.

End JsSet.

(** ** The process: store, entropy and clock *)

Module Store.

(** The three maps of [MemStorage]. *)
Record MemStorage := mkStorage {
  messages : JsMap.t Message.t;
  conversations : JsMap.t Conversation.t;
  documentChunks : JsMap.t DocumentChunk.t
}.

(** [new MemStorage()]. *)
Definition constructor : MemStorage :=
  {| messages := JsMap.empty;
     conversations := JsMap.empty;
     documentChunks := JsMap.empty |}.

(** The state a call runs in: the singleton [storage], the values
    [randomUUID()] is going to return and how many were drawn, the values
    [new Date()] is going to read and how many were read. *)
Record World := mkWorld {
  storage : MemStorage;
  uuids : nat -> jsstring;
  drawn : nat;
  clock : nat -> Date;
  ticks : nat
}.

Definition M (A : Type) : Type := World -> outcome A * World.

Definition ret {A : Type} (a : A) : M A := fun w => (Ok a, w).

Definition throw {A : Type} (message : jsstring) : M A :=
  fun w => (Throw message, w).

Definition bind {A B : Type} (m : M A) (k : A -> M B) : M B :=
  fun w =>
    match m w with
    | (Ok a, w') => k a w'
    | (Throw e, w') => (Throw e, w')
    end.

(** An awaited call to a collaborator that does not touch the process. *)
Definition await {A : Type} (o : outcome A) : M A := fun w => (o, w).

Definition randomUUID : M jsstring :=
  fun w =>
    (Ok (uuids w (drawn w)),
     {| storage := storage w; uuids := uuids w; drawn := S (drawn w);
        clock := clock w; ticks := ticks w |}).

Definition newDate : M Date :=
  fun w =>
    (Ok (clock w (ticks w)),
     {| storage := storage w; uuids := uuids w; drawn := drawn w;
        clock := clock w; ticks := S (ticks w) |}).

Definition read {A : Type} (f : MemStorage -> A) : M A :=
  fun w => (Ok (f (storage w)), w).

Definition write (f : MemStorage -> MemStorage) : M unit :=
  fun w =>
    (Ok tt,
     {| storage := f (storage w); uuids := uuids w; drawn := drawn w;
        clock := clock w; ticks := ticks w |}).

End Store.
Import Store.

Declare Scope js_scope.
Delimit Scope js_scope with js.
Notation "x <- m ;; k" := (bind m (fun x => k))
  (at level 61, m at next level, right associativity) : js_scope.
Notation "m ;;; k" := (bind m (fun _ => k))
  (at level 61, right associativity) : js_scope.

(** ** storage.ts: the methods of [MemStorage] *)

Module MemStorageOps.
Local Open Scope js_scope.

Definition createMessage (insertMessage : InsertMessage.t) : M Message.t :=
  id <- randomUUID ;;
  now <- newDate ;;
  let message :=
    {| Message.id := id;
       Message.conversationId := InsertMessage.conversationId insertMessage;
       Message.role := InsertMessage.role insertMessage;
       Message.content := InsertMessage.content insertMessage;
       Message.citations := InsertMessage.citations insertMessage;
       Message.timestamp := now |} in
  write (fun s =>
    {| messages := JsMap.set id message (messages s);
       conversations := conversations s;
       documentChunks := documentChunks s |}) ;;;
  ret message.

Definition getMessagesByConversation (conversationId : jsstring)
  : M (list Message.t) :=
  read (fun s =>
    JsArray.sort
      (fun a b => 0 <? Message.timestamp a - Message.timestamp b)
      (filter
         (fun msg => JsMap.str_eqb (Message.conversationId msg) conversationId)
         (JsMap.values (messages s)))).

Definition createConversation (insertConversation : InsertConversation.t)
  : M Conversation.t :=
  id <- randomUUID ;;
  now <- newDate ;;
  let conversation :=
    {| Conversation.id := id;
       Conversation.title := InsertConversation.title insertConversation;
       Conversation.createdAt := now;
       Conversation.updatedAt := now |} in
  write (fun s =>
    {| messages := messages s;
       conversations := JsMap.set id conversation (conversations s);
       documentChunks := documentChunks s |}) ;;;
  ret conversation.

Definition getConversation (id : jsstring) : M (option Conversation.t) :=
  read (fun s => JsMap.get id (conversations s)).

(** A property of [{ ...existing, ...data }]: that of [data] when [data] has
    it, else that of [existing]. *)
Definition over {A : Type} (o : option A) (d : A) : A :=
  match o with Some a => a | None => d end.

(** [{ ...existing, ...data, updatedAt: now }]. *)
Definition spread (existing : Conversation.t) (data : PartialConversation.t)
  (now : Date) : Conversation.t :=
  {| Conversation.id :=
       over (PartialConversation.id data) (Conversation.id existing);
     Conversation.title :=
       over (PartialConversation.title data) (Conversation.title existing);
     Conversation.createdAt :=
       over (PartialConversation.createdAt data)
            (Conversation.createdAt existing);
     Conversation.updatedAt := now |}.

Definition updateConversation (id : jsstring) (data : PartialConversation.t)
  : M Conversation.t :=
  existing <- read (fun s => JsMap.get id (conversations s)) ;;
  match existing with
  | None => throw (lit "Conversation " ++ id ++ lit " not found")
  | Some existing =>
      now <- newDate ;;
      let updated := spread existing data now in
      write (fun s =>
        {| messages := messages s;
           conversations := JsMap.set id updated (conversations s);
           documentChunks := documentChunks s |}) ;;;
      ret updated
  end.

Definition createDocumentChunk (insertChunk : InsertDocumentChunk.t)
  : M DocumentChunk.t :=
  id <- randomUUID ;;
  let chunk :=
    {| DocumentChunk.id := id;
       DocumentChunk.documentId := InsertDocumentChunk.documentId insertChunk;
       DocumentChunk.content := InsertDocumentChunk.content insertChunk;
       DocumentChunk.embedding := InsertDocumentChunk.embedding insertChunk;
       DocumentChunk.metadata := InsertDocumentChunk.metadata insertChunk;
       DocumentChunk.chunkIndex := InsertDocumentChunk.chunkIndex insertChunk
    |} in
  write (fun s =>
    {| messages := messages s;
       conversations := conversations s;
       documentChunks := JsMap.set id chunk (documentChunks s) |}) ;;;
  ret chunk.

Definition getDocumentChunks (documentId : jsstring)
  : M (list DocumentChunk.t) :=
  read (fun s =>
    JsArray.sort
      (fun a b => 0 <? DocumentChunk.chunkIndex a - DocumentChunk.chunkIndex b)
      (filter
         (fun chunk => JsMap.str_eqb (DocumentChunk.documentId chunk) documentId)
         (JsMap.values (documentChunks s)))).

(** The private helper [cosineSimilarity], in binary64 arithmetic. *)
Definition cosineSimilarity (a b : list float) : float :=
  if negb (length a =? length b)%nat then 0%float
  else
    let '(dotProduct, normA, normB) :=
      fold_left
        (fun '(dotProduct, normA, normB) '(ai, bi) =>
           (dotProduct + ai * bi, normA + ai * ai, normB + bi * bi)%float)
        (combine a b) (0, 0, 0)%float in
    if (normA =? 0)%float || (normB =? 0)%float then 0%float
    else (dotProduct / (sqrt normA * sqrt normB))%float.

(** [chunk.embedding && chunk.embedding.length > 0]. *)
Definition has_embedding (chunk : DocumentChunk.t) : bool :=
  match DocumentChunk.embedding chunk with
  | Some e => negb (is_empty e)
  | None => false
  end.

(** [chunk.embedding!]. *)
Definition embedding_of (chunk : DocumentChunk.t) : list float :=
  match DocumentChunk.embedding chunk with Some e => e | None => [] end.

(** The [{ chunk, similarity }] pairs of the search, sorted and cut. *)
Definition chunksWithScores (queryEmbedding : list float) (limit : Z)
  (s : MemStorage) : list (DocumentChunk.t * float) :=
  slice_to limit
    (JsArray.sort
       (fun a b => (0 <? snd b - snd a)%float)
       (map
          (fun chunk =>
             (chunk, cosineSimilarity queryEmbedding (embedding_of chunk)))
          (filter has_embedding (JsMap.values (documentChunks s))))).

Definition searchChunksByEmbedding (queryEmbedding : list float) (limit : Z)
  : M (list DocumentChunk.t) :=
  read (fun s => map fst (chunksWithScores queryEmbedding limit s)).

Definition getAllChunks : M (list DocumentChunk.t) :=
  read (fun s => JsMap.values (documentChunks s)).

End MemStorageOps.
Import MemStorageOps.

(** ** documentProcessor.ts: from a Drive file to chunks *)

Module DocumentProcessor.

Definition Buffer := list N.

Record FileMetadata := mkFileMetadata {
  name : option jsstring;
  mimeType : option jsstring
}.

Record ProcessedDocument := mkProcessed {
  fileId : jsstring;
  fileName : jsstring;
  docMimeType : jsstring;
  content : jsstring;
  chunks : list jsstring
}.

(** [x || d] on a possibly missing string. *)
Definition or_else (x : option jsstring) (d : jsstring) : jsstring :=
  match x with
  | Some (c :: r) => c :: r
  | _ => d
  end.

(** [catch (error) { throw new Error(prefix + error.message) }]. *)
Definition rethrow {A : Type} (prefix : jsstring) (o : outcome A)
  : outcome A :=
  match o with
  | Ok a => Ok a
  | Throw e => Throw (prefix ++ e)
  end.

Definition and_then {A B : Type} (o : outcome A) (k : A -> outcome B)
  : outcome B :=
  match o with
  | Ok a => k a
  | Throw e => Throw e
  end.

(** [.replace(/\s+/g, ' ')]; [in_run] tells that the previous character
    was white space. *)
Fixpoint normalize_ws (in_run : bool) (s : jsstring) : jsstring :=
  match s with
  | [] => []
  | c :: r =>
      if is_space c
      then if in_run then normalize_ws true r
           else 32%N :: normalize_ws true r
      else c :: normalize_ws false r
  end.

(** [.replace(/\n{3,}/g, '\n\n')]; [run] counts the line feeds just seen. *)
Fixpoint limit_newlines (run : nat) (s : jsstring) : jsstring :=
  match s with
  | [] => []
  | c :: r =>
      if (c =? 10)%N
      then if (run <? 2)%nat then c :: limit_newlines (S run) r
           else limit_newlines (S run) r
      else c :: limit_newlines 0 r
  end.

Section Collaborators.
(** The Drive client and the parsing libraries. *)
Variable getFileMetadata : jsstring -> outcome FileMetadata.
Variable downloadDriveFile : jsstring -> outcome Buffer.
Variable pdfParse : Buffer -> outcome jsstring.
Variable mammoth : Buffer -> outcome jsstring.
Variable utf8 : Buffer -> jsstring.

Definition extractPdfText (buffer : Buffer) : outcome jsstring :=
  rethrow (lit "Failed to parse PDF: ") (pdfParse buffer).

Definition extractDocxText (buffer : Buffer) : outcome jsstring :=
  rethrow (lit "Failed to parse DOCX: ") (mammoth buffer).

Definition extractPlainText (buffer : Buffer) : jsstring := utf8 buffer.

Definition processDocument (fileId : jsstring) : outcome ProcessedDocument :=
  rethrow (lit "Failed to process document: ")
    (and_then (getFileMetadata fileId) (fun metadata =>
     let fileName := or_else (name metadata) (lit "unknown") in
     let mimeType := or_else (mimeType metadata) (lit "unknown") in
     and_then (downloadDriveFile fileId) (fun buffer =>
     and_then
       (if JsMap.str_eqb mimeType (lit "application/pdf")
        then extractPdfText buffer
        else if JsMap.str_eqb mimeType
                  (lit "application/vnd.openxmlformats-officedocument.wordprocessingml.document")
        then extractDocxText buffer
        else if JsMap.str_eqb mimeType (lit "text/plain")
        then Ok (extractPlainText buffer)
        else Throw (lit "Unsupported file type: " ++ mimeType))
       (fun content =>
     let content := trim (limit_newlines 0 (normalize_ws false content)) in
     let chunks := chunkText content 1000 200 in
     Ok {| fileId := fileId; fileName := fileName;
           docMimeType := mimeType; content := content;
           chunks := chunks |})))).

End Collaborators.

End DocumentProcessor.

(** ** ragService.ts: indexing and querying *)

Module RagService.
Local Open Scope js_scope.

Record RAGResponse := mkResponse {
  answer : jsstring;
  citations : list Citation.t
}.

(** What [queryRAGStream] yields: [{ type: 'citations', data }] or
    [{ type: 'token', data }]. *)
Inductive event : Type :=
| CitationsEvent (data : list Citation.t)
| TokenEvent (data : jsstring).

(** An asynchronous generator run to its end: what it yielded, and whether
    it returned or threw. *)
Definition G (A : Type) : Type := World -> (list event * outcome A) * World.

Definition gret {A : Type} (a : A) : G A := fun w => (([], Ok a), w).

Definition gbind {A B : Type} (g : G A) (k : A -> G B) : G B :=
  fun w =>
    match g w with
    | ((evs, Ok a), w') =>
        match k a w' with
        | ((evs', o), w'') => ((evs ++ evs', o), w'')
        end
    | ((evs, Throw e), w') => ((evs, Throw e), w')
    end.

Definition yield (e : event) : G unit := fun w => (([e], Ok tt), w).

Definition lift {A : Type} (m : M A) : G A :=
  fun w => match m w with (o, w') => (([], o), w') end.

(** [for (const x of l) body(x)]. *)
Fixpoint for_of {X : Type} (l : list X) (body : X -> G unit) : G unit :=
  match l with
  | [] => gret tt
  | x :: r => gbind (body x) (fun _ => for_of r body)
  end.

(** A provider's token stream, consumed to its end: the tokens it
    delivered, and the message of the error it threw, if it did. *)
Record TokenStream := mkStream {
  tokens : list jsstring;
  failure : option jsstring
}.

(** [for await (const x of stream) body(x)]. *)
Definition for_await (s : TokenStream) (body : jsstring -> G unit) : G unit :=
  gbind (for_of (tokens s) body) (fun _ =>
    match failure s with
    | Some e => fun w => (([], Throw e), w)
    | None => gret tt
    end).

(** The string iterator: one string per code point, a surrogate pair being
    kept together. *)
Definition is_high_surrogate (c : char) : bool :=
  ((55296 <=? c) && (c <=? 56319))%N.
Definition is_low_surrogate (c : char) : bool :=
  ((56320 <=? c) && (c <=? 57343))%N.

Fixpoint code_points_from (pending : option char) (s : jsstring)
  : list jsstring :=
  match s with
  | [] => match pending with Some h => [[h]] | None => [] end
  | c :: r =>
      match pending with
      | Some h =>
          if is_low_surrogate c then [h; c] :: code_points_from None r
          else if is_high_surrogate c
          then [h] :: code_points_from (Some c) r
          else [h] :: [c] :: code_points_from None r
      | None =>
          if is_high_surrogate c then code_points_from (Some c) r
          else [c] :: code_points_from None r
      end
  end.

Definition code_points (s : jsstring) : list jsstring :=
  code_points_from None s.

Definition fallbackMessage : jsstring :=
  lit "I don't have any medical documents indexed yet to answer your question. Please upload medical datasets to Google Drive and index them first, or I can provide general medical information based on my training.".

(** The literal [0.85]. *)
Definition placeholder_confidence : float := 0x1.b333333333333p-1%float.

(** [chunk.metadata?.fileName || d]. *)
Definition fileName_or (chunk : DocumentChunk.t) (d : jsstring) : jsstring :=
  DocumentProcessor.or_else
    (option_map DocumentMetadata.fileName (DocumentChunk.metadata chunk)) d.

(** A sum of two numbers that hold integers is their exact sum rounded to
    binary64, to nearest with ties to even; [number z] is that rounding of
    the integer [z]. (An integer that rounds to an infinity is beyond every
    sum of two numbers.) *)
Definition number (z : Z) : Z :=
  match binary_normalize prec emax z 0 false with
  | S754_zero _ => 0
  | S754_finite s m e =>
      if s then - Z.shiftl (Zpos m) e else Z.shiftl (Zpos m) e
  | _ => z
  end.

(** The object literal both query functions map over the chunks; the index
    of the chunk is an integer, and [chunk.chunkIndex + 1] is a binary64
    sum. *)
Definition citation_of (chunk : DocumentChunk.t) : Citation.t :=
  {| Citation.source := fileName_or chunk (lit "Unknown Source");
     Citation.excerpt :=
       slice_to 200 (DocumentChunk.content chunk)
       ++ (if 200 <? len (DocumentChunk.content chunk)
           then lit "..." else lit "");
     Citation.confidence := Some placeholder_confidence;
     Citation.page := Some (number (DocumentChunk.chunkIndex chunk + 1)) |}.

(** A positive integer in a template literal. *)
Definition show_int (z : Z) : jsstring :=
  lit (NilZero.string_of_int (Z.to_int z)).

Definition nl : jsstring := [10%N].

Definition build_context (relevantChunks : list DocumentChunk.t) : jsstring :=
  JsArray.join (nl ++ nl ++ lit "---" ++ nl ++ nl)
    (JsArray.mapi
       (fun chunk idx =>
          lit "[Source " ++ show_int (idx + 1) ++ lit ": "
          ++ fileName_or chunk (lit "Unknown") ++ lit "]" ++ nl
          ++ DocumentChunk.content chunk)
       relevantChunks).

(** [l.map(async (x, index) => f(x, index))] followed by [Promise.all]:
    the callbacks run one after the other, in index order. *)
Fixpoint map_all_from {A B : Type} (i : Z) (f : A -> Z -> M B) (l : list A)
  : M (list B) :=
  match l with
  | [] => ret []
  | x :: r =>
      y <- f x i ;;
      ys <- map_all_from (i + 1) f r ;;
      ret (y :: ys)
  end.

Section Collaborators.
(** lib/openai.ts and the document processor. *)
Variable generateEmbedding : jsstring -> outcome (list float).
Variable generateEmbeddings : list jsstring -> outcome (list (list float)).
Variable generateChatCompletion : jsstring -> jsstring -> outcome jsstring.
Variable generateChatCompletionStream : jsstring -> jsstring -> TokenStream.
Variable processDocument :
  jsstring -> outcome DocumentProcessor.ProcessedDocument.

Definition indexDocument (fileId : jsstring) : M (jsstring * Z) :=
  processed <- await (processDocument fileId) ;;
  documentId <- randomUUID ;;
  embeddings <- await
    (generateEmbeddings (DocumentProcessor.chunks processed)) ;;
  map_all_from 0
    (fun chunk index =>
       now <- newDate ;;
       createDocumentChunk
         {| InsertDocumentChunk.documentId := documentId;
            InsertDocumentChunk.content := chunk;
            InsertDocumentChunk.embedding :=
              nth_error embeddings (Z.to_nat index);
            InsertDocumentChunk.metadata :=
              Some {| DocumentMetadata.fileName :=
                        DocumentProcessor.fileName processed;
                      DocumentMetadata.fileId :=
                        DocumentProcessor.fileId processed;
                      DocumentMetadata.totalChunks :=
                        len (DocumentProcessor.chunks processed);
                      DocumentMetadata.processedAt := now |};
            InsertDocumentChunk.chunkIndex := index |})
    (DocumentProcessor.chunks processed) ;;;
  ret (documentId, len (DocumentProcessor.chunks processed)).

Definition queryRAG (question : jsstring) : M RAGResponse :=
  questionEmbedding <- await (generateEmbedding question) ;;
  relevantChunks <- searchChunksByEmbedding questionEmbedding 5 ;;
  if len relevantChunks =? 0 then
    ret {| answer := fallbackMessage; citations := [] |}
  else
    let context := build_context relevantChunks in
    answer <- await (generateChatCompletion question context) ;;
    let citations := map citation_of relevantChunks in
    ret {| answer := answer; citations := citations |}.

Definition queryRAGStream (question : jsstring) : G unit :=
  gbind (lift (await (generateEmbedding question)))
    (fun questionEmbedding =>
  gbind (lift (searchChunksByEmbedding questionEmbedding 5))
    (fun relevantChunks =>
  let citations := map citation_of relevantChunks in
  gbind (yield (CitationsEvent citations)) (fun _ =>
  if len relevantChunks =? 0 then
    for_of (code_points fallbackMessage)
           (fun char => yield (TokenEvent char))
  else
    let context := build_context relevantChunks in
    for_await (generateChatCompletionStream question context)
              (fun token => yield (TokenEvent token))))).

End Collaborators.

Definition hasIndexedDocuments : M bool :=
  chunks <- getAllChunks ;;
  ret (0 <? len chunks).

Record IndexStats := mkStats {
  totalChunks : Z;
  uniqueDocuments : Z
}.

Definition getIndexStats : M IndexStats :=
  chunks <- getAllChunks ;;
  let uniqueDocIds := JsSet.of_list (map DocumentChunk.documentId chunks) in
  ret {| totalChunks := len chunks;
         uniqueDocuments := JsSet.size uniqueDocIds |}.

End RagService.
Import RagService.

(** ** The interface [IStorage], call by call *)

Module StorageInterface.

(** A call of one method of [IStorage] with its arguments. *)
Inductive operation : Type :=
| CreateMessage (message : InsertMessage.t)
| GetMessagesByConversation (conversationId : jsstring)
| CreateConversation (conversation : InsertConversation.t)
| GetConversation (id : jsstring)
| UpdateConversation (id : jsstring) (data : PartialConversation.t)
| CreateDocumentChunk (chunk : InsertDocumentChunk.t)
| GetDocumentChunks (documentId : jsstring)
| SearchChunksByEmbedding (embedding : list float) (limit : Z)
| GetAllChunks.

(** The process after the call has settled. *)
Definition run (op : operation) (w : World) : World :=
  match op with
  | CreateMessage message => snd (createMessage message w)
  | GetMessagesByConversation conversationId =>
      snd (getMessagesByConversation conversationId w)
  | CreateConversation conversation => snd (createConversation conversation w)
  | GetConversation id => snd (getConversation id w)
  | UpdateConversation id data => snd (updateConversation id data w)
  | CreateDocumentChunk chunk => snd (createDocumentChunk chunk w)
  | GetDocumentChunks documentId => snd (getDocumentChunks documentId w)
  | SearchChunksByEmbedding embedding limit =>
      snd (searchChunksByEmbedding embedding limit w)
  | GetAllChunks => snd (getAllChunks w)
  end.

Definition run_all (ops : list operation) (w : World) : World :=
  fold_left (fun w op => run op w) ops w.

(** The stored chunks of a document, in insertion order. *)
Definition chunks_of (documentId : jsstring) (s : MemStorage)
  : list DocumentChunk.t :=
  filter (fun c => JsMap.str_eqb (DocumentChunk.documentId c) documentId)
         (JsMap.values (documentChunks s)).

Definition indices_of (documentId : jsstring) (s : MemStorage) : list Z :=
  map DocumentChunk.chunkIndex (chunks_of documentId s).

(** Chunk indices are unique within the document. *)
Definition unique_indices (documentId : jsstring) (s : MemStorage) : Prop :=
  NoDup (indices_of documentId s).

(** The call stores a chunk under the document id [documentId]. *)
Definition adds_chunk_to (documentId : jsstring) (op : operation) : bool :=
  match op with
  | CreateDocumentChunk chunk =>
      JsMap.str_eqb (InsertDocumentChunk.documentId chunk) documentId
  | _ => false
  end.

End StorageInterface.
Import StorageInterface.

(** ** lib/openai.ts: the calls to the provider *)

Module OpenAI.

(** The parts of the SDK's answers that the code reads. *)
Record Embedding := mkEmbedding { embedding : list float }.

Record CreateEmbeddingResponse := mkEmbeddingResponse {
  data : list Embedding
}.

(** [content] is [string | null]. *)
Record ChatCompletionMessage := mkMessage { content : option jsstring }.

Record Choice := mkChoice { message : ChatCompletionMessage }.

Record ChatCompletion := mkCompletion { choices : list Choice }.

Record Delta := mkDelta { delta_content : option jsstring }.

Record ChunkChoice := mkChunkChoice { delta : option Delta }.

Record ChatCompletionChunk := mkChunk { chunk_choices : list ChunkChoice }.

(** The SDK's stream, consumed to its end: the chunks it delivered, and the
    message of the error that broke it, if one did. *)
Record Stream := mkSdkStream {
  delivered : list ChatCompletionChunk;
  broken : option jsstring
}.

(** The requests. *)
Inductive EmbeddingInput : Type :=
| One (text : jsstring)
| Many (texts : list jsstring).

Record EmbeddingParams := mkEmbeddingParams {
  embedding_model : jsstring;
  input : EmbeddingInput
}.

Record ChatTurn := mkTurn { role : jsstring; turn_content : jsstring }.

Record ChatParams := mkChatParams {
  model : jsstring;
  messages : list ChatTurn;
  max_completion_tokens : Z;
  stream : bool
}.

Definition systemPrompt (context : jsstring) : jsstring :=
  lit "You are HealSage, a knowledgeable medical AI assistant. Your role is to provide accurate, evidence-based health information to users.

IMPORTANT GUIDELINES:
1. Base your responses on the provided medical context/sources
2. Be clear, professional, and compassionate
3. Always remind users that you provide information, not medical advice
4. Suggest consulting healthcare professionals for diagnosis and treatment
5. If unsure or if the context doesn't contain relevant information, be honest about limitations
6. Use simple, easy-to-understand language
7. Structure responses clearly with proper formatting

CONTEXT FROM MEDICAL SOURCES:
" ++ context ++ lit "

Provide a helpful, accurate response based on this context.".

Definition chat_params (userMessage context : jsstring) (stream : bool)
  : ChatParams :=
  {| model := lit "gpt-5";
     messages :=
       [ {| role := lit "system"; turn_content := systemPrompt context |};
         {| role := lit "user"; turn_content := userMessage |} ];
     max_completion_tokens := 8192;
     stream := stream |}.

Definition apology : jsstring :=
  lit "I apologize, but I couldn't generate a response. Please try again.".

(** [chunk.choices[0]?.delta?.content]. *)
Definition content_of (chunk : ChatCompletionChunk) : option jsstring :=
  match chunk_choices chunk with
  | choice :: _ =>
      match delta choice with
      | Some d => delta_content d
      | None => None
      end
  | [] => None
  end.

(** The body of [for await (const chunk of stream)]: what is yielded. *)
Fixpoint yielded (chunks : list ChatCompletionChunk) : list jsstring :=
  match chunks with
  | [] => []
  | chunk :: rest =>
      match content_of chunk with
      | Some (c :: r) => (c :: r) :: yielded rest
      | _ => yielded rest
      end
  end.

Section Client.
(** [openai.embeddings.create], [openai.chat.completions.create] without
    and with [stream: true], and the message of the [TypeError] the engine
    raises when a property of [undefined] is read. *)
Variable embeddings_create : EmbeddingParams -> outcome CreateEmbeddingResponse.
Variable chat_completions_create : ChatParams -> outcome ChatCompletion.
Variable chat_completions_stream : ChatParams -> outcome Stream.
Variable undefined_read : jsstring -> jsstring.

Definition generateEmbedding (text : jsstring) : outcome (list float) :=
  DocumentProcessor.rethrow (lit "Failed to generate embedding: ")
    (DocumentProcessor.and_then
       (embeddings_create
          {| embedding_model := lit "text-embedding-3-small";
             input := One text |})
       (fun response =>
          match data response with
          | item :: _ => Ok (embedding item)
          | [] => Throw (undefined_read (lit "embedding"))
          end)).

Definition generateEmbeddings (texts : list jsstring)
  : outcome (list (list float)) :=
  DocumentProcessor.rethrow (lit "Failed to generate embeddings: ")
    (DocumentProcessor.and_then
       (embeddings_create
          {| embedding_model := lit "text-embedding-3-small";
             input := Many texts |})
       (fun response => Ok (map embedding (data response)))).

Definition generateChatCompletion (userMessage context : jsstring)
  : outcome jsstring :=
  DocumentProcessor.rethrow (lit "Failed to generate response: ")
    (DocumentProcessor.and_then
       (chat_completions_create (chat_params userMessage context false))
       (fun response =>
          match choices response with
          | choice :: _ =>
              Ok (DocumentProcessor.or_else (content (message choice)) apology)
          | [] => Throw (undefined_read (lit "message"))
          end)).

Definition generateChatCompletionStream (userMessage context : jsstring)
  : TokenStream :=
  match chat_completions_stream (chat_params userMessage context true) with
  | Ok stream =>
      {| tokens := yielded (delivered stream);
         failure :=
           option_map (app (lit "Failed to generate response: "))
                      (broken stream) |}
  | Throw e =>
      {| tokens := [];
         failure := Some (lit "Failed to generate response: " ++ e) |}
  end.

End Client.

End OpenAI.

(** ** routes.ts: the HTTP handlers *)

Module Json.

Local Unset Elimination Schemes.

(** A request body as [express.json()] leaves it. *)
Inductive value : Type :=
| JNull
| JBool (b : bool)
| JNumber (n : float)
| JString (s : jsstring)
| JArray (items : list value)
| JObject (properties : list (jsstring * value)).

End Json.

Module Zod.
Import Json.

(** The properties of the input of [z.object(...)]: anything that is not
    an object is refused. *)
Definition object (input : option value) : option (list (jsstring * value)) :=
  match input with
  | Some (JObject properties) => Some properties
  | _ => None
  end.

(** [z.string().min(1)] on a property: a string with [length >= 1]. *)
Definition string_min1 (v : option value) : option jsstring :=
  match v with
  | Some (JString (c :: r)) => Some (c :: r)
  | _ => None
  end.

(** [z.string().optional()] on a property: missing, or a string. *)
Definition string_optional (v : option value) : option (option jsstring) :=
  match v with
  | None => Some None
  | Some (JString s) => Some (Some s)
  | _ => None
  end.

End Zod.

Module Routes.
Local Open Scope js_scope.

Module ChatRequest.
Record t := make {
  message : jsstring;
  conversationId : option jsstring
}.
End ChatRequest.

Module ChatResponse.
Record t := make {
  messageId : jsstring;
  conversationId : jsstring;
  content : jsstring;
  citations : list Citation.t;
  (** the instant whose ISO-8601 rendering the source sends *)
  timestamp : Date
}.
End ChatResponse.

Module ProcessDocumentRequest.
Record t := make {
  fileId : jsstring;
  fileName : jsstring
}.
End ProcessDocumentRequest.

Module ProcessDocumentResponse.
Record t := make {
  documentId : jsstring;
  chunksProcessed : Z;
  status : jsstring
}.
End ProcessDocumentResponse.

(** A file as [drive.files.list] describes it. *)
Record DriveFile := mkDriveFile {
  id : option jsstring;
  name : option jsstring;
  mimeType : option jsstring;
  size : option jsstring;
  modifiedTime : option jsstring
}.

(** The objects handed to [res.json]. *)
Inductive body : Type :=
| ChatBody (response : ChatResponse.t)
| FilesBody (files : list DriveFile)
| ProcessBody (response : ProcessDocumentResponse.t)
| StatsBody (stats : IndexStats)
| MessagesBody (messages : list Message.t)
| ValidationBody (error details : jsstring)
| ErrorBody (error message : jsstring).

(** The objects written to the event stream, one [data:] line each. *)
Inductive frame : Type :=
| InitFrame (conversationId : jsstring) (citations : list Citation.t)
| TokenFrame (content : jsstring)
| DoneFrame (messageId : jsstring) (timestamp : Date)
| ErrorFrame (error : jsstring).

(** What a handler sends: a JSON body with its status, or an event stream
    with the headers set and the frames written before [res.end()]. *)
Inductive reply : Type :=
| Json (status : Z) (b : body)
| EventStream (headers : list (jsstring * jsstring)) (frames : list frame).

Definition sse_headers : list (jsstring * jsstring) :=
  [ (lit "Content-Type", lit "text/event-stream");
    (lit "Cache-Control", lit "no-cache");
    (lit "Connection", lit "keep-alive") ].

(** The schema of both chat handlers. *)
Definition parse_chat (input : option Json.value) : option ChatRequest.t :=
  match Zod.object input with
  | None => None
  | Some properties =>
      match Zod.string_min1 (JsMap.get (lit "message") properties),
            Zod.string_optional (JsMap.get (lit "conversationId") properties)
      with
      | Some message, Some conversationId =>
          Some {| ChatRequest.message := message;
                  ChatRequest.conversationId := conversationId |}
      | _, _ => None
      end
  end.

Definition parse_process (input : option Json.value)
  : option ProcessDocumentRequest.t :=
  match Zod.object input with
  | None => None
  | Some properties =>
      match Zod.string_min1 (JsMap.get (lit "fileId") properties),
            Zod.string_min1 (JsMap.get (lit "fileName") properties)
      with
      | Some fileId, Some fileName =>
          Some {| ProcessDocumentRequest.fileId := fileId;
                  ProcessDocumentRequest.fileName := fileName |}
      | _, _ => None
      end
  end.

(** "Create or get conversation": [convId] after the [if (!convId)]. *)
Definition conversation_for (message : jsstring)
  (conversationId : option jsstring) : M jsstring :=
  match conversationId with
  | Some (c :: r) => ret (c :: r)
  | _ =>
      newConv <- createConversation
                   {| InsertConversation.title := Some (slice_to 50 message) |} ;;
      ret (Conversation.id newConv)
  end.

(** "Store user message". *)
Definition store_user_message (convId message : jsstring) : M Message.t :=
  createMessage
    {| InsertMessage.conversationId := convId;
       InsertMessage.role := lit "user";
       InsertMessage.content := message;
       InsertMessage.citations := None |}.

(** [try { ... } catch (error) { res.status(500).json({ error, message }) }]
    around a block that ends in a reply. *)
Definition or_500 (error : jsstring) (block : M reply) (w : World)
  : reply * World :=
  match block w with
  | (Ok r, w') => (r, w')
  | (Throw message, w') => (Json 500 (ErrorBody error message), w')
  end.

(** The locals of the streaming handler that the loop updates, and the
    frames written so far. *)
Record progress := mkProgress {
  fullContent : jsstring;
  citations : list Citation.t;
  written : list frame
}.

(** The body of [for await (const chunk of queryRAGStream(message))]. *)
Definition on_chunk (convId : jsstring) (st : progress) (chunk : event)
  : progress :=
  match chunk with
  | CitationsEvent data =>
      {| fullContent := fullContent st;
         citations := data;
         written := written st ++ [InitFrame convId data] |}
  | TokenEvent data =>
      {| fullContent := fullContent st ++ data;
         citations := citations st;
         written := written st ++ [TokenFrame data] |}
  end.

Section Handlers.
(** lib/openai.ts, the document processor, the Drive listing, and
    [fromError(error).toString()] of zod-validation-error. *)
Variable generateEmbedding : jsstring -> outcome (list float).
Variable generateEmbeddings : list jsstring -> outcome (list (list float)).
Variable generateChatCompletion : jsstring -> jsstring -> outcome jsstring.
Variable generateChatCompletionStream : jsstring -> jsstring -> TokenStream.
Variable processDocument :
  jsstring -> outcome DocumentProcessor.ProcessedDocument.
Variable listDriveFiles : outcome (list DriveFile).
Variable validation_details : option Json.value -> jsstring.

Definition invalid (input : option Json.value) : reply :=
  Json 400 (ValidationBody (lit "Validation error") (validation_details input)).

(** [POST /api/chat/stream]. *)
Definition post_chat_stream (input : option Json.value) (w : World)
  : reply * World :=
  match parse_chat input with
  | None => (invalid input, w)
  | Some validated =>
      let message := ChatRequest.message validated in
      match (convId <- conversation_for message
                         (ChatRequest.conversationId validated) ;;
             store_user_message convId message ;;;
             ret convId) w
      with
      | (Throw e, w1) =>
          (Json 500 (ErrorBody (lit "Failed to process message") e), w1)
      | (Ok convId, w1) =>
          match queryRAGStream generateEmbedding generateChatCompletionStream
                  message w1
          with
          | ((chunks, ending), w2) =>
              let st :=
                fold_left (on_chunk convId) chunks
                  {| fullContent := []; citations := []; written := [] |} in
              match ending with
              | Throw e =>
                  (EventStream sse_headers (written st ++ [ErrorFrame e]), w2)
              | Ok _ =>
                  match createMessage
                          {| InsertMessage.conversationId := convId;
                             InsertMessage.role := lit "assistant";
                             InsertMessage.content := fullContent st;
                             InsertMessage.citations := Some (citations st) |}
                          w2
                  with
                  | (Ok assistantMessage, w3) =>
                      (EventStream sse_headers
                         (written st
                          ++ [DoneFrame (Message.id assistantMessage)
                                (Message.timestamp assistantMessage)]), w3)
                  | (Throw e, w3) =>
                      (EventStream sse_headers (written st ++ [ErrorFrame e]),
                       w3)
                  end
              end
          end
      end
  end.

(** [POST /api/chat]. *)
Definition post_chat (input : option Json.value) (w : World)
  : reply * World :=
  match parse_chat input with
  | None => (invalid input, w)
  | Some validated =>
      let message := ChatRequest.message validated in
      or_500 (lit "Failed to process message")
        (convId <- conversation_for message
                     (ChatRequest.conversationId validated) ;;
         store_user_message convId message ;;;
         ragResponse <- queryRAG generateEmbedding generateChatCompletion
                          message ;;
         assistantMessage <-
           createMessage
             {| InsertMessage.conversationId := convId;
                InsertMessage.role := lit "assistant";
                InsertMessage.content := answer ragResponse;
                InsertMessage.citations :=
                  Some (RagService.citations ragResponse) |} ;;
         ret (Json 200
                (ChatBody
                   {| ChatResponse.messageId := Message.id assistantMessage;
                      ChatResponse.conversationId := convId;
                      ChatResponse.content := answer ragResponse;
                      ChatResponse.citations :=
                        RagService.citations ragResponse;
                      ChatResponse.timestamp :=
                        Message.timestamp assistantMessage |})))
        w
  end.

(** [GET /api/documents]. *)
Definition get_documents : World -> reply * World :=
  or_500 (lit "Failed to list documents")
    (files <- await listDriveFiles ;;
     ret (Json 200 (FilesBody files))).

(** [POST /api/documents/process]. *)
Definition post_documents_process (input : option Json.value) (w : World)
  : reply * World :=
  match parse_process input with
  | None => (invalid input, w)
  | Some validated =>
      or_500 (lit "Failed to process document")
        (result <- indexDocument generateEmbeddings processDocument
                     (ProcessDocumentRequest.fileId validated) ;;
         ret (Json 200
                (ProcessBody
                   {| ProcessDocumentResponse.documentId := fst result;
                      ProcessDocumentResponse.chunksProcessed := snd result;
                      ProcessDocumentResponse.status := lit "success" |})))
        w
  end.

(** [GET /api/stats]. *)
Definition get_stats : World -> reply * World :=
  or_500 (lit "Failed to get statistics")
    (stats <- getIndexStats ;;
     ret (Json 200 (StatsBody stats))).

(** [GET /api/conversations/:id/messages]. *)
Definition get_conversation_messages (id : jsstring)
  : World -> reply * World :=
  or_500 (lit "Failed to get messages")
    (messages <- getMessagesByConversation id ;;
     ret (Json 200 (MessagesBody messages))).

End Handlers.

End Routes.

(** ** Sample inputs *)

Module Samples.

(** A package leaflet of 70 characters: four sentences. *)
Definition leaflet : jsstring :=
  lit "Aspirin reduces fever. It also thins the blood! Ask a doctor?  Always.".

(** Two short sentences. *)
Definition note : jsstring := lit "Take two tablets. Drink water.".

(** A long sentence followed by a short one. *)
Definition advice : jsstring :=
  lit "Patients with a history of stomach ulcers should avoid this medicine. Ask first.".

(** A store with five chunks of one document: three with an embedding, one
    without, one with an empty one. *)
Definition chunk (id : string) (embedding : option (list float))
  (chunkIndex : Z) : DocumentChunk.t :=
  {| DocumentChunk.id := lit id;
     DocumentChunk.documentId := lit "doc-1";
     DocumentChunk.content := lit "Ibuprofen is taken with food.";
     DocumentChunk.embedding := embedding;
     DocumentChunk.metadata := None;
     DocumentChunk.chunkIndex := chunkIndex |}.

Definition store_of (cs : list DocumentChunk.t) : MemStorage :=
  {| messages := JsMap.empty;
     conversations := JsMap.empty;
     documentChunks := map (fun c => (DocumentChunk.id c, c)) cs |}.

Definition world_of (s : MemStorage) : World :=
  {| storage := s;
     uuids := fun n => lit "uuid-" ++ show_int (Z.of_nat n);
     drawn := 0;
     clock := fun n => 1700000000000 + Z.of_nat n;
     ticks := 0 |}.

Definition c_east := chunk "c-east" (Some [1; 0]%float) 0.
Definition c_north := chunk "c-north" (Some [0; 1]%float) 1.
Definition c_bare := chunk "c-bare" None 2.
Definition c_hollow := chunk "c-hollow" (Some []) 3.
Definition c_diag := chunk "c-diag" (Some [1; 1]%float) 4.

Definition library : World :=
  world_of (store_of [c_north; c_bare; c_east; c_hollow; c_diag]).

(** Two chunks, one of them with a component of [2^600], whose square
    overflows. *)
Definition c_huge := chunk "c-huge" (Some [0x1p+600]%float) 0.
Definition c_unit := chunk "c-unit" (Some [1]%float) 1.

Definition overflowing : World := world_of (store_of [c_huge; c_unit]).

(** A chunk of 255 characters with its metadata, and a store that holds it. *)
Definition c_long : DocumentChunk.t :=
  {| DocumentChunk.id := lit "c-long";
     DocumentChunk.documentId := lit "doc-2";
     DocumentChunk.content := concat (repeat (lit "Rest and fluids. ") 15);
     DocumentChunk.embedding := Some [1; 0]%float;
     DocumentChunk.metadata :=
       Some {| DocumentMetadata.fileName := lit "flu.pdf";
               DocumentMetadata.fileId := lit "file-9";
               DocumentMetadata.totalChunks := 8;
               DocumentMetadata.processedAt := 1700000000000 |};
     DocumentChunk.chunkIndex := 7 |}.

Definition archive : World := world_of (store_of [c_north; c_long]).

(** A chunk stored directly, with the index [2 ^ 53]. *)
Definition far_insert : InsertDocumentChunk.t :=
  {| InsertDocumentChunk.documentId := lit "doc-3";
     InsertDocumentChunk.content := lit "Store below 25 degrees.";
     InsertDocumentChunk.embedding := Some [1; 0]%float;
     InsertDocumentChunk.metadata := None;
     InsertDocumentChunk.chunkIndex := 9007199254740992 |}.

(** A process that has indexed nothing. *)
Definition fresh : World := world_of constructor.

(** Collaborators that answer. *)
Definition embed_east (_ : jsstring) : outcome (list float) :=
  Ok [1; 0]%float.
Definition complete (_ _ : jsstring) : outcome jsstring :=
  Ok (lit "Drink water and rest.").
Definition complete_stream (_ _ : jsstring) : TokenStream :=
  {| tokens := [lit "Drink"; lit " water"]; failure := None |}.

(** A conversation with two messages. *)
Definition message (id : string) (content : string) (timestamp : Date)
  : Message.t :=
  {| Message.id := lit id;
     Message.conversationId := lit "conv-1";
     Message.role := lit "user";
     Message.content := lit content;
     Message.citations := None;
     Message.timestamp := timestamp |}.

Definition chat : World :=
  world_of
    {| messages :=
         [(lit "m-2", message "m-2" "And for a child?" 1699999999200);
          (lit "m-1", message "m-1" "What helps against fever?" 1699999999100)];
       conversations :=
         [(lit "conv-1",
           {| Conversation.id := lit "conv-1";
              Conversation.title := Some (lit "Fever");
              Conversation.createdAt := 1699999999000;
              Conversation.updatedAt := 1699999999000 |})];
       documentChunks := JsMap.empty |}.

(** A Drive that holds the leaflet as plain text, and an embedding provider
    that maps every text to the same vector. *)
Definition drive_metadata (_ : jsstring)
  : outcome DocumentProcessor.FileMetadata :=
  Ok {| DocumentProcessor.name := Some (lit "leaflet.txt");
        DocumentProcessor.mimeType := Some (lit "text/plain") |}.
Definition drive_download (_ : jsstring) : outcome DocumentProcessor.Buffer :=
  Ok leaflet.
Definition no_parser (_ : DocumentProcessor.Buffer) : outcome jsstring :=
  Throw (lit "not a document").
Definition ascii (buffer : DocumentProcessor.Buffer) : jsstring := buffer.

Definition process (fileId : jsstring)
  : outcome DocumentProcessor.ProcessedDocument :=
  DocumentProcessor.processDocument drive_metadata drive_download
    no_parser no_parser ascii fileId.

Definition embed_all (texts : list jsstring) : outcome (list (list float)) :=
  Ok (map (fun _ => [1; 0]%float) texts).

(** The process after the leaflet was indexed, and a later call that stores
    one more chunk under the same document id and index. *)
Definition indexed : World :=
  snd (indexDocument embed_all process (lit "file-1") fresh).

Definition stray : InsertDocumentChunk.t :=
  {| InsertDocumentChunk.documentId := uuids fresh 0;
     InsertDocumentChunk.content := lit "Keep out of reach of children.";
     InsertDocumentChunk.embedding := None;
     InsertDocumentChunk.metadata := None;
     InsertDocumentChunk.chunkIndex := 0 |}.

(** A Drive that holds a picture, which the processor refuses. *)
Definition drive_image_metadata (_ : jsstring)
  : outcome DocumentProcessor.FileMetadata :=
  Ok {| DocumentProcessor.name := Some (lit "scan.png");
        DocumentProcessor.mimeType := Some (lit "image/png") |}.

Definition process_image (fileId : jsstring)
  : outcome DocumentProcessor.ProcessedDocument :=
  DocumentProcessor.processDocument drive_image_metadata drive_download
    no_parser no_parser ascii fileId.

(** A provider whose completion has no text, and one whose stream delivers
    two fragments among empty chunks before it breaks. *)
Definition sdk_silent (_ : OpenAI.ChatParams) : outcome OpenAI.ChatCompletion :=
  Ok {| OpenAI.choices :=
          [ {| OpenAI.message := {| OpenAI.content := None |} |} ] |}.

Definition sdk_chunk (delta : option OpenAI.Delta) : OpenAI.ChatCompletionChunk :=
  {| OpenAI.chunk_choices := [ {| OpenAI.delta := delta |} ] |}.

Definition sdk_stream (_ : OpenAI.ChatParams) : outcome OpenAI.Stream :=
  Ok {| OpenAI.delivered :=
          [ sdk_chunk (Some {| OpenAI.delta_content := Some (lit "Drink") |});
            sdk_chunk None;
            sdk_chunk (Some {| OpenAI.delta_content := Some (lit "") |});
            {| OpenAI.chunk_choices := [] |};
            sdk_chunk (Some {| OpenAI.delta_content := Some (lit " water") |}) ];
        OpenAI.broken := Some (lit "socket hang up") |}.

(** An embedding provider whose answer holds no vector. *)
Definition sdk_no_vectors (_ : OpenAI.EmbeddingParams)
  : outcome OpenAI.CreateEmbeddingResponse :=
  Ok {| OpenAI.data := [] |}.

(** The wording of V8 for a read on [undefined]. *)
Definition v8_undefined_read (property : jsstring) : jsstring :=
  lit "Cannot read properties of undefined (reading '" ++ property ++ lit "')".

(** An embedding provider that returns two vectors, whatever it is sent. *)
Definition embed_two (_ : list jsstring) : outcome (list (list float)) :=
  Ok [[1; 0]; [0; 1]]%float.

(** An embedding provider that returns no vector at all. *)
Definition embed_none (_ : list jsstring) : outcome (list (list float)) :=
  Ok [].

(** Dosing instructions in three sentences of 56, 46 and 40 characters. *)
Definition regimen : jsstring :=
  lit "Take one tablet of ibuprofen with food every eight hours. Do not take more than three tablets in one day! Stop and see a doctor if the pain stays.".

(** A hygiene handbook of twelve paragraphs of three sentences, 2052
    characters, held by a Drive as plain text; and a Drive that holds the
    note, too short to give a chunk. *)
Definition handbook : jsstring :=
  concat (repeat (lit "Wash your hands with soap for twenty seconds before every meal. Cover your mouth when you cough or sneeze into a tissue! Do you keep the wound clean and dry for two days? ") 12).

Definition drive_handbook (_ : jsstring) : outcome DocumentProcessor.Buffer :=
  Ok handbook.

Definition process_handbook (fileId : jsstring)
  : outcome DocumentProcessor.ProcessedDocument :=
  DocumentProcessor.processDocument drive_metadata drive_handbook
    no_parser no_parser ascii fileId.

Definition drive_note (_ : jsstring) : outcome DocumentProcessor.Buffer :=
  Ok note.

Definition process_note (fileId : jsstring)
  : outcome DocumentProcessor.ProcessedDocument :=
  DocumentProcessor.processDocument drive_metadata drive_note
    no_parser no_parser ascii fileId.

(** Request bodies: a first question, a follow-up in a conversation, and
    a body without a message. *)
Definition first_question : option Json.value :=
  Some (Json.JObject [(lit "message", Json.JString (lit "What helps against fever?"))]).

Definition follow_up : option Json.value :=
  Some (Json.JObject
          [(lit "message", Json.JString (lit "And for a child?"));
           (lit "conversationId", Json.JString (lit "conv-1"))]).

Definition no_message : option Json.value :=
  Some (Json.JObject [(lit "message", Json.JString (lit ""))]).

(** A request to index the picture. *)
Definition picture : option Json.value :=
  Some (Json.JObject
          [(lit "fileId", Json.JString (lit "file-2"));
           (lit "fileName", Json.JString (lit "scan.png"))]).

Definition details (_ : option Json.value) : jsstring :=
  lit "Validation error: Message cannot be empty at message".

(** Providers that fail. *)
Definition embed_down (_ : jsstring) : outcome (list float) :=
  Throw (lit "Failed to generate embedding: 429 quota exceeded").

Definition stream_broken (_ _ : jsstring) : TokenStream :=
  {| tokens := [lit "Drink"];
     failure := Some (lit "Failed to generate response: socket hang up") |}.

End Samples.

(* ====================== THEOREMS ====================== *)

(** ** Facts about strings *)

Module JsStringFacts.

(** A string with no white space at either end. *)
Definition edge_ok (t : jsstring) : bool :=
  match t with [] => true | c :: _ => negb (is_space c) end.

Definition clean (t : jsstring) : Prop :=
  edge_ok t = true /\ edge_ok (rev t) = true.

Lemma len_app {A : Type} (l r : list A) : len (l ++ r) = len l + len r.
Proof. unfold len. rewrite length_app. lia. Qed.

Lemma len_nonneg {A : Type} (l : list A) : 0 <= len l.
Proof. unfold len. lia. Qed.

Lemma is_empty_true {A : Type} (l : list A) : is_empty l = true <-> l = [].
Proof. destruct l; simpl; split; congruence. Qed.

Lemma is_empty_false {A : Type} (l : list A) : is_empty l = false <-> l <> [].
Proof. destruct l; simpl; split; congruence. Qed.

Lemma drop_while_suffix {A : Type} (f : A -> bool) (l : list A) :
  exists p, l = p ++ drop_while f l.
Proof.
  induction l as [|x r [p Hp]]; simpl.
  - exists []. reflexivity.
  - destruct (f x).
    + exists (x :: p). simpl. congruence.
    + exists []. reflexivity.
Qed.

Lemma drop_while_length {A : Type} (f : A -> bool) (l : list A) :
  (length (drop_while f l) <= length l)%nat.
Proof.
  destruct (drop_while_suffix f l) as [p Hp].
  rewrite Hp at 2. rewrite length_app. lia.
Qed.

Lemma drop_while_edge (s : jsstring) : edge_ok (drop_while is_space s) = true.
Proof.
  induction s as [|c r IH]; simpl; auto.
  destruct (is_space c) eqn:E; auto. simpl. now rewrite E.
Qed.

Lemma drop_while_id (t : jsstring) :
  edge_ok t = true -> drop_while is_space t = t.
Proof.
  destruct t as [|c r]; simpl; auto.
  destruct (is_space c); simpl; congruence.
Qed.

(** Dropping stops at the latest at the first character outside the class. *)
Lemma drop_while_stop {A : Type} (f : A -> bool) (p : list A) c r :
  f c = false -> exists p', drop_while f (p ++ c :: r) = p' ++ c :: r.
Proof.
  intros Hc. induction p as [|x p IH]; simpl.
  - rewrite Hc. exists []. reflexivity.
  - destruct (f x).
    + exact IH.
    + exists (x :: p). reflexivity.
Qed.

Lemma trim_clean (s : jsstring) : clean (trim s).
Proof.
  unfold clean, trim.
  set (d := drop_while is_space s).
  destruct (drop_while_suffix is_space (rev d)) as [p Hp].
  set (e := drop_while is_space (rev d)) in *.
  split.
  - assert (Hd : d = rev e ++ rev p).
    { rewrite <- (rev_involutive d), Hp, rev_app_distr. reflexivity. }
    pose proof (drop_while_edge s) as Hs. fold d in Hs.
    destruct (rev e) as [|c r]; simpl; auto.
    rewrite Hd in Hs. exact Hs.
  - rewrite rev_involutive. apply drop_while_edge.
Qed.

Lemma trim_id (t : jsstring) : clean t -> trim t = t.
Proof.
  intros [H1 H2]. unfold trim.
  rewrite (drop_while_id _ H1), (drop_while_id _ H2).
  apply rev_involutive.
Qed.

Lemma infix_refl (t : jsstring) : infix t t.
Proof. exists [], []. simpl. now rewrite app_nil_r. Qed.

Lemma infix_app_l (t s x : jsstring) : infix t s -> infix t (x ++ s).
Proof.
  intros (p & q & ->). exists (x ++ p), q. now rewrite app_assoc.
Qed.

Lemma infix_app_r (t s x : jsstring) : infix t s -> infix t (s ++ x).
Proof.
  intros (p & q & ->). exists p, (q ++ x). now rewrite <- !app_assoc.
Qed.

Lemma infix_len (t s : jsstring) : infix t s -> len t <= len s.
Proof.
  intros (p & q & ->). rewrite !len_app.
  pose proof (len_nonneg p). pose proof (len_nonneg q). lia.
Qed.

(** Trimming a string keeps every clean non-empty substring of it. *)
Lemma trim_infix (t s : jsstring) :
  t <> [] -> clean t -> infix t s -> infix t (trim s).
Proof.
  intros Hne [H1 H2] (p & q & ->). unfold trim.
  destruct t as [|c t']; [congruence|].
  simpl in H1. apply negb_true_iff in H1.
  destruct (drop_while_stop is_space p c (t' ++ q) H1) as [p' Hp'].
  change (p ++ (c :: t') ++ q) with (p ++ c :: (t' ++ q)).
  rewrite Hp'.
  change (p' ++ c :: t' ++ q) with (p' ++ (c :: t') ++ q).
  rewrite !rev_app_distr.
  destruct (rev (c :: t')) as [|d u] eqn:Er.
  { apply (f_equal (@length _)) in Er. rewrite length_rev in Er.
    simpl in Er. lia. }
  simpl in H2. apply negb_true_iff in H2.
  rewrite <- app_assoc.
  destruct (drop_while_stop is_space (rev q) d (u ++ rev p') H2)
    as [q' Hq'].
  change ((d :: u) ++ rev p') with (d :: (u ++ rev p')).
  rewrite Hq'.
  exists p', (rev q').
  change (q' ++ d :: u ++ rev p') with (q' ++ (d :: u) ++ rev p').
  rewrite <- Er, !rev_app_distr, !rev_involutive, <- app_assoc.
  reflexivity.
Qed.

Lemma match_sep_shorter (s r : jsstring) :
  match_sep s = Some r -> (length r + 2 <= length s)%nat.
Proof.
  unfold match_sep.
  destruct (Nat.ltb_spec (length (drop_while is_term s)) (length s));
    simpl; [|discriminate].
  destruct (Nat.ltb_spec
              (length (drop_while is_space (drop_while is_term s)))
              (length (drop_while is_term s))); [|discriminate].
  intros [= <-]. lia.
Qed.

(** Total length of the pieces, each counted with two characters more. *)
Definition weight (ps : list jsstring) : Z :=
  fold_right (fun p w => len p + 2 + w) 0 ps.

Lemma weight_cons p ps : weight (p :: ps) = len p + 2 + weight ps.
Proof. reflexivity. Qed.

Lemma len_rev (s : jsstring) : len (rev s) = len s.
Proof. unfold len. now rewrite length_rev. Qed.

Lemma len_cons {A : Type} (x : A) l : len (x :: l) = 1 + len l.
Proof. unfold len. simpl length. lia. Qed.

Lemma split_go_weight fuel : forall acc s,
  weight (split_go fuel acc s) <= len acc + len s + 2.
Proof.
  induction fuel as [|fuel IH]; intros acc s.
  - simpl split_go. rewrite weight_cons, len_app, len_rev.
    change (weight []) with 0. lia.
  - destruct s as [|c s'].
    + simpl split_go. rewrite weight_cons, len_rev.
      change (weight []) with 0. change (len (@nil char)) with 0. lia.
    + simpl split_go. destruct (match_sep (c :: s')) as [r|] eqn:E.
      * apply match_sep_shorter in E.
        rewrite weight_cons, len_rev. specialize (IH [] r).
        assert (len r + 2 <= len (c :: s')) by (unfold len; lia).
        change (len (@nil char)) with 0 in IH. lia.
      * specialize (IH (c :: acc) s'). rewrite !len_cons in *. lia.
Qed.

Lemma split_sentences_weight (text : jsstring) :
  weight (split_sentences text) <= len text + 2.
Proof.
  unfold split_sentences.
  pose proof (split_go_weight (length text) [] text) as H.
  unfold len in *. simpl in H. lia.
Qed.

Lemma split_go_nonempty fuel acc s : split_go fuel acc s <> [].
Proof.
  revert acc s. induction fuel as [|fuel IH]; intros acc s; simpl.
  - discriminate.
  - destruct s as [|c s']; [discriminate|].
    destruct (match_sep (c :: s')); [discriminate|apply IH].
Qed.

(** The scan consumes a character or more per step, so the length of the
    text is fuel enough: more fuel changes nothing. *)
Lemma split_go_fuel : forall fuel fuel' acc s,
  (length s <= fuel)%nat -> (length s <= fuel')%nat ->
  split_go fuel acc s = split_go fuel' acc s.
Proof.
  induction fuel as [|fuel IH]; intros fuel' acc s H H'.
  - destruct s; [|simpl in H; lia].
    destruct fuel'; simpl; now rewrite ?app_nil_r.
  - destruct s as [|c s'].
    + destruct fuel'; simpl; now rewrite ?app_nil_r.
    + destruct fuel' as [|fuel']; [simpl in H'; lia|].
      simpl split_go. destruct (match_sep (c :: s')) as [r|] eqn:E.
      * apply match_sep_shorter in E. f_equal.
        apply IH; simpl in *; lia.
      * apply IH; simpl in *; lia.
Qed.

(** A text in which no terminator run is followed by white space. *)
Definition no_separator (text : jsstring) : Prop :=
  forall p q, text = p ++ q -> match_sep q = None.

Lemma split_go_no_sep fuel : forall acc s,
  (forall p q, s = p ++ q -> match_sep q = None) ->
  split_go fuel acc s = [rev acc ++ s].
Proof.
  induction fuel as [|fuel IH]; intros acc s H; simpl; auto.
  destruct s as [|c s'].
  - now rewrite app_nil_r.
  - rewrite (H [] (c :: s') eq_refl).
    rewrite IH.
    + simpl. now rewrite <- app_assoc.
    + intros p q ->. apply (H (c :: p) q). reflexivity.
Qed.

Lemma split_no_separator (text : jsstring) :
  no_separator text -> split_sentences text = [text].
Proof.
  intros H. unfold split_sentences. now rewrite split_go_no_sep.
Qed.

(** Whether [/[.!?]+\s+/] matches somewhere in the text. *)
Fixpoint has_separator (s : jsstring) : bool :=
  match s with
  | [] => false
  | _ :: r =>
      match match_sep s with Some _ => true | None => has_separator r end
  end.

Lemma has_separator_false (text : jsstring) :
  has_separator text = false -> no_separator text.
Proof.
  unfold no_separator. induction text as [|c r IH]; intros H p q E.
  - symmetry in E. apply app_eq_nil in E. destruct E as [_ ->].
    reflexivity.
  - simpl in H. destruct (match_sep (c :: r)) eqn:Em; [discriminate|].
    destruct p as [|c' p]; simpl in E.
    + now subst q.
    + injection E as _ E. now apply (IH H p q).
Qed.

End JsStringFacts.
Import JsStringFacts.

(** ** Facts about the chunker *)

Module ChunkerFacts.

Lemma edge_ok_app (t u : jsstring) :
  t <> [] -> edge_ok (t ++ u) = edge_ok t.
Proof. destruct t; [congruence|reflexivity]. Qed.

Lemma trim_length (s : jsstring) : len (trim s) <= len s.
Proof.
  unfold trim, len. rewrite length_rev.
  pose proof (drop_while_length is_space (rev (drop_while is_space s))).
  pose proof (drop_while_length is_space s).
  rewrite length_rev in *. lia.
Qed.

Lemma sentences_clean (text : jsstring) :
  Forall (fun t => t <> [] /\ clean t) (sentences text).
Proof.
  unfold sentences. apply Forall_forall. intros t Ht.
  apply filter_In in Ht. destruct Ht as [Hin Hne].
  apply in_map_iff in Hin. destruct Hin as (p & <- & _).
  split.
  - apply negb_true_iff, is_empty_false in Hne. exact Hne.
  - apply trim_clean.
Qed.

Lemma join_sp_cons2 x y r :
  join_sp (x :: y :: r) = x ++ sp ++ join_sp (y :: r).
Proof. reflexivity. Qed.

Lemma join_sp_nonempty x r : x <> [] -> join_sp (x :: r) <> [].
Proof.
  intros Hx. destruct r as [|y r]; simpl; auto.
  destruct x; [congruence|discriminate].
Qed.

Lemma join_sp_clean (ss : list jsstring) :
  Forall (fun t => t <> [] /\ clean t) ss -> clean (join_sp ss).
Proof.
  induction 1 as [|x r [Hx [Hx1 Hx2]] Hr IH].
  - split; reflexivity.
  - destruct r as [|y r]; [split; assumption|].
    rewrite join_sp_cons2. split.
    + now rewrite edge_ok_app.
    + rewrite !rev_app_distr, <- app_assoc, edge_ok_app.
      * apply IH.
      * inversion Hr as [|? ? [Hy _] _]; subst.
        intros E. apply (join_sp_nonempty y r Hy).
        apply (f_equal (@rev _)) in E. rewrite rev_involutive in E.
        exact E.
Qed.

(** *** Coverage: no sentence is lost before the length filter *)

Definition covered (t : jsstring) (cs : list jsstring) : Prop :=
  exists c, In c cs /\ infix t c.

(** [t] is in a closed chunk or in the running buffer. *)
Definition held (st : state) (t : jsstring) : Prop :=
  covered t (chunks st) \/ infix t (currentChunk st).

Lemma covered_app_l t cs ds : covered t cs -> covered t (cs ++ ds).
Proof. intros (c & Hc & Hi). exists c. split; [apply in_or_app|]; auto. Qed.

Lemma covered_last t cs c : infix t c -> covered t (cs ++ [c]).
Proof.
  intros Hi. exists c. split; [apply in_or_app; right; left|]; auto.
Qed.

Lemma infix_nil_inv (t : jsstring) : infix t [] -> t = [].
Proof.
  intros (p & q & H). symmetry in H.
  apply app_eq_nil in H. destruct H as [_ H].
  apply app_eq_nil in H. tauto.
Qed.

Lemma step_keeps cs ov st s t :
  t <> [] -> clean t -> held st t -> held (step cs ov st s) t.
Proof.
  intros Hne Hcl Hh. unfold step.
  destruct (is_empty (trim s)); [exact Hh|].
  destruct (cs <? _).
  - destruct (is_empty (currentChunk st)) eqn:E; cbn [negb];
      left; cbn [chunks]; destruct Hh as [Hc|Hi];
      try (now apply covered_app_l).
    + apply is_empty_true in E. rewrite E in Hi.
      apply infix_nil_inv in Hi. congruence.
    + apply covered_last, trim_infix; assumption.
  - destruct Hh as [Hc|Hi]; [left; exact Hc|].
    right. cbn [currentChunk]. now apply infix_app_r.
Qed.

Lemma step_adds cs ov st s :
  trim s <> [] -> held (step cs ov st s) (trim s).
Proof.
  intros Hne. unfold step.
  apply is_empty_false in Hne. rewrite Hne.
  destruct (cs <? _).
  - destruct (is_empty (currentChunk st)); cbn [negb].
    + left. cbn [chunks]. apply covered_last, infix_refl.
    + right. cbn [currentChunk].
      apply infix_app_l. apply infix_app_l. apply infix_refl.
  - right. cbn [currentChunk].
    apply infix_app_l. apply infix_app_l. apply infix_refl.
Qed.

Lemma fold_holds cs ov : forall ps st t,
  t <> [] -> clean t ->
  held st t \/ In t (map trim ps) ->
  held (fold_left (step cs ov) ps st) t.
Proof.
  induction ps as [|p ps IH]; intros st t Hne Hcl H; simpl.
  - destruct H as [H|[]]. exact H.
  - apply IH; auto.
    destruct H as [H|[H|H]].
    + left. now apply step_keeps.
    + left. subst t. now apply step_adds.
    + now right.
Qed.

Lemma accumulate_covers text cs ov t :
  In t (sentences text) -> covered t (accumulate text cs ov).
Proof.
  intros Hin.
  pose proof (sentences_clean text) as Hall.
  rewrite Forall_forall in Hall. destruct (Hall t Hin) as [Hne Hcl].
  unfold sentences in Hin. apply filter_In in Hin. destruct Hin as [Hin _].
  assert (Hh : held (fold_left (step cs ov) (split_sentences text) init) t)
    by (apply fold_holds; auto).
  unfold accumulate.
  set (st := fold_left (step cs ov) (split_sentences text) init) in *.
  destruct Hh as [Hc|Hi].
  - destruct (negb _); [now apply covered_app_l|exact Hc].
  - pose proof (trim_infix _ _ Hne Hcl Hi) as Ht.
    destruct (is_empty (trim (currentChunk st))) eqn:E; simpl.
    + apply is_empty_true in E. rewrite E in Ht.
      apply infix_nil_inv in Ht. congruence.
    + now apply covered_last.
Qed.

(** *** Short texts: a single buffer, never closed early *)

(** What the buffer holds after the sentences [ss] were appended. *)
Definition glue (cur : jsstring) (ss : list jsstring) : jsstring :=
  join_sp (if is_empty cur then ss else cur :: ss).

Definition room (ps : list jsstring) : Z :=
  fold_right (fun p w => len p + 1 + w) 0 ps.

Definition sents (ps : list jsstring) : list jsstring :=
  filter (fun s => negb (is_empty s)) (map trim ps).

Lemma room_nonneg ps : 0 <= room ps.
Proof.
  induction ps as [|p ps IH]; simpl; [lia|].
  pose proof (len_nonneg p). lia.
Qed.

Lemma room_weight ps : room ps + Z.of_nat (length ps) = weight ps.
Proof. induction ps as [|p ps IH]; simpl length; simpl; lia. Qed.

Lemma glue_nonempty cur ss : cur <> [] -> glue cur ss = join_sp (cur :: ss).
Proof. destruct cur; [congruence|reflexivity]. Qed.

Lemma glue_step cur t rest :
  t <> [] ->
  glue (cur ++ (if negb (is_empty cur) then sp else []) ++ t) rest
  = glue cur (t :: rest).
Proof.
  intros Ht. destruct cur as [|c cur].
  - cbn [is_empty negb app]. now rewrite (glue_nonempty _ _ Ht).
  - cbn [is_empty negb]. rewrite !glue_nonempty by discriminate.
    destruct rest as [|r rest]; cbn [join_sp].
    + reflexivity.
    + rewrite <- !app_assoc. reflexivity.
Qed.

Lemma fold_short cs ov : forall ps cur prev,
  len cur + room ps <= cs + 1 ->
  fold_left (step cs ov) ps (mkState [] cur prev)
  = mkState [] (glue cur (sents ps)) prev.
Proof.
  induction ps as [|p ps IH]; intros cur prev Hroom.
  - simpl. unfold glue. simpl.
    destruct cur; reflexivity.
  - simpl fold_left. simpl room in Hroom.
    pose proof (room_nonneg ps). pose proof (trim_length p).
    pose proof (len_nonneg (trim p)).
    unfold step at 2. cbn [currentChunk chunks previousChunk].
    unfold sents. simpl map. simpl filter.
    destruct (is_empty (trim p)) eqn:E; simpl negb; cbv iota.
    + apply IH. lia.
    + destruct (Z.ltb_spec cs (len cur + len (trim p))); [lia|].
      rewrite IH.
      * f_equal. apply glue_step. now apply is_empty_false.
      * rewrite !len_app.
        assert (len (if negb (is_empty cur) then sp else []) <= 1)
          by (destruct (negb _); unfold len; simpl; lia).
        lia.
Qed.

Lemma chunkText_short text cs ov :
  len text < cs ->
  chunkText text cs ov =
    if 50 <? len (join_sp (sentences text))
    then [join_sp (sentences text)] else [].
Proof.
  intros Hlen. unfold chunkText, accumulate, init.
  rewrite fold_short.
  - cbn [currentChunk chunks]. unfold glue. cbn [is_empty].
    change (sents (split_sentences text)) with (sentences text).
    rewrite (trim_id _ (join_sp_clean _ (sentences_clean text))).
    destruct (join_sp (sentences text)) as [|c j] eqn:E.
    + reflexivity.
    + simpl. destruct (50 <? _); reflexivity.
  - pose proof (split_sentences_weight text) as Hw.
    rewrite <- room_weight in Hw.
    assert (1 <= Z.of_nat (length (split_sentences text))).
    { pose proof (split_go_nonempty (length text) [] text) as Hn.
      unfold split_sentences.
      destruct (split_go (length text) [] text); [congruence|].
      simpl length. lia. }
    change (len (@nil char)) with 0. lia.
Qed.

Lemma sentences_no_separator text :
  no_separator text -> join_sp (sentences text) = trim text.
Proof.
  intros H. unfold sentences. rewrite (split_no_separator _ H). simpl.
  destruct (is_empty (trim text)) eqn:E; simpl.
  - apply is_empty_true in E. now rewrite E.
  - reflexivity.
Qed.

End ChunkerFacts.
Import ChunkerFacts.

(** ** Facts about binary64 arithmetic

    Derived from the specification of the primitive operations
    ([FloatAxioms]): what the store's search relies on. *)

Module FloatFacts.

Lemma SFmul_comm x y : SF64mul x y = SF64mul y x.
Proof.
  unfold SF64mul, SFmul.
  destruct x as [sx|sx| |sx mx ex], y as [sy|sy| |sy my ey];
    try reflexivity; rewrite (xorb_comm sx sy); try reflexivity.
  now rewrite (Pos.mul_comm mx my), (Z.add_comm ex ey).
Qed.

Lemma mul_comm (x y : float) : (x * y)%float = (y * x)%float.
Proof. apply Prim2SF_inj. rewrite !mul_spec. apply SFmul_comm. Qed.

(** The sign of a rounded value. *)
Definition SFpositive (r : spec_float) : bool :=
  match r with
  | S754_infinity false | S754_finite false _ _ => true
  | _ => false
  end.

Lemma SFltb_zero r : SFltb (S754_zero false) r = SFpositive r.
Proof. destruct r as [s|[|]| |[|] m e]; reflexivity. Qed.

Lemma Prim2SF_zero : Prim2SF 0%float = S754_zero false.
Proof. reflexivity. Qed.

Lemma pos_spec (x : float) : (0 <? x)%float = SFpositive (Prim2SF x).
Proof. rewrite ltb_spec, Prim2SF_zero. apply SFltb_zero. Qed.

Lemma round_aux_sign s m e l :
  SFpositive (binary_round_aux prec emax s m e l) = true -> s = false.
Proof.
  unfold binary_round_aux.
  destruct (shr_fexp prec emax m e l) as [mrs' e'].
  destruct (shr_fexp prec emax _ e' loc_Exact) as [mrs'' e''].
  destruct (shr_m mrs''); [| destruct (e'' <=? emax - prec) |];
    destruct s; simpl; congruence.
Qed.

Lemma round_sign s m e :
  SFpositive (binary_round prec emax s m e) = true -> s = false.
Proof.
  unfold binary_round.
  destruct (shl_align m e _) as [mz ez]. apply round_aux_sign.
Qed.

Lemma normalize_positive m e :
  SFpositive (binary_normalize prec emax m e false) = true -> 0 < m.
Proof.
  destruct m as [|p|p]; simpl; try discriminate; [lia|].
  intros H. apply round_sign in H. discriminate.
Qed.

(** [y - x] and [x - y] are not both positive. *)
Lemma SFsub_antisym x y :
  SFpositive (SF64sub y x) = true -> SFpositive (SF64sub x y) = false.
Proof.
  unfold SF64sub, SFsub.
  destruct x as [sx|sx| |sx mx ex], y as [sy|sy| |sy my ey];
    try (destruct sx, sy; simpl; congruence);
    try (destruct sx; simpl; congruence);
    try (destruct sy; simpl; congruence); try (simpl; congruence).
  intros H. apply normalize_positive in H.
  destruct (SFpositive _) eqn:E; [|reflexivity].
  apply normalize_positive in E.
  rewrite (Z.min_comm ex ey) in E. lia.
Qed.

Lemma sub_antisym (x y : float) :
  (0 <? y - x)%float = true -> (0 <? x - y)%float = false.
Proof. rewrite !pos_spec, !sub_spec. apply SFsub_antisym. Qed.


(** *** Magnitudes *)

Lemma digits2_size m : digits2_pos m = Pos.size m.
Proof. induction m; simpl; congruence. Qed.

Lemma digits_upper m : Zpos m < 2 ^ Zpos (digits2_pos m).
Proof.
  rewrite digits2_size. pose proof (Pos.size_gt m) as H.
  rewrite <- Pos2Z.inj_pow. exact H.
Qed.

Lemma digits_lower m : 2 ^ Zpos (digits2_pos m) <= 2 * Zpos m.
Proof.
  rewrite digits2_size. pose proof (Pos.size_le m) as H.
  rewrite <- Pos2Z.inj_pow. exact H.
Qed.

Lemma iter_xO m d : Zpos (Pos.iter xO m d) = Zpos m * 2 ^ Zpos d.
Proof.
  induction d as [|d IH] using Pos.peano_ind.
  - simpl. lia.
  - rewrite Pos.iter_succ, Pos2Z.inj_succ, Z.pow_succ_r by lia.
    rewrite Pos2Z.inj_xO, IH. lia.
Qed.

Lemma shl_align_value m e e' :
  e' <= e -> Zpos (fst (shl_align m e e')) = Zpos m * 2 ^ (e - e').
Proof.
  intros H. unfold shl_align.
  destruct (e' - e) as [|d|d] eqn:E; try lia.
  - replace (e - e') with 0 by lia. cbn [fst]. lia.
  - cbn [fst]. rewrite iter_xO. replace (e - e') with (Zpos d) by lia.
    reflexivity.
Qed.

Lemma shl_align_exp m e e' :
  snd (shl_align m e e') = Z.min e e'.
Proof.
  unfold shl_align. destruct (e' - e) as [|d|d] eqn:E; simpl; lia.
Qed.

Lemma shr_1_value mrs :
  0 <= shr_m mrs -> shr_m (shr_1 mrs) = shr_m mrs / 2.
Proof.
  destruct mrs as [m r s]. cbn [shr_m]. intros H.
  destruct m as [|[p|p|]|p]; cbn [shr_1 shr_m]; try lia;
    try reflexivity.
  - apply Z.div_unique with 1; lia.
  - apply Z.div_unique with 0; lia.
Qed.

Lemma iter_shr_value p : forall mrs,
  0 <= shr_m mrs ->
  shr_m (iter_pos shr_1 p mrs) = shr_m mrs / 2 ^ Zpos p.
Proof.
  assert (Hdiv : forall a b, 0 <= a -> 0 < b -> 0 <= a / b)
    by (intros; apply Z.div_pos; lia).
  assert (Hpow : forall q, 0 < 2 ^ Zpos q)
    by (intros; apply Z.pow_pos_nonneg; lia).
  induction p as [p IH|p IH|]; intros mrs H; cbn [iter_pos].
  - assert (H1 : 0 <= shr_m (shr_1 mrs))
      by (rewrite shr_1_value by lia; apply Hdiv; lia).
    assert (H2 : 0 <= shr_m (iter_pos shr_1 p (shr_1 mrs)))
      by (rewrite IH by lia; apply Hdiv; auto).
    rewrite IH, IH, shr_1_value by lia.
    pose proof (Hpow p).
    rewrite !Z.div_div by lia. f_equal.
    replace (Zpos p~1) with (1 + Zpos p + Zpos p) by lia.
    rewrite !Z.pow_add_r by lia. lia.
  - assert (H2 : 0 <= shr_m (iter_pos shr_1 p mrs))
      by (rewrite IH by lia; apply Hdiv; auto).
    rewrite IH, IH by lia.
    pose proof (Hpow p).
    rewrite !Z.div_div by lia. f_equal.
    replace (Zpos p~0) with (Zpos p + Zpos p) by lia.
    rewrite !Z.pow_add_r by lia. lia.
  - now apply shr_1_value.
Qed.

Lemma shr_record_of_loc_m m l : shr_m (shr_record_of_loc m l) = m.
Proof. destruct l as [|[| |]]; reflexivity. Qed.

Definition emin : Z := SpecFloat.emin prec emax.

(** Rounding a positive mantissa whose exponent is not below [emin] never
    reaches zero. *)
Lemma shr_fexp_positive m e l :
  emin <= e ->
  0 < shr_m (fst (shr_fexp prec emax (Zpos m) e l)) /\
  emin <= snd (shr_fexp prec emax (Zpos m) e l).
Proof.
  unfold emin. intros He. unfold shr_fexp, shr.
  destruct (fexp prec emax (Zdigits2 (Zpos m) + e) - e) as [|p|p] eqn:E;
    simpl fst; simpl snd; rewrite ?shr_record_of_loc_m; try lia.
  rewrite iter_shr_value by (rewrite shr_record_of_loc_m; lia).
  rewrite shr_record_of_loc_m.
  unfold fexp in E. simpl Zdigits2 in E.
  assert (Hd : Zpos (digits2_pos m) = Zpos p + prec) by lia.
  split; [|lia].
  pose proof (digits_lower m) as Hl. rewrite Hd in Hl.
  unfold prec in *. rewrite Z.pow_add_r in Hl by lia.
  assert (0 < 2 ^ Zpos p) by (apply Z.pow_pos_nonneg; lia).
  apply Z.div_str_pos. split; [lia|]. nia.
Qed.


Lemma round_nearest_even_positive m l : 0 < m -> 0 < round_nearest_even m l.
Proof.
  intros H. unfold round_nearest_even.
  destruct l as [|[| |]]; try lia. destruct (Z.even m); lia.
Qed.

Lemma round_aux_positive m e l :
  emin <= e ->
  SFpositive (binary_round_aux prec emax false (Zpos m) e l) = true.
Proof.
  intros He. unfold binary_round_aux.
  destruct (shr_fexp_positive m e l He) as [H1 H2].
  destruct (shr_fexp prec emax (Zpos m) e l) as [mrs' e'].
  cbn [fst snd] in H1, H2.
  pose proof (round_nearest_even_positive _ (loc_of_shr_record mrs') H1) as Hr.
  destruct (round_nearest_even (shr_m mrs') (loc_of_shr_record mrs'))
    as [|m1|m1]; try lia.
  destruct (shr_fexp_positive m1 e' loc_Exact H2) as [H3 _].
  destruct (shr_fexp prec emax (Zpos m1) e' loc_Exact) as [mrs'' e''].
  cbn [fst] in H3.
  destruct (shr_m mrs''); try lia.
  destruct (e'' <=? emax - prec); reflexivity.
Qed.

Lemma fexp_lower e : emin <= fexp prec emax e.
Proof. unfold fexp, emin. lia. Qed.

Lemma round_positive m e :
  emin <= e -> SFpositive (binary_round prec emax false m e) = true.
Proof.
  intros He. unfold binary_round.
  pose proof (shl_align_exp m e (fexp prec emax (Zpos (digits2_pos m) + e)))
    as Hs.
  pose proof (fexp_lower (Zpos (digits2_pos m) + e)).
  destruct (shl_align m e _) as [mz ez]. cbn [snd] in Hs.
  apply round_aux_positive. lia.
Qed.

Lemma normalize_positive_iff m e :
  emin <= e ->
  SFpositive (binary_normalize prec emax m e false) = true <-> 0 < m.
Proof.
  intros He. split; [apply normalize_positive|].
  destruct m as [|p|p]; try lia. intros _. now apply round_positive.
Qed.

(** *** Canonical representations *)

Lemma bounded_inv m e :
  bounded prec emax m e = true ->
  emin <= e /\ Zpos m < 2 ^ prec /\ (emin < e -> 2 ^ (prec - 1) <= Zpos m).
Proof.
  unfold bounded, canonical_mantissa, fexp. intros H.
  apply andb_true_iff in H. destruct H as [H _]. apply Z.eqb_eq in H.
  fold emin in H.
  pose proof (digits_upper m) as Hu. pose proof (digits_lower m) as Hl.
  assert (Hd : Zpos (digits2_pos m) <= prec) by lia.
  repeat split.
  - lia.
  - eapply Z.lt_le_trans; [exact Hu|].
    apply Z.pow_le_mono_r; lia.
  - intros Hlt. assert (Heq : Zpos (digits2_pos m) = prec) by lia.
    rewrite Heq in Hl. unfold prec in *.
    change (2 ^ 53) with (2 * 2 ^ (53 - 1)) in Hl. lia.
Qed.

(** The integer comparison behind [SFcompare] on positive canonical
    values. *)
Lemma canonical_lt m1 e1 m2 e2 :
  bounded prec emax m1 e1 = true -> bounded prec emax m2 e2 = true ->
  match e1 ?= e2 with
  | Lt => True
  | Gt => False
  | Eq => Pos.compare_cont Eq m1 m2 = Lt
  end ->
  Zpos (fst (shl_align m1 e1 (Z.min e1 e2)))
  < Zpos (fst (shl_align m2 e2 (Z.min e1 e2))).
Proof.
  intros B1 B2 H.
  apply bounded_inv in B1. apply bounded_inv in B2.
  destruct B1 as (L1 & U1 & N1), B2 as (L2 & U2 & N2).
  rewrite !shl_align_value by lia.
  destruct (Z.compare_spec e1 e2) as [E|E|E]; try contradiction.
  - subst e2. rewrite Z.min_id, Z.sub_diag, Z.pow_0_r, !Z.mul_1_r.
    change (m1 < m2)%positive in H. lia.
  - rewrite Z.min_l by lia. rewrite Z.sub_diag, Z.pow_0_r, Z.mul_1_r.
    specialize (N2 ltac:(lia)).
    assert (2 ^ 1 <= 2 ^ (e2 - e1)) by (apply Z.pow_le_mono_r; lia).
    unfold prec in *.
    change (2 ^ 53) with (2 ^ (53 - 1) * 2 ^ 1) in U1.
    nia.
Qed.


Lemma compare_cont_swap m1 m2 :
  CompOpp (Pos.compare_cont Eq m1 m2) = Pos.compare_cont Eq m2 m1.
Proof.
  change (CompOpp (m1 ?= m2)%positive = (m2 ?= m1)%positive).
  now rewrite (Pos.compare_antisym m1 m2).
Qed.

(** [x < y] makes the rounded [y - x] positive: subtraction never rounds
    a non-zero difference of canonical values to zero. *)
Lemma SFsub_positive x y :
  valid_binary x = true -> valid_binary y = true ->
  SFltb x y = true -> SFpositive (SF64sub y x) = true.
Proof.
  unfold SFltb, SF64sub, SFsub.
  destruct x as [sx|sx| |sx mx ex], y as [sy|sy| |sy my ey];
    intros Vx Vy; cbn [SFcompare];
    try discriminate;
    try (destruct sx, sy; simpl; congruence);
    try (destruct sx; simpl; congruence);
    try (destruct sy; simpl; congruence).
  cbn [valid_binary] in Vx, Vy.
  pose proof (bounded_inv _ _ Vx) as (Lx & _).
  pose proof (bounded_inv _ _ Vy) as (Ly & _).
  intros H. apply normalize_positive_iff; [lia|].
  destruct sx, sy; cbn [cond_Zopp]; try discriminate; try lia.
  - assert (Hlt := canonical_lt my ey mx ex Vy Vx).
    rewrite (Z.compare_antisym ex ey) in Hlt.
    destruct (ex ?= ey); cbn [CompOpp] in Hlt; try discriminate.
    + rewrite <- compare_cont_swap in Hlt.
      destruct (Pos.compare_cont Eq mx my); try discriminate.
      specialize (Hlt eq_refl). lia.
    + specialize (Hlt I). lia.
  - assert (Hlt := canonical_lt mx ex my ey Vx Vy).
    rewrite (Z.min_comm ex ey) in Hlt.
    destruct (ex ?= ey); try discriminate.
    + destruct (Pos.compare_cont Eq mx my); try discriminate.
      specialize (Hlt eq_refl). lia.
    + specialize (Hlt I). lia.
Qed.

Lemma ltb_sub_positive (x y : float) :
  (x <? y)%float = true -> (0 <? y - x)%float = true.
Proof.
  rewrite ltb_spec, pos_spec, sub_spec.
  apply SFsub_positive; apply Prim2SF_valid.
Qed.

(** *** The order of the numbers that are not [NaN] *)

Lemma SFcompare_swap x y c :
  SFcompare x y = Some c -> SFcompare y x = Some (CompOpp c).
Proof.
  destruct x as [sx|sx| |sx mx ex], y as [sy|sy| |sy my ey];
    cbn [SFcompare]; try discriminate;
    try (destruct sx, sy; intros [= <-]; reflexivity);
    try (destruct sx; intros [= <-]; reflexivity);
    try (destruct sy; intros [= <-]; reflexivity);
    try (intros [= <-]; reflexivity).
  intros [= <-]. f_equal.
  rewrite (Z.compare_antisym ex ey), <- (compare_cont_swap mx my).
  destruct sx, sy; try reflexivity;
    destruct (ex ?= ey); cbn [CompOpp]; reflexivity.
Qed.

Lemma Prim2SF_not_nan (x : float) :
  is_nan x = false -> Prim2SF x <> S754_nan.
Proof.
  intros H. unfold Prim2SF. rewrite H.
  destruct (is_zero x); [discriminate|].
  destruct (is_infinity x); [discriminate|].
  destruct (Z.frexp x) as [r e].
  destruct (shr_fexp prec emax _ _ _) as [mrs e'].
  destruct (shr_m mrs); discriminate.
Qed.

Lemma SFcompare_total x y :
  x <> S754_nan -> y <> S754_nan -> exists c, SFcompare x y = Some c.
Proof.
  destruct x as [sx|sx| |sx mx ex], y as [sy|sy| |sy my ey];
    try congruence; intros _ _; cbn [SFcompare]; eauto.
Qed.

(** When neither is [NaN], [x] may stay before [y] in a descending sort
    only if [y <= x]. *)
Lemma not_after_leb (x y : float) :
  is_nan x = false -> is_nan y = false ->
  (0 <? y - x)%float = false -> (y <=? x)%float = true.
Proof.
  intros Nx Ny H. rewrite leb_spec. unfold SFleb.
  destruct (SFcompare_total (Prim2SF y) (Prim2SF x)) as [c Hc];
    try now apply Prim2SF_not_nan.
  rewrite Hc. destruct c; try reflexivity.
  apply SFcompare_swap in Hc. cbn [CompOpp] in Hc.
  assert (Hlt : (x <? y)%float = true)
    by (rewrite ltb_spec; unfold SFltb; now rewrite Hc).
  apply ltb_sub_positive in Hlt. congruence.
Qed.


Lemma SFleb_trans x y z :
  SFleb x y = true -> SFleb y z = true -> SFleb x z = true.
Proof.
  unfold SFleb.
  destruct x as [sx|sx| |sx mx ex], y as [sy|sy| |sy my ey],
           z as [sz|sz| |sz mz ez];
    cbn [SFcompare]; try discriminate; try reflexivity;
    repeat match goal with s : bool |- _ => destruct s end;
    try discriminate; try reflexivity; try (intros; assumption).
  all: change (Pos.compare_cont Eq) with Pos.compare.
  all: destruct (Z.compare_spec ex ey), (Z.compare_spec ey ez),
         (Z.compare_spec ex ez);
    try lia; try discriminate; try reflexivity; subst.
  all: destruct (Pos.compare_spec mx my), (Pos.compare_spec my mz),
         (Pos.compare_spec mx mz);
    cbn [CompOpp]; try lia; try discriminate; try reflexivity.
Qed.

Lemma leb_trans (x y z : float) :
  (x <=? y)%float = true -> (y <=? z)%float = true ->
  (x <=? z)%float = true.
Proof. rewrite !leb_spec. apply SFleb_trans. Qed.

End FloatFacts.
Import FloatFacts.

(** ** Sums of integers in binary64 *)

Module NumberFacts.

Import RagService.





(** Just above [2 ^ 53] the odd integers are not numbers. *)
Lemma number_beyond : number (2 ^ 53 + 1) = 2 ^ 53.
Proof. reflexivity. Qed.

End NumberFacts.
Import NumberFacts.

(** ** Properties of the chunker *)

(** C1, as stated, fails: the 70-character leaflet is shorter than the chunk
    size and its trimmed length exceeds 50, but the single chunk returned is
    not the trimmed input: the separators were cut out by [split]. *)
Lemma chunkText_short_not_trimmed_input :
  len Samples.leaflet < 1000 /\
  (50 <? len (trim Samples.leaflet)) = true /\
  chunkText Samples.leaflet 1000 200
  = [lit "Aspirin reduces fever It also thins the blood Ask a doctor Always."] /\
  chunkText Samples.leaflet 1000 200 <> [trim Samples.leaflet].
Proof.
  split; [reflexivity|]. split; [reflexivity|].
  split; [reflexivity|]. vm_compute. discriminate.
Qed.

(** C1, amended: for every text shorter than [chunkSize], [chunkText] yields
    at most one chunk: the trimmed non-empty sentences of the text joined by
    single spaces (the separators themselves are not kept), and it is yielded
    exactly when it is longer than 50 characters. When the text contains no
    separator this chunk is the trimmed input. *)
Theorem chunkText_short_text (text : jsstring) (chunkSize overlap : Z) :
  len text < chunkSize ->
  let body := if has_separator text then join_sp (sentences text)
              else trim text in
  join_sp (sentences text) = body /\
  chunkText text chunkSize overlap = if 50 <? len body then [body] else [].
Proof.
  intros Hlen body.
  assert (Hb : join_sp (sentences text) = body).
  { unfold body. destruct (has_separator text) eqn:E; [reflexivity|].
    apply sentences_no_separator, has_separator_false, E. }
  split; [exact Hb|].
  rewrite <- Hb. now apply chunkText_short.
Qed.

(** The leaflet: one chunk, its four sentences joined by single spaces. *)
Lemma chunkText_short_text_witness :
  len Samples.leaflet < 1000 /\
  chunkText Samples.leaflet 1000 200
  = [lit "Aspirin reduces fever It also thins the blood Ask a doctor Always."].
Proof.
  split; [reflexivity|].
  exact (proj2 (chunkText_short_text Samples.leaflet 1000 200 (eq_refl Lt))).
Defined.

(** C5, as stated, fails: both sentences of the note are dropped, because
    the only chunk that holds them has 29 characters and is filtered out. *)
Lemma chunkText_drops_short_sentences :
  In (lit "Drink water.") (sentences Samples.note) /\
  chunkText Samples.note 1000 200 = [] /\
  ~ covered (lit "Drink water.") (chunkText Samples.note 1000 200).
Proof.
  split; [vm_compute; auto|]. split; [reflexivity|].
  intros (c & Hc & _). vm_compute in Hc. exact Hc.
Qed.

(** C5, amended: every sentence of the text (a trimmed, non-empty piece
    between separators) is a substring of some chunk accumulated before the
    final filter, and that chunk is returned unless it has at most 50
    characters; so every sentence longer than 50 characters is a substring
    of a returned chunk. *)
Theorem chunkText_sentence_coverage
  (text : jsstring) (chunkSize overlap : Z) (t : jsstring) :
  In t (sentences text) ->
  (exists c, In c (accumulate text chunkSize overlap) /\ infix t c /\
             (len c <= 50 \/ In c (chunkText text chunkSize overlap))) /\
  (50 < len t -> covered t (chunkText text chunkSize overlap)).
Proof.
  intros Hin.
  destruct (accumulate_covers text chunkSize overlap t Hin) as (c & Hc & Hi).
  assert (Hor : len c <= 50 \/ In c (chunkText text chunkSize overlap)).
  { destruct (Z.ltb_spec 50 (len c)) as [H|H]; [right|left; exact H].
    unfold chunkText. apply filter_In. split; [exact Hc|].
    now apply Z.ltb_lt. }
  split.
  - exists c. auto.
  - intros Hlong. exists c. split; [|exact Hi].
    destruct Hor as [Hshort|Hok]; [|exact Hok].
    apply infix_len in Hi. lia.
Qed.

(** The long sentence of the advice is in the chunk returned. *)
Lemma chunkText_sentence_coverage_witness :
  In (lit "Patients with a history of stomach ulcers should avoid this medicine")
     (sentences Samples.advice) /\
  covered
    (lit "Patients with a history of stomach ulcers should avoid this medicine")
    (chunkText Samples.advice 1000 200).
Proof.
  assert (H : In (lit "Patients with a history of stomach ulcers should avoid this medicine")
                 (sentences Samples.advice)) by (vm_compute; auto).
  split; [exact H|].
  apply (proj2 (chunkText_sentence_coverage Samples.advice 1000 200 _ H)).
  reflexivity.
Defined.

(** ** Facts about the similarity search *)

Module SearchFacts.













End SearchFacts.
Import SearchFacts.

(** ** Facts about the stable sort *)

Module SortFacts.

Section Insertion.
Context {A : Type}.
Variable after : A -> A -> bool.

(** [x] is allowed to stand before [y]. *)
Definition may_precede (x y : A) : Prop := after x y = false.

Lemma insert_In (x y : A) : forall l,
  In y (JsArray.insert after x l) <-> y = x \/ In y l.
Proof.
  induction l as [|z l IH]; simpl.
  - intuition.
  - destruct (after x z); simpl; rewrite ?IH; intuition.
Qed.

Lemma sort_In (y : A) : forall l, In y (JsArray.sort after l) <-> In y l.
Proof.
  induction l as [|x l IH]; simpl; [tauto|].
  rewrite insert_In, IH. intuition.
Qed.

Lemma sort_Forall (P : A -> Prop) (l : list A) :
  Forall P l -> Forall P (JsArray.sort after l).
Proof.
  rewrite !Forall_forall. intros H x Hx. apply H. now apply sort_In.
Qed.

Lemma insert_length (x : A) : forall l,
  length (JsArray.insert after x l) = S (length l).
Proof.
  induction l as [|z l IH]; simpl; [reflexivity|].
  destruct (after x z); simpl; congruence.
Qed.

Lemma sort_length : forall l, length (JsArray.sort after l) = length l.
Proof.
  induction l as [|x l IH]; simpl; [reflexivity|].
  rewrite insert_length. congruence.
Qed.

(** The comparator never asks for both orders. *)
Hypothesis after_antisym : forall x y, after x y = true -> after y x = false.

Lemma insert_HdRel (x y : A) : forall l,
  HdRel may_precede y l -> may_precede y x ->
  HdRel may_precede y (JsArray.insert after x l).
Proof.
  intros [|z l] Hl Hyx; simpl.
  - now constructor.
  - destruct (after x z); constructor; auto.
    now inversion Hl.
Qed.

Lemma insert_Sorted (x : A) : forall l,
  Sorted may_precede l -> Sorted may_precede (JsArray.insert after x l).
Proof.
  induction l as [|z l IH]; intros Hs; simpl.
  - repeat constructor.
  - inversion Hs as [|? ? Hl Hz]; subst.
    destruct (after x z) eqn:E.
    + constructor; [now apply IH|].
      apply insert_HdRel; [exact Hz|]. now apply after_antisym.
    + constructor; [exact Hs|]. now constructor.
Qed.

Lemma sort_Sorted : forall l, Sorted may_precede (JsArray.sort after l).
Proof.
  induction l as [|x l IH]; simpl; [constructor|].
  now apply insert_Sorted.
Qed.

End Insertion.

Lemma Sorted_weaken {A : Type} (R R' : A -> A -> Prop) (P : A -> Prop) :
  (forall x y, P x -> P y -> R x y -> R' x y) ->
  forall l, Forall P l -> Sorted R l -> Sorted R' l.
Proof.
  intros HR. induction l as [|x l IH]; intros HP Hs; [constructor|].
  inversion HP as [|? ? Hx Hl]; subst.
  inversion Hs as [|? ? Hs' Hh]; subst.
  constructor; [now apply IH|].
  destruct Hh as [|y l Hxy]; constructor.
  inversion Hl; subst. now apply HR.
Qed.

Lemma StronglySorted_firstn {A : Type} (R : A -> A -> Prop) : forall n l,
  StronglySorted R l -> StronglySorted R (firstn n l).
Proof.
  induction n as [|n IH]; intros [|x l] Hs; simpl; try constructor.
  - apply IH. now inversion Hs.
  - inversion Hs as [|? ? _ Hall]; subst.
    rewrite Forall_forall in *. intros y Hy. apply Hall.
    rewrite <- (firstn_skipn n l). apply in_or_app. now left.
Qed.

Lemma StronglySorted_map {A B : Type} (f : A -> B) (R : B -> B -> Prop) :
  forall l, StronglySorted (fun x y => R (f x) (f y)) l ->
            StronglySorted R (map f l).
Proof.
  induction l as [|x l IH]; intros Hs; simpl; [constructor|].
  inversion Hs as [|? ? Hs' Hall]; subst.
  constructor; [now apply IH|].
  rewrite Forall_forall in *. intros y Hy.
  apply in_map_iff in Hy. destruct Hy as (z & <- & Hz). now apply Hall.
Qed.

Lemma firstn_incl {A : Type} (x : A) : forall n l,
  In x (firstn n l) -> In x l.
Proof.
  intros n l H. rewrite <- (firstn_skipn n l). apply in_or_app. now left.
Qed.

Lemma slice_to_length {A : Type} (k : Z) (l : list A) :
  0 <= k -> len (slice_to k l) <= k.
Proof.
  intros Hk. unfold slice_to, len.
  destruct (Z.ltb_spec k 0); [lia|].
  rewrite length_firstn. lia.
Qed.

End SortFacts.
Import SortFacts.

(** ** Properties of the vector store *)

(** The similarity of a stored chunk to the query. *)
Definition score (queryEmbedding : list float) (chunk : DocumentChunk.t)
  : float :=
  cosineSimilarity queryEmbedding (embedding_of chunk).

(** [c1] before [c2] is a descending order of similarity. *)
Definition descending (queryEmbedding : list float)
  (c1 c2 : DocumentChunk.t) : Prop :=
  (score queryEmbedding c2 <=? score queryEmbedding c1)%float = true.




(** The stored chunks the search considers. *)
Definition candidates (s : MemStorage) : list DocumentChunk.t :=
  filter has_embedding (JsMap.values (documentChunks s)).

Lemma search_after_antisym (a b : DocumentChunk.t * float) :
  (0 <? snd b - snd a)%float = true -> (0 <? snd a - snd b)%float = false.
Proof. apply sub_antisym. Qed.

Lemma chunksWithScores_scored (q : list float) (k : Z) (s : MemStorage) :
  Forall (fun p => In (fst p) (candidates s) /\ snd p = score q (fst p))
         (chunksWithScores q k s).
Proof.
  unfold chunksWithScores. fold (candidates s).
  apply Forall_forall. intros p Hp.
  unfold slice_to in Hp. apply firstn_incl in Hp.
  apply sort_In, in_map_iff in Hp. destruct Hp as (c & <- & Hc).
  split; [exact Hc|reflexivity].
Qed.

Lemma chunksWithScores_sorted (q : list float) (k : Z) (s : MemStorage) :
  Forall (fun c => is_nan (score q c) = false) (candidates s) ->
  StronglySorted (fun p1 p2 => (snd p2 <=? snd p1)%float = true)
                 (chunksWithScores q k s).
Proof.
  intros Hnan. unfold chunksWithScores. fold (candidates s).
  set (after := fun a b : DocumentChunk.t * float =>
                  (0 <? snd b - snd a)%float).
  set (ps := map (fun c => (c, cosineSimilarity q (embedding_of c)))
                 (candidates s)).
  apply StronglySorted_firstn.
  apply Sorted_StronglySorted.
  { intros x y z Hxy Hyz. exact (leb_trans _ _ _ Hyz Hxy). }
  apply Sorted_weaken
    with (R := may_precede after) (P := fun p => is_nan (snd p) = false).
  - intros x y Hx Hy H. now apply not_after_leb.
  - apply sort_Forall. apply Forall_forall. intros p Hp.
    apply in_map_iff in Hp. destruct Hp as (c & <- & Hc).
    rewrite Forall_forall in Hnan. exact (Hnan c Hc).
  - apply sort_Sorted. exact search_after_antisym.
Qed.

(** C2, as stated, fails twice. With [k = -1] the search over five stored
    chunks returns two, which is more than [k]: [slice(0, -1)] drops the
    last element only. With a query whose square overflows the similarity
    of the first chunk is [NaN], and the two chunks returned are in
    descending order in neither direction. *)
Lemma search_negative_limit_or_nan :
  (exists found,
     searchChunksByEmbedding [1; 0]%float (-1) Samples.library
     = (Ok found, Samples.library) /\
     length found = 2%nat /\ -1 < len found) /\
  searchChunksByEmbedding [0x1p+600]%float 5 Samples.overflowing
  = (Ok [Samples.c_huge; Samples.c_unit], Samples.overflowing) /\
  (score [0x1p+600]%float Samples.c_unit
   <=? score [0x1p+600]%float Samples.c_huge)%float = false /\
  (score [0x1p+600]%float Samples.c_huge
   <=? score [0x1p+600]%float Samples.c_unit)%float = false.
Proof.
  split.
  - eexists. split; [reflexivity|]. split; reflexivity.
  - repeat split; reflexivity.
Qed.

(** C2, amended: for every query embedding, every [k] and every store, the
    search succeeds and leaves the process as it was; it returns at most
    [k] chunks when [k] is not negative; it never returns a chunk whose
    embedding is absent or empty, and every chunk returned is stored; and
    the chunks are in descending order of cosine similarity to the query
    whenever no similarity of a stored embedding to the query is [NaN]. *)
Theorem searchChunksByEmbedding_top_k
  (queryEmbedding : list float) (k : Z) (w : World) :
  exists found,
    searchChunksByEmbedding queryEmbedding k w = (Ok found, w) /\
    (0 <= k -> len found <= k) /\
    Forall (fun chunk =>
              In chunk (JsMap.values (documentChunks (storage w))) /\
              exists e, DocumentChunk.embedding chunk = Some e /\ e <> [])
           found /\
    (Forall (fun chunk => is_nan (score queryEmbedding chunk) = false)
            (candidates (storage w)) ->
     StronglySorted (descending queryEmbedding) found).
Proof.
  exists (map fst (chunksWithScores queryEmbedding k (storage w))).
  split; [reflexivity|].
  pose proof (chunksWithScores_scored queryEmbedding k (storage w)) as Hsc.
  split; [|split].
  - intros Hk. unfold len. rewrite length_map.
    unfold chunksWithScores. now apply slice_to_length.
  - apply Forall_forall. intros c Hc.
    apply in_map_iff in Hc. destruct Hc as (p & <- & Hp).
    rewrite Forall_forall in Hsc. destruct (Hsc p Hp) as [Hin _].
    apply filter_In in Hin. destruct Hin as [Hin He].
    split; [exact Hin|].
    unfold has_embedding in He.
    destruct (DocumentChunk.embedding (fst p)) as [e|]; [|discriminate].
    exists e. split; [reflexivity|].
    apply negb_true_iff, is_empty_false in He. exact He.
  - intros Hnan. apply StronglySorted_map.
    pose proof (chunksWithScores_sorted queryEmbedding k (storage w) Hnan)
      as Hs.
    revert Hsc Hs.
    generalize (chunksWithScores queryEmbedding k (storage w)).
    induction l as [|p l IH]; intros Hsc Hs; [constructor|].
    inversion Hsc as [|? ? [_ Hp] Hl]; subst.
    inversion Hs as [|? ? Hs' Hall]; subst.
    constructor; [now apply IH|].
    rewrite Forall_forall in *. intros y Hy.
    unfold descending. destruct (Hl y Hy) as [_ <-]. rewrite <- Hp.
    now apply Hall.
Qed.

(** The two best of the library for a query pointing east. *)
Lemma searchChunksByEmbedding_top_k_witness :
  0 <= 2 /\
  Forall (fun chunk => is_nan (score [1; 0]%float chunk) = false)
         (candidates (storage Samples.library)) /\
  exists found,
    searchChunksByEmbedding [1; 0]%float 2 Samples.library
    = (Ok found, Samples.library) /\
    len found <= 2 /\
    StronglySorted (descending [1; 0]%float) found.
Proof.
  assert (Hk : 0 <= 2) by lia.
  assert (Hnan : Forall (fun chunk => is_nan (score [1; 0]%float chunk) = false)
                        (candidates (storage Samples.library)))
    by (repeat constructor).
  split; [exact Hk|]. split; [exact Hnan|].
  destruct (searchChunksByEmbedding_top_k [1; 0]%float 2 Samples.library)
    as (found & Heq & Hlen & _ & Hsorted).
  exists found. split; [exact Heq|]. split; [exact (Hlen Hk)|].
  exact (Hsorted Hnan).
Defined.

(** ** Facts about the orchestrator *)

Module RagFacts.

(** What the search hands to the two query functions. *)
Definition retrieved (q : list float) (w : World) : list DocumentChunk.t :=
  map fst (chunksWithScores q 5 (storage w)).

Lemma search_run (q : list float) (k : Z) (w : World) :
  searchChunksByEmbedding q k w
  = (Ok (map fst (chunksWithScores q k (storage w))), w).
Proof. reflexivity. Qed.

Lemma queryRAG_run gE gC (question : jsstring) (w : World) :
  queryRAG gE gC question w =
  match gE question with
  | Throw e => (Throw e, w)
  | Ok q =>
      if len (retrieved q w) =? 0
      then (Ok {| answer := fallbackMessage; citations := [] |}, w)
      else match gC question (build_context (retrieved q w)) with
           | Ok a =>
               (Ok {| answer := a;
                      citations := map citation_of (retrieved q w) |}, w)
           | Throw e => (Throw e, w)
           end
  end.
Proof.
  unfold queryRAG, bind, await.
  destruct (gE question) as [q|e]; [|reflexivity].
  rewrite search_run. fold (retrieved q w).
  destruct (len (retrieved q w) =? 0); [reflexivity|].
  destruct (gC question _); reflexivity.
Qed.

Lemma for_of_yield (l : list jsstring) (w : World) :
  for_of l (fun x => yield (TokenEvent x)) w
  = ((map TokenEvent l, Ok tt), w).
Proof.
  induction l as [|x l IH]; [reflexivity|].
  simpl for_of. unfold gbind. cbn [yield]. now rewrite IH.
Qed.

(** How a consumed provider stream ends. *)
Definition stream_end (s : TokenStream) : outcome unit :=
  match failure s with Some e => Throw e | None => Ok tt end.

Lemma for_await_yield (s : TokenStream) (w : World) :
  for_await s (fun x => yield (TokenEvent x)) w
  = ((map TokenEvent (tokens s), stream_end s), w).
Proof.
  unfold for_await, gbind, stream_end. rewrite for_of_yield.
  destruct (failure s); cbn; now rewrite app_nil_r.
Qed.

Lemma queryRAGStream_run gE gS (question : jsstring) (w : World) :
  queryRAGStream gE gS question w =
  match gE question with
  | Throw e => (([], Throw e), w)
  | Ok q =>
      let chunks := retrieved q w in
      if len chunks =? 0
      then ((CitationsEvent (map citation_of chunks)
               :: map TokenEvent (code_points fallbackMessage), Ok tt), w)
      else
        let s := gS question (build_context chunks) in
        ((CitationsEvent (map citation_of chunks)
            :: map TokenEvent (tokens s), stream_end s), w)
  end.
Proof.
  unfold queryRAGStream, gbind at 1, lift at 1, await.
  destruct (gE question) as [q|e]; [|reflexivity].
  unfold gbind at 1, lift. rewrite search_run. fold (retrieved q w).
  cbv zeta. unfold gbind, yield.
  destruct (len (retrieved q w) =? 0).
  - now rewrite for_of_yield.
  - now rewrite for_await_yield.
Qed.

(** A failing embedding call ends either query before anything else
    happens. *)
Lemma embedding_failure gE gC gS (question e : jsstring) (w : World) :
  gE question = Throw e ->
  queryRAG gE gC question w = (Throw e, w) /\
  queryRAGStream gE gS question w = (([], Throw e), w).
Proof.
  intros H. rewrite queryRAG_run, queryRAGStream_run, H. now split.
Qed.

Lemma fallback_code_points :
  code_points fallbackMessage = map (fun c => [c]) fallbackMessage.
Proof. reflexivity. Qed.




End RagFacts.
Import RagFacts.

(** ** Properties of the orchestrator *)

(** C3: for every question, when retrieval returns zero chunks, [queryRAG]
    returns the fixed fallback answer with an empty citation list, and
    [queryRAGStream] emits an empty citation list followed by the fallback
    message, character by character; both return normally ([Ok]) and leave
    the process as it was. *)
Theorem zero_chunks_fallback
  (gE : jsstring -> outcome (list float))
  (gC : jsstring -> jsstring -> outcome jsstring)
  (gS : jsstring -> jsstring -> TokenStream)
  (question : jsstring) (q : list float) (w : World) :
  gE question = Ok q ->
  searchChunksByEmbedding q 5 w = (Ok [], w) ->
  queryRAG gE gC question w
  = (Ok {| answer := fallbackMessage; citations := [] |}, w) /\
  queryRAGStream gE gS question w
  = ((CitationsEvent [] :: map (fun c => TokenEvent [c]) fallbackMessage,
      Ok tt), w).
Proof.
  intros Hq Hs. rewrite search_run in Hs.
  assert (Hr : retrieved q w = []) by (unfold retrieved; congruence).
  split.
  - rewrite queryRAG_run, Hq, Hr. reflexivity.
  - rewrite queryRAGStream_run, Hq. cbv zeta. rewrite Hr.
    change (len (@nil DocumentChunk.t) =? 0) with true. cbv iota.
    rewrite fallback_code_points, map_map. reflexivity.
Qed.

(** A question put to a process that has indexed nothing. *)
Lemma zero_chunks_fallback_witness :
  Samples.embed_east (lit "What helps against fever?") = Ok [1; 0]%float /\
  searchChunksByEmbedding [1; 0]%float 5 Samples.fresh = (Ok [], Samples.fresh) /\
  queryRAG Samples.embed_east Samples.complete
           (lit "What helps against fever?") Samples.fresh
  = (Ok {| answer := fallbackMessage; citations := [] |}, Samples.fresh) /\
  queryRAGStream Samples.embed_east Samples.complete_stream
                 (lit "What helps against fever?") Samples.fresh
  = ((CitationsEvent [] :: map (fun c => TokenEvent [c]) fallbackMessage,
      Ok tt), Samples.fresh).
Proof.
  split; [reflexivity|]. split; [reflexivity|].
  exact (zero_chunks_fallback Samples.embed_east Samples.complete
           Samples.complete_stream (lit "What helps against fever?")
           [1; 0]%float Samples.fresh eq_refl eq_refl).
Defined.

(** C4, as stated, fails: when the embedding call fails, the generator
    throws before its first [yield], so the event sequence is empty and
    holds no citations event. *)
Lemma stream_without_citations_event :
  queryRAGStream Samples.embed_down Samples.complete_stream
                 (lit "What helps against flu?") Samples.archive
  = (([], Throw (lit "Failed to generate embedding: 429 quota exceeded")),
     Samples.archive).
Proof. reflexivity. Qed.



(** C7, as stated, fails: a chunk stored by [createDocumentChunk] with the
    index [2 ^ 53] is cited with the page [2 ^ 53], not with the index plus
    1, which no number holds. *)
Lemma page_is_not_index_plus_one :
  let stored := createDocumentChunk Samples.far_insert Samples.fresh in
  let answered :=
    queryRAG Samples.embed_east Samples.complete
             (lit "How is it stored?") (snd stored) in
  (exists chunk, fst stored = Ok chunk /\
                 DocumentChunk.chunkIndex chunk = 9007199254740992) /\
  (exists r, fst answered = Ok r /\
             map Citation.page (citations r) = [Some 9007199254740992]) /\
  9007199254740992 + 1 <> 9007199254740992.
Proof.
  split; [|split].
  - eexists. split; reflexivity.
  - eexists. split; reflexivity.
  - discriminate.
Qed.



(** ** Facts about the store *)

Module StoreFacts.

Lemma str_eqb_eq : forall a b, JsMap.str_eqb a b = true <-> a = b.
Proof.
  induction a as [|x a IH]; intros [|y b]; simpl; split;
    try congruence; try discriminate.
  - intros H. apply andb_true_iff in H. destruct H as [Hx Ha].
    apply N.eqb_eq in Hx. apply IH in Ha. congruence.
  - intros [= -> ->]. rewrite N.eqb_refl. now apply IH.
Qed.

Lemma str_eqb_refl (a : jsstring) : JsMap.str_eqb a a = true.
Proof. now apply str_eqb_eq. Qed.

Lemma str_eqb_neq (a b : jsstring) : JsMap.str_eqb a b = false <-> a <> b.
Proof.
  destruct (JsMap.str_eqb a b) eqn:E; split; try congruence.
  - apply str_eqb_eq in E. congruence.
  - intros _ H. apply str_eqb_eq in H. congruence.
Qed.

Section Maps.
Context {V : Type}.

Lemma get_set_same (k : jsstring) (v : V) : forall m,
  JsMap.get k (JsMap.set k v m) = Some v.
Proof.
  induction m as [|[k' v'] m IH]; simpl.
  - now rewrite str_eqb_refl.
  - destruct (JsMap.str_eqb k k') eqn:E; simpl.
    + now rewrite str_eqb_refl.
    + now rewrite E.
Qed.

Lemma get_set_other (k k' : jsstring) (v : V) : forall m,
  k' <> k -> JsMap.get k' (JsMap.set k v m) = JsMap.get k' m.
Proof.
  intros m Hne. apply str_eqb_neq in Hne.
  induction m as [|[k0 v0] m IH]; simpl.
  - now rewrite Hne.
  - destruct (JsMap.str_eqb k k0) eqn:E; simpl.
    + apply str_eqb_eq in E. subst k0. now rewrite Hne.
    + now rewrite IH.
Qed.

(** Overwriting an entry keeps the keys and their order. *)
Lemma keys_set_present (k : jsstring) (v v0 : V) : forall m,
  JsMap.get k m = Some v0 -> JsMap.keys (JsMap.set k v m) = JsMap.keys m.
Proof.
  induction m as [|[k' v'] m IH]; simpl; [discriminate|].
  destruct (JsMap.str_eqb k k') eqn:E; simpl.
  - intros _. apply str_eqb_eq in E. now subst.
  - intros H. now rewrite (IH H).
Qed.

(** A new key is appended. *)
Lemma set_fresh (k : jsstring) (v : V) : forall m,
  JsMap.get k m = None -> JsMap.set k v m = m ++ [(k, v)].
Proof.
  induction m as [|[k' v'] m IH]; simpl; [reflexivity|].
  destruct (JsMap.str_eqb k k'); [discriminate|].
  intros H. now rewrite (IH H).
Qed.

Lemma get_app_fresh (k : jsstring) (m m' : JsMap.t V) :
  JsMap.get k (m ++ m') =
  match JsMap.get k m with Some v => Some v | None => JsMap.get k m' end.
Proof.
  induction m as [|[k' v'] m IH]; simpl; [reflexivity|].
  destruct (JsMap.str_eqb k k'); [reflexivity|exact IH].
Qed.

(** Whatever [set] does, a value of the new map is the new value or an old
    one. *)
Lemma values_set_In (k : jsstring) (v x : V) : forall m,
  In x (JsMap.values (JsMap.set k v m)) -> x = v \/ In x (JsMap.values m).
Proof.
  unfold JsMap.values.
  induction m as [|[k' v'] m IH]; simpl.
  - intuition.
  - destruct (JsMap.str_eqb k k'); simpl; intuition.
Qed.

End Maps.

End StoreFacts.
Import StoreFacts.

(** ** Properties of the conversation store *)

(** C8: for every id absent from the conversation store,
    [updateConversation] throws the not-found error and leaves the process,
    and so every conversation, as it was; for every id present it returns
    the updated record, stores it under that id, and the record's update
    timestamp is the clock value read by this call (whatever [data] says);
    the other conversations, the keys, the messages and the chunks are
    unchanged. *)
Theorem updateConversation_absent_or_refreshed
  (id : jsstring) (data : PartialConversation.t) (w : World) :
  match JsMap.get id (conversations (storage w)) with
  | None =>
      updateConversation id data w
      = (Throw (lit "Conversation " ++ id ++ lit " not found"), w)
  | Some existing =>
      let now := clock w (ticks w) in
      exists w',
        updateConversation id data w = (Ok (spread existing data now), w') /\
        JsMap.get id (conversations (storage w'))
        = Some (spread existing data now) /\
        Conversation.updatedAt (spread existing data now) = now /\
        ticks w' = S (ticks w) /\
        (forall id', id' <> id ->
           JsMap.get id' (conversations (storage w'))
           = JsMap.get id' (conversations (storage w))) /\
        JsMap.keys (conversations (storage w'))
        = JsMap.keys (conversations (storage w)) /\
        messages (storage w') = messages (storage w) /\
        documentChunks (storage w') = documentChunks (storage w)
  end.
Proof.
  unfold updateConversation, bind, read.
  destruct (JsMap.get id (conversations (storage w))) as [existing|] eqn:E.
  - cbv zeta. eexists. split; [reflexivity|].
    cbn [storage conversations messages documentChunks ticks].
    split; [apply get_set_same|]. split; [reflexivity|].
    split; [reflexivity|]. split; [intros id' Hne; now apply get_set_other|].
    split; [now apply keys_set_present with existing|].
    split; reflexivity.
  - reflexivity.
Qed.

(** The chat: an unknown id is refused, a known one gets the title of
    [data] and the date of the call. *)
Example updateConversation_on_chat :
  updateConversation (lit "conv-9")
    {| PartialConversation.id := None; PartialConversation.title := None;
       PartialConversation.createdAt := None;
       PartialConversation.updatedAt := None |} Samples.chat
  = (Throw (lit "Conversation conv-9 not found"), Samples.chat) /\
  fst (updateConversation (lit "conv-1")
         {| PartialConversation.id := None;
            PartialConversation.title := Some (Some (lit "Flu"));
            PartialConversation.createdAt := None;
            PartialConversation.updatedAt := Some 0 |} Samples.chat)
  = Ok {| Conversation.id := lit "conv-1";
          Conversation.title := Some (lit "Flu");
          Conversation.createdAt := 1699999999000;
          Conversation.updatedAt := 1700000000000 |}.
Proof. split; reflexivity. Qed.

(** C10: the five read operations succeed and leave the whole process, and
    so the three maps of the store, unchanged; and
    [getMessagesByConversation] returns the empty list when no stored
    message has the conversation id. *)
Theorem reads_leave_store_unchanged
  (embedding : list float) (limit : Z)
  (documentId id conversationId : jsstring) (w : World) :
  (exists r, searchChunksByEmbedding embedding limit w = (Ok r, w)) /\
  (exists r, getAllChunks w = (Ok r, w)) /\
  (exists r, getDocumentChunks documentId w = (Ok r, w)) /\
  (exists r, getConversation id w = (Ok r, w)) /\
  (exists r, getMessagesByConversation conversationId w = (Ok r, w) /\
     (Forall (fun m => Message.conversationId m <> conversationId)
             (JsMap.values (messages (storage w))) -> r = [])).
Proof.
  repeat (split; [eexists; reflexivity|]).
  eexists. split; [reflexivity|].
  intros Hnone.
  replace (filter _ (JsMap.values (messages (storage w)))) with (@nil Message.t);
    [reflexivity|].
  symmetry. induction Hnone as [|m l Hm _ IH]; [reflexivity|].
  simpl. apply str_eqb_neq in Hm. now rewrite Hm.
Qed.

(** The chat: no message for an unknown conversation, the two messages of
    the known one by ascending timestamp. *)
Lemma reads_leave_store_unchanged_witness :
  Forall (fun m => Message.conversationId m <> lit "conv-2")
         (JsMap.values (messages (storage Samples.chat))) /\
  getMessagesByConversation (lit "conv-2") Samples.chat
  = (Ok [], Samples.chat) /\
  getMessagesByConversation (lit "conv-1") Samples.chat
  = (Ok [Samples.message "m-1" "What helps against fever?" 1699999999100;
         Samples.message "m-2" "And for a child?" 1699999999200],
     Samples.chat).
Proof.
  assert (H : Forall (fun m => Message.conversationId m <> lit "conv-2")
                     (JsMap.values (messages (storage Samples.chat))))
    by (repeat constructor; discriminate).
  split; [exact H|].
  destruct (reads_leave_store_unchanged [] 5 (lit "doc-1") (lit "conv-1")
              (lit "conv-2") Samples.chat)
    as (_ & _ & _ & _ & r & Hrun & Hnil).
  split; [|reflexivity].
  rewrite Hrun. now rewrite (Hnil H).
Defined.

(** ** Facts about indexing *)

Module IndexFacts.

Section Indexing.
Variable documentId : jsstring.
Variable processed : DocumentProcessor.ProcessedDocument.
Variable embeddings : list (list float).

(** The record [indexDocument] stores for [chunk] at [index]. *)
Definition stored_chunk (id : jsstring) (now : Date) (chunk : jsstring)
  (index : Z) : DocumentChunk.t :=
  {| DocumentChunk.id := id;
     DocumentChunk.documentId := documentId;
     DocumentChunk.content := chunk;
     DocumentChunk.embedding := nth_error embeddings (Z.to_nat index);
     DocumentChunk.metadata :=
       Some {| DocumentMetadata.fileName :=
                 DocumentProcessor.fileName processed;
               DocumentMetadata.fileId := DocumentProcessor.fileId processed;
               DocumentMetadata.totalChunks :=
                 len (DocumentProcessor.chunks processed);
               DocumentMetadata.processedAt := now |};
     DocumentChunk.chunkIndex := index |}.

(** The callback of [processed.chunks.map]. *)
Definition store_one (chunk : jsstring) (index : Z) : M DocumentChunk.t :=
  bind newDate (fun now =>
    createDocumentChunk
      {| InsertDocumentChunk.documentId := documentId;
         InsertDocumentChunk.content := chunk;
         InsertDocumentChunk.embedding :=
           nth_error embeddings (Z.to_nat index);
         InsertDocumentChunk.metadata :=
           Some {| DocumentMetadata.fileName :=
                     DocumentProcessor.fileName processed;
                   DocumentMetadata.fileId :=
                     DocumentProcessor.fileId processed;
                   DocumentMetadata.totalChunks :=
                     len (DocumentProcessor.chunks processed);
                   DocumentMetadata.processedAt := now |};
         InsertDocumentChunk.chunkIndex := index |}).

(** The entries the callbacks append, given the ids and dates to come. *)
Fixpoint entries (us : nat -> jsstring) (ck : nat -> Date) (d t : nat)
  (i : Z) (l : list jsstring) : JsMap.t DocumentChunk.t :=
  match l with
  | [] => []
  | x :: r =>
      (us d, stored_chunk (us d) (ck t) x i)
        :: entries us ck (S d) (S t) (i + 1) r
  end.

Lemma store_one_run (chunk : jsstring) (index : Z) (w : World) :
  store_one chunk index w =
  (Ok (stored_chunk (uuids w (drawn w)) (clock w (ticks w)) chunk index),
   {| storage :=
        {| messages := messages (storage w);
           conversations := conversations (storage w);
           documentChunks :=
             JsMap.set (uuids w (drawn w))
               (stored_chunk (uuids w (drawn w)) (clock w (ticks w))
                             chunk index)
               (documentChunks (storage w)) |};
      uuids := uuids w; drawn := S (drawn w);
      clock := clock w; ticks := S (ticks w) |}).
Proof. reflexivity. Qed.

Lemma map_all_run : forall l i w,
  NoDup (map (uuids w) (seq (drawn w) (length l))) ->
  Forall (fun id => JsMap.get id (documentChunks (storage w)) = None)
         (map (uuids w) (seq (drawn w) (length l))) ->
  map_all_from i store_one l w =
  (Ok (map snd (entries (uuids w) (clock w) (drawn w) (ticks w) i l)),
   {| storage :=
        {| messages := messages (storage w);
           conversations := conversations (storage w);
           documentChunks :=
             documentChunks (storage w)
             ++ entries (uuids w) (clock w) (drawn w) (ticks w) i l |};
      uuids := uuids w; drawn := drawn w + length l;
      clock := clock w; ticks := ticks w + length l |}).
Proof.
  induction l as [|x r IH]; intros i w Hnd Hfresh.
  - destruct w as [[ms cs ds] us d ck t]. cbn.
    now rewrite app_nil_r, !Nat.add_0_r.
  - cbn [map_all_from]. unfold bind at 1. rewrite store_one_run.
    cbn [length seq map] in Hnd, Hfresh.
    inversion Hnd as [|? ? Hnotin Hnd']; subst.
    inversion Hfresh as [|? ? Hhere Hrest]; subst.
    unfold bind at 1. rewrite IH; cbn [storage documentChunks drawn uuids].
    + cbn [ret entries map snd messages conversations clock ticks].
      rewrite (set_fresh _ _ _ Hhere), <- app_assoc. cbn [app length].
      now rewrite !Nat.add_succ_r.
    + exact Hnd'.
    + apply Forall_forall. intros id Hid.
      rewrite Forall_forall in Hrest.
      rewrite get_set_other; [now apply Hrest|].
      intros ->. contradiction.
Qed.

Lemma entries_documentId us ck : forall l d t i,
  Forall (fun c => DocumentChunk.documentId c = documentId)
         (JsMap.values (entries us ck d t i l)).
Proof.
  induction l as [|x r IH]; intros d t i; cbn; constructor; auto.
  apply IH.
Qed.

Lemma entries_content_index us ck : forall l d t i,
  map (fun c => (DocumentChunk.content c, DocumentChunk.chunkIndex c))
      (JsMap.values (entries us ck d t i l))
  = JsArray.mapi_from i (fun chunk index => (chunk, index)) l.
Proof.
  induction l as [|x r IH]; intros d t i; cbn; [reflexivity|].
  f_equal. apply IH.
Qed.

End Indexing.

Lemma mapi_from_indices : forall (l : list jsstring) i,
  NoDup (map snd (JsArray.mapi_from i (fun chunk index => (chunk, index)) l))
  /\ Forall (fun j => i <= j)
       (map snd (JsArray.mapi_from i (fun chunk index => (chunk, index)) l)).
Proof.
  induction l as [|x r IH]; intros i; cbn.
  - split; constructor.
  - destruct (IH (i + 1)) as [Hnd Hge]. split.
    + constructor; [|exact Hnd].
      intros Hin. rewrite Forall_forall in Hge.
      specialize (Hge i Hin). lia.
    + constructor; [lia|].
      eapply Forall_impl; [|exact Hge]. cbn. intros; lia.
Qed.

Lemma filter_all {A : Type} (P : A -> bool) (l : list A) :
  Forall (fun x => P x = true) l -> filter P l = l.
Proof.
  induction 1 as [|x l Hx _ IH]; cbn; [reflexivity|].
  now rewrite Hx, IH.
Qed.

Lemma filter_none {A : Type} (P : A -> bool) (l : list A) :
  Forall (fun x => P x = false) l -> filter P l = [].
Proof.
  induction 1 as [|x l Hx _ IH]; cbn; [reflexivity|].
  now rewrite Hx.
Qed.

(** Storing a chunk of another document cannot duplicate an index of this
    one: the chunks of this document stay, except one that is overwritten. *)
Lemma set_other_document (P : DocumentChunk.t -> bool)
  (k : jsstring) (v : DocumentChunk.t) :
  P v = false ->
  forall m,
    NoDup (map DocumentChunk.chunkIndex (filter P (JsMap.values m))) ->
    NoDup (map DocumentChunk.chunkIndex
               (filter P (JsMap.values (JsMap.set k v m)))).
Proof.
  intros Hv.
  assert (Hin : forall m x,
             In x (filter P (JsMap.values (JsMap.set k v m))) ->
             In x (filter P (JsMap.values m))).
  { intros m x Hx. apply filter_In in Hx. destruct Hx as [Hx Hp].
    apply values_set_In in Hx. destruct Hx as [-> | Hx]; [congruence|].
    apply filter_In. now split. }
  induction m as [|[k' v'] m IH]; intros Hnd.
  - cbn. rewrite Hv. constructor.
  - cbn [JsMap.set]. destruct (JsMap.str_eqb k k').
    + change (JsMap.values ((k, v) :: m)) with (v :: JsMap.values m).
      change (JsMap.values ((k', v') :: m)) with (v' :: JsMap.values m) in Hnd.
      cbn [filter] in *. rewrite Hv.
      destruct (P v'); [|exact Hnd]. cbn in Hnd. now inversion Hnd.
    + change (JsMap.values ((k', v') :: JsMap.set k v m))
        with (v' :: JsMap.values (JsMap.set k v m)).
      change (JsMap.values ((k', v') :: m)) with (v' :: JsMap.values m) in Hnd.
      cbn [filter] in *.
      destruct (P v'); [|now apply IH].
      cbn [map] in *. inversion Hnd as [|? ? Hnotin Hnd']; subst.
      constructor; [|now apply IH].
      intros Hc. apply Hnotin.
      apply in_map_iff in Hc. destruct Hc as (y & Hy & Hyin).
      apply in_map_iff. exists y. split; [exact Hy|]. now apply Hin.
Qed.

(** Every call that does not store a chunk under [documentId] keeps the
    indices of that document unique. *)
Lemma run_keeps_unique (documentId : jsstring) (op : operation) (w : World) :
  adds_chunk_to documentId op = false ->
  unique_indices documentId (storage w) ->
  unique_indices documentId (storage (run op w)).
Proof.
  intros Hop Hu. destruct op; cbn [run]; try exact Hu.
  - unfold updateConversation, bind, read. cbn.
    destruct (JsMap.get id (conversations (storage w))); exact Hu.
  - cbn [adds_chunk_to] in Hop.
    unfold unique_indices, indices_of, chunks_of in *. cbn.
    apply set_other_document; [|exact Hu]. exact Hop.
Qed.

Lemma run_all_keeps_unique (documentId : jsstring) : forall ops w,
  Forall (fun op => adds_chunk_to documentId op = false) ops ->
  unique_indices documentId (storage w) ->
  unique_indices documentId (storage (run_all ops w)).
Proof.
  induction ops as [|op ops IH]; intros w Hops Hu; [exact Hu|].
  inversion Hops; subst. cbn. apply IH; [assumption|].
  now apply run_keeps_unique.
Qed.

End IndexFacts.
Import IndexFacts.

(** ** Checks on sample data *)

Module SampleFacts.

(** Pairwise distinct strings, checked by computation. *)
Fixpoint distinct (l : list jsstring) : bool :=
  match l with
  | [] => true
  | x :: r => negb (existsb (JsMap.str_eqb x) r) && distinct r
  end.

Lemma distinct_NoDup (l : list jsstring) : distinct l = true -> NoDup l.
Proof.
  induction l as [|x r IH]; intros H; constructor;
    cbn [distinct] in H; apply andb_true_iff in H; destruct H as [Hx Hr].
  - intros Hin. apply negb_true_iff in Hx.
    assert (E : existsb (JsMap.str_eqb x) r = true)
      by (apply existsb_exists; exists x; split; [exact Hin|apply str_eqb_refl]).
    congruence.
  - now apply IH.
Qed.

Lemma unused_ids {V : Type} (m : JsMap.t V) (ids : list jsstring) :
  forallb (fun id => match JsMap.get id m with None => true | Some _ => false end)
          ids = true ->
  Forall (fun id => JsMap.get id m = None) ids.
Proof.
  intros H. apply Forall_forall. intros id Hid.
  rewrite forallb_forall in H. specialize (H id Hid).
  now destruct (JsMap.get id m).
Qed.

Lemma other_documents (documentId : jsstring) (l : list DocumentChunk.t) :
  forallb (fun c => negb (JsMap.str_eqb (DocumentChunk.documentId c) documentId))
          l = true ->
  Forall (fun c => DocumentChunk.documentId c <> documentId) l.
Proof.
  intros H. apply Forall_forall. intros c Hc.
  rewrite forallb_forall in H. specialize (H c Hc).
  apply negb_true_iff in H. now apply str_eqb_neq.
Qed.

Lemma other_operations (documentId : jsstring) (ops : list operation) :
  forallb (fun op => negb (adds_chunk_to documentId op)) ops = true ->
  Forall (fun op => adds_chunk_to documentId op = false) ops.
Proof.
  intros H. apply Forall_forall. intros op Hop.
  rewrite forallb_forall in H. specialize (H op Hop).
  now apply negb_true_iff.
Qed.

(** The handbook as the processor returns it: three chunks. *)
Definition handbook_document : DocumentProcessor.ProcessedDocument :=
  Eval vm_compute in
    match Samples.process_handbook (lit "file-3") with
    | Ok document => document
    | Throw _ => DocumentProcessor.mkProcessed [] [] [] [] []
    end.

Lemma process_handbook_run :
  Samples.process_handbook (lit "file-3") = Ok handbook_document.
Proof. vm_compute. reflexivity. Qed.

Lemma handbook_chunks :
  map len (DocumentProcessor.chunks handbook_document) = [958; 984; 474].
Proof. vm_compute. reflexivity. Qed.

(** The note as the processor returns it: no chunk. *)
Definition note_document : DocumentProcessor.ProcessedDocument :=
  Eval vm_compute in
    match Samples.process_note (lit "file-4") with
    | Ok document => document
    | Throw _ => DocumentProcessor.mkProcessed [] [] [] [] []
    end.

Lemma process_note_run :
  Samples.process_note (lit "file-4") = Ok note_document.
Proof. vm_compute. reflexivity. Qed.

End SampleFacts.
Import SampleFacts.

(** ** Properties of the chunk indices *)

(** C9, as stated, fails: after the leaflet is indexed (one chunk, index 0),
    a later [createDocumentChunk] with the same document id and index 0 is
    stored as it comes, and the document has two chunks of index 0. *)
Lemma index_reused_after_indexing :
  indexDocument Samples.embed_all Samples.process (lit "file-1") Samples.fresh
  = (Ok (uuids Samples.fresh 0, 1), Samples.indexed) /\
  indices_of (uuids Samples.fresh 0) (storage Samples.indexed) = [0] /\
  indices_of (uuids Samples.fresh 0)
    (storage (run (CreateDocumentChunk Samples.stray) Samples.indexed))
  = [0; 0] /\
  ~ unique_indices (uuids Samples.fresh 0)
      (storage (run (CreateDocumentChunk Samples.stray) Samples.indexed)).
Proof.
  split; [reflexivity|]. split; [reflexivity|]. split; [reflexivity|].
  unfold unique_indices.
  change (indices_of (uuids Samples.fresh 0)
            (storage (run (CreateDocumentChunk Samples.stray) Samples.indexed)))
    with [0; 0].
  intros H. inversion H as [|? ? Hnotin _]; subst.
  apply Hnotin. now left.
Qed.

(** C9, amended: when [indexDocument] completes for a document, its random
    ids being fresh (the document id is borne by no stored chunk, the chunk
    ids are pairwise distinct and unused), the chunks stored under the
    document id are the extracted chunks in extraction order, the i-th
    (from 0) with index i, so that the indices are pairwise distinct; and
    this uniqueness is preserved by every sequence of later store operations
    none of which is a [createDocumentChunk] for that same document id. *)
Theorem indexDocument_chunk_indices
  (gEs : list jsstring -> outcome (list (list float)))
  (pD : jsstring -> outcome DocumentProcessor.ProcessedDocument)
  (fileId : jsstring) (processed : DocumentProcessor.ProcessedDocument)
  (embeddings : list (list float)) (w : World) :
  pD fileId = Ok processed ->
  gEs (DocumentProcessor.chunks processed) = Ok embeddings ->
  let documentId := uuids w (drawn w) in
  let chunkIds :=
    map (uuids w)
        (seq (S (drawn w)) (length (DocumentProcessor.chunks processed))) in
  Forall (fun c => DocumentChunk.documentId c <> documentId)
         (JsMap.values (documentChunks (storage w))) ->
  NoDup chunkIds ->
  Forall (fun id => JsMap.get id (documentChunks (storage w)) = None)
         chunkIds ->
  exists w',
    indexDocument gEs pD fileId w
    = (Ok (documentId, len (DocumentProcessor.chunks processed)), w') /\
    map (fun c => (DocumentChunk.content c, DocumentChunk.chunkIndex c))
        (chunks_of documentId (storage w'))
    = JsArray.mapi (fun chunk index => (chunk, index))
                   (DocumentProcessor.chunks processed) /\
    unique_indices documentId (storage w') /\
    forall ops,
      Forall (fun op => adds_chunk_to documentId op = false) ops ->
      unique_indices documentId (storage (run_all ops w')).
Proof.
  intros Hp Hg documentId chunkIds Hdoc Hnd Hfresh.
  set (w1 := {| storage := storage w; uuids := uuids w;
                drawn := S (drawn w); clock := clock w; ticks := ticks w |}).
  pose proof (map_all_run documentId processed embeddings
                (DocumentProcessor.chunks processed) 0 w1 Hnd Hfresh) as Hrun.
  cbn [storage uuids drawn clock ticks w1] in Hrun.
  set (es := entries documentId processed embeddings (uuids w) (clock w)
               (S (drawn w)) (ticks w) 0
               (DocumentProcessor.chunks processed)) in *.
  assert (Hchunks : forall w',
            documentChunks (storage w') = documentChunks (storage w) ++ es ->
            chunks_of documentId (storage w') = JsMap.values es).
  { intros w' Hd. unfold chunks_of. rewrite Hd.
    unfold JsMap.values. rewrite map_app, filter_app.
    rewrite filter_none, filter_all; [reflexivity| |].
    - eapply Forall_impl;
        [|exact (entries_documentId documentId processed embeddings
                   (uuids w) (clock w)
                   (DocumentProcessor.chunks processed)
                   (S (drawn w)) (ticks w) 0)].
      cbn. intros c ->. apply str_eqb_refl.
    - eapply Forall_impl; [|exact Hdoc].
      cbn. intros c Hc. now apply str_eqb_neq. }
  assert (Hunique : forall w',
            documentChunks (storage w') = documentChunks (storage w) ++ es ->
            unique_indices documentId (storage w')).
  { intros w' Hd. unfold unique_indices, indices_of. rewrite (Hchunks w' Hd).
    pose proof (entries_content_index documentId processed embeddings
                  (uuids w) (clock w) (DocumentProcessor.chunks processed)
                  (S (drawn w)) (ticks w) 0) as Hci.
    fold es in Hci.
    destruct (mapi_from_indices (DocumentProcessor.chunks processed) 0)
      as [Hnodup _].
    rewrite <- Hci, map_map in Hnodup. exact Hnodup. }
  eexists. split; [|split; [|split]].
  - unfold indexDocument, bind at 1, await. rewrite Hp.
    unfold bind at 1, randomUUID. fold w1.
    unfold bind at 1. rewrite Hg.
    unfold bind at 1.
    change (map_all_from 0 _ (DocumentProcessor.chunks processed) w1)
      with (map_all_from 0 (store_one documentId processed embeddings)
              (DocumentProcessor.chunks processed) w1).
    rewrite Hrun. reflexivity.
  - rewrite Hchunks by reflexivity. apply entries_content_index.
  - now apply Hunique.
  - intros ops Hops. apply run_all_keeps_unique; [exact Hops|].
    now apply Hunique.
Qed.

(** The handbook (three chunks) indexed into the library, which holds five
    chunks of another document with the indices 0 to 4: the new document
    has the indices 0, 1 and 2, in this order, and they are still its only
    indices after five later calls, two of which store a chunk of another
    document under an index the handbook uses. *)
Lemma indexDocument_chunk_indices_witness :
  Samples.process_handbook (lit "file-3") = Ok handbook_document /\
  map len (DocumentProcessor.chunks handbook_document) = [958; 984; 474] /\
  indices_of (lit "doc-1") (storage Samples.library) = [1; 2; 0; 3; 4] /\
  exists w',
    indexDocument Samples.embed_all Samples.process_handbook (lit "file-3")
                  Samples.library
    = (Ok (uuids Samples.library 0, 3), w') /\
    map (fun c => (DocumentChunk.content c, DocumentChunk.chunkIndex c))
        (chunks_of (uuids Samples.library 0) (storage w'))
    = JsArray.mapi (fun chunk index => (chunk, index))
                   (DocumentProcessor.chunks handbook_document) /\
    indices_of (uuids Samples.library 0) (storage w') = [0; 1; 2] /\
    unique_indices (uuids Samples.library 0)
      (storage
         (run_all [CreateMessage
                     {| InsertMessage.conversationId := lit "conv-1";
                        InsertMessage.role := lit "user";
                        InsertMessage.content := lit "Thanks";
                        InsertMessage.citations := None |};
                   CreateDocumentChunk
                     {| InsertDocumentChunk.documentId := lit "doc-1";
                        InsertDocumentChunk.content := lit "One more leaflet";
                        InsertDocumentChunk.embedding := None;
                        InsertDocumentChunk.metadata := None;
                        InsertDocumentChunk.chunkIndex := 1 |};
                   GetDocumentChunks (uuids Samples.library 0);
                   SearchChunksByEmbedding [1; 0]%float 5;
                   CreateDocumentChunk
                     {| InsertDocumentChunk.documentId := lit "doc-7";
                        InsertDocumentChunk.content := lit "Other leaflet";
                        InsertDocumentChunk.embedding := None;
                        InsertDocumentChunk.metadata := None;
                        InsertDocumentChunk.chunkIndex := 2 |}]
                  w')).
Proof.
  split; [exact process_handbook_run|]. split; [exact handbook_chunks|].
  split; [reflexivity|].
  destruct (indexDocument_chunk_indices
              Samples.embed_all Samples.process_handbook (lit "file-3")
              handbook_document _ Samples.library
              process_handbook_run eq_refl)
    as (w' & Hrun & Hpairs & _ & Hkeep).
  - apply other_documents. vm_compute. reflexivity.
  - apply distinct_NoDup. vm_compute. reflexivity.
  - apply unused_ids. vm_compute. reflexivity.
  - exists w'. split; [exact Hrun|]. split; [exact Hpairs|]. split.
    + unfold indices_of.
      apply (f_equal (map snd)) in Hpairs. rewrite map_map in Hpairs.
      etransitivity; [exact Hpairs|]. vm_compute. reflexivity.
    + apply Hkeep. apply other_operations. vm_compute. reflexivity.
Defined.

(** * Further properties of the code *)

(** ** More about the chunker *)

Module ChunkerMore.

Lemma slice_from_length {A : Type} (z : Z) (s : list A) :
  len (slice_from z s) <= len s.
Proof.
  unfold slice_from, len. rewrite length_skipn. lia.
Qed.

Lemma slice_from_bound {A : Type} (overlap : Z) (s : list A) :
  1 <= overlap -> len (slice_from (- overlap) s) <= overlap.
Proof.
  intros H. unfold slice_from, len.
  destruct (Z.ltb_spec (- overlap) 0); [|lia].
  rewrite length_skipn. lia.
Qed.

Lemma slice_from_zero {A : Type} (s : list A) : slice_from (- 0) s = s.
Proof.
  unfold slice_from. cbn. unfold len.
  now rewrite Z.min_l by lia.
Qed.

(** All closed chunks are trimmed strings. *)
Lemma step_chunks_clean cs ov st s :
  Forall clean (chunks st) -> Forall clean (chunks (step cs ov st s)).
Proof.
  intros H. unfold step.
  destruct (is_empty (trim s)); [exact H|].
  destruct (cs <? _); [|exact H].
  destruct (negb _); cbn [chunks]; apply Forall_app; split; auto;
    repeat constructor; apply trim_clean.
Qed.

Lemma fold_chunks_clean cs ov : forall ps st,
  Forall clean (chunks st) ->
  Forall clean (chunks (fold_left (step cs ov) ps st)).
Proof.
  induction ps as [|p ps IH]; intros st H; [exact H|].
  cbn. apply IH. now apply step_chunks_clean.
Qed.

Lemma accumulate_clean text cs ov : Forall clean (accumulate text cs ov).
Proof.
  unfold accumulate.
  pose proof (fold_chunks_clean cs ov (split_sentences text) init
                (Forall_nil _)) as H.
  destruct (negb _); [|exact H].
  apply Forall_app. split; [exact H|].
  repeat constructor; apply trim_clean.
Qed.

(** *** No chunk is longer than the text *)

(** The characters the buffer accounts for, with one for a separator. *)
Definition load (st : state) : Z :=
  if is_empty (currentChunk st) then 0 else len (currentChunk st) + 1.

Lemma load_nonneg st : 0 <= load st.
Proof.
  unfold load. destruct (is_empty _); [lia|].
  pose proof (len_nonneg (currentChunk st)). lia.
Qed.

Lemma step_load cs ov st p T1 T :
  load st + (len p + 1) <= T1 -> T1 <= T ->
  Forall (fun c => len c + 1 <= T) (chunks st) ->
  load (step cs ov st p) <= T1 /\
  Forall (fun c => len c + 1 <= T) (chunks (step cs ov st p)).
Proof.
  intros HT HTT Hc. unfold step.
  pose proof (trim_length p) as Hp.
  pose proof (len_nonneg (trim p)) as Hp0.
  pose proof (load_nonneg st) as Hl.
  destruct (is_empty (trim p)) eqn:Et.
  { split; [lia|exact Hc]. }
  apply is_empty_false in Et.
  destruct (cs <? _).
  - destruct (is_empty (currentChunk st)) eqn:Ec; cbn [negb].
    + split.
      * unfold load. cbn [currentChunk is_empty]. lia.
      * cbn [chunks]. apply Forall_app. split; [exact Hc|].
        repeat constructor. lia.
    + assert (Hload : load st = len (currentChunk st) + 1)
        by (unfold load; now rewrite Ec).
      split.
      * unfold load. cbn [currentChunk].
        pose proof (slice_from_length (- ov) (currentChunk st)).
        destruct (is_empty (slice_from _ _ ++ _)); [lia|].
        rewrite !len_app. change (len sp) with 1. lia.
      * cbn [chunks]. apply Forall_app. split; [exact Hc|].
        repeat constructor.
        pose proof (trim_length (currentChunk st)). lia.
  - split; [|exact Hc].
    unfold load at 1. cbn [currentChunk].
    destruct (is_empty (currentChunk st ++ _)); [lia|].
    rewrite !len_app. unfold load in HT.
    destruct (is_empty (currentChunk st)) eqn:Ec; cbn [negb].
    + apply is_empty_true in Ec. rewrite Ec.
      change (len (@nil char)) with 0. lia.
    + change (len sp) with 1. lia.
Qed.

Lemma fold_load cs ov T : forall ps st,
  load st + room ps <= T ->
  Forall (fun c => len c + 1 <= T) (chunks st) ->
  load (fold_left (step cs ov) ps st) <= T /\
  Forall (fun c => len c + 1 <= T) (chunks (fold_left (step cs ov) ps st)).
Proof.
  induction ps as [|p ps IH]; intros st HT Hc.
  - cbn in *. split; [lia|exact Hc].
  - cbn [fold_left]. cbn [room fold_right] in HT. fold (room ps) in HT.
    pose proof (room_nonneg ps).
    destruct (step_load cs ov st p (T - room ps) T) as [Hs Hc'];
      [lia|lia|exact Hc|].
    apply IH; [lia|exact Hc'].
Qed.

Lemma room_split_sentences text : room (split_sentences text) <= len text + 1.
Proof.
  pose proof (split_sentences_weight text) as Hw.
  rewrite <- room_weight in Hw.
  assert (1 <= Z.of_nat (length (split_sentences text))).
  { pose proof (split_go_nonempty (length text) [] text) as Hn.
    unfold split_sentences.
    destruct (split_go (length text) [] text); [congruence|].
    simpl length. lia. }
  lia.
Qed.

Lemma accumulate_length text cs ov :
  Forall (fun c => len c <= len text) (accumulate text cs ov).
Proof.
  pose proof (room_split_sentences text) as HT.
  destruct (fold_load cs ov (len text + 1) (split_sentences text) init)
    as [Hl Hc].
  { unfold load. cbn. lia. }
  { constructor. }
  unfold accumulate.
  set (st := fold_left (step cs ov) (split_sentences text) init) in *.
  assert (Hc' : Forall (fun c => len c <= len text) (chunks st))
    by (eapply Forall_impl; [|exact Hc]; cbn; intros; lia).
  destruct (is_empty (trim (currentChunk st))) eqn:E; cbn [negb];
    [exact Hc'|].
  apply Forall_app. split; [exact Hc'|]. repeat constructor.
  pose proof (trim_length (currentChunk st)).
  pose proof (len_nonneg text).
  unfold load in Hl. destruct (is_empty (currentChunk st)) eqn:Ec.
  - apply is_empty_true in Ec. rewrite Ec in *.
    change (len (@nil char)) with 0 in *. lia.
  - lia.
Qed.

End ChunkerMore.
Import ChunkerMore.

Module ChunkerBounds.

(** *** How long a chunk can get *)

Lemma step_bound cs ov M B st p :
  1 <= ov -> cs + 1 <= B -> ov + 1 + M <= B ->
  (trim p <> [] -> len (trim p) <= M) ->
  (is_empty (currentChunk st) = true \/ len (currentChunk st) <= B) ->
  Forall (fun c => len c <= B) (chunks st) ->
  (is_empty (currentChunk (step cs ov st p)) = true
   \/ len (currentChunk (step cs ov st p)) <= B) /\
  Forall (fun c => len c <= B) (chunks (step cs ov st p)).
Proof.
  intros Hov Hcs HM Hp Hcur Hc. unfold step.
  destruct (is_empty (trim p)) eqn:Et; [now split|].
  apply is_empty_false in Et. specialize (Hp Et).
  destruct (Z.ltb_spec cs (len (currentChunk st) + len (trim p))).
  - destruct (is_empty (currentChunk st)) eqn:Ec; cbn [negb].
    + split; [now left|].
      cbn [chunks]. apply Forall_app. split; [exact Hc|].
      repeat constructor. lia.
    + destruct Hcur as [Hcur|Hcur]; [congruence|]. split.
      * right. cbn [currentChunk]. rewrite !len_app.
        pose proof (slice_from_bound ov (currentChunk st) Hov).
        change (len sp) with 1. lia.
      * cbn [chunks]. apply Forall_app. split; [exact Hc|].
        repeat constructor.
        pose proof (trim_length (currentChunk st)). lia.
  - split; [|exact Hc]. right. cbn [currentChunk]. rewrite !len_app.
    assert (len (if negb (is_empty (currentChunk st)) then sp else []) <= 1)
      by (destruct (negb _); unfold len; simpl; lia).
    lia.
Qed.

Lemma fold_bound cs ov M B :
  1 <= ov -> cs + 1 <= B -> ov + 1 + M <= B ->
  forall ps st,
    (forall p, In p ps -> trim p <> [] -> len (trim p) <= M) ->
    (is_empty (currentChunk st) = true \/ len (currentChunk st) <= B) ->
    Forall (fun c => len c <= B) (chunks st) ->
    (is_empty (currentChunk (fold_left (step cs ov) ps st)) = true
     \/ len (currentChunk (fold_left (step cs ov) ps st)) <= B) /\
    Forall (fun c => len c <= B) (chunks (fold_left (step cs ov) ps st)).
Proof.
  intros Hov Hcs HM.
  induction ps as [|p ps IH]; intros st Hps Hcur Hc; [now split|].
  cbn [fold_left].
  destruct (step_bound cs ov M B st p Hov Hcs HM) as [H1 H2]; auto.
  { apply Hps. now left. }
  apply IH; auto. intros q Hq. apply Hps. now right.
Qed.

Lemma accumulate_bound text cs ov M :
  1 <= ov ->
  Forall (fun s => len s <= M) (sentences text) ->
  Forall (fun c => len c <= Z.max (cs + 1) (ov + 1 + M))
         (accumulate text cs ov).
Proof.
  intros Hov HM.
  destruct (fold_bound cs ov M (Z.max (cs + 1) (ov + 1 + M)) Hov
              ltac:(lia) ltac:(lia) (split_sentences text) init)
    as [Hcur Hc].
  { intros p Hp Hne. rewrite Forall_forall in HM. apply HM.
    unfold sentences. apply filter_In. split.
    - now apply in_map.
    - apply negb_true_iff. now apply is_empty_false. }
  { now left. }
  { constructor. }
  unfold accumulate.
  set (st := fold_left (step cs ov) (split_sentences text) init) in *.
  destruct (is_empty (trim (currentChunk st))) eqn:E; cbn [negb];
    [exact Hc|].
  apply Forall_app. split; [exact Hc|]. repeat constructor.
  pose proof (trim_length (currentChunk st)).
  destruct Hcur as [Hcur|Hcur]; [|lia].
  apply is_empty_true in Hcur. rewrite Hcur in E. discriminate.
Qed.

(** *** How many chunks there can be *)

(** Closed chunks, and one more for a buffer that is in use. *)
Definition pending (st : state) : nat :=
  length (chunks st) + (if is_empty (currentChunk st) then 0 else 1).

Lemma step_pending cs ov st p :
  (pending (step cs ov st p)
   <= pending st + (if is_empty (trim p) then 0 else 1))%nat.
Proof.
  unfold step, pending.
  destruct (is_empty (trim p)) eqn:Et; [lia|].
  destruct (cs <? _).
  - destruct (is_empty (currentChunk st)) eqn:Ec; cbn [negb];
      cbn [chunks currentChunk]; rewrite length_app; cbn [length is_empty].
    + lia.
    + destruct (is_empty (slice_from _ _ ++ _)); cbv iota; lia.
  - cbn [chunks currentChunk].
    destruct (is_empty (currentChunk st ++ _));
      destruct (is_empty (currentChunk st)); cbv iota; lia.
Qed.

Lemma fold_pending cs ov : forall ps st,
  (pending (fold_left (step cs ov) ps st)
   <= pending st + length (sents ps))%nat.
Proof.
  induction ps as [|p ps IH]; intros st; [cbn; lia|].
  cbn [fold_left]. specialize (IH (step cs ov st p)).
  pose proof (step_pending cs ov st p) as Hs.
  unfold sents in *. cbn [map filter].
  destruct (is_empty (trim p)); cbn [negb length] in *; lia.
Qed.

Lemma accumulate_count text cs ov :
  (length (accumulate text cs ov) <= length (sentences text))%nat.
Proof.
  pose proof (fold_pending cs ov (split_sentences text) init) as H.
  change (sents (split_sentences text)) with (sentences text) in H.
  unfold accumulate.
  set (st := fold_left (step cs ov) (split_sentences text) init) in *.
  unfold pending in H. cbn [init chunks currentChunk length is_empty] in H.
  destruct (is_empty (trim (currentChunk st))) eqn:E; cbn [negb].
  - lia.
  - rewrite length_app. cbn [length].
    destruct (is_empty (currentChunk st)) eqn:Ec; [|lia].
    apply is_empty_true in Ec. rewrite Ec in E. discriminate.
Qed.

(** *** An overlap of 0 carries the whole chunk over *)

Lemma join_sp_snoc : forall (D : list jsstring) (t : jsstring),
  D <> [] -> join_sp (D ++ [t]) = join_sp D ++ sp ++ t.
Proof.
  induction D as [|x D IH]; intros t HD; [congruence|].
  destruct D as [|y D]; [reflexivity|].
  change ((x :: y :: D) ++ [t]) with (x :: (y :: D) ++ [t]).
  change ((y :: D) ++ [t]) with (y :: D ++ [t]) at 1.
  rewrite join_sp_cons2.
  change (y :: D ++ [t]) with ((y :: D) ++ [t]).
  rewrite IH by discriminate.
  rewrite join_sp_cons2, <- !app_assoc. reflexivity.
Qed.

Lemma join_sp_nil_inv (D : list jsstring) :
  Forall (fun t => t <> []) D -> join_sp D = [] -> D = [].
Proof.
  intros HD H. destruct D as [|x D]; [reflexivity|].
  inversion HD; subst. exfalso. now apply (join_sp_nonempty x D).
Qed.

Lemma snoc_app {A : Type} (D : list A) (t : A) (R : list A) :
  D ++ t :: R = (D ++ [t]) ++ R.
Proof. now rewrite <- app_assoc. Qed.

(** A chunk that is the join of the first sentences of [S]. *)
Definition joins_prefix (S : list jsstring) (c : jsstring) : Prop :=
  exists k, (0 < k <= length S)%nat /\ c = join_sp (firstn k S).

Lemma joins_prefix_app (D R : list jsstring) (c : jsstring) :
  joins_prefix D c -> joins_prefix (D ++ R) c.
Proof.
  intros (k & Hk & ->). exists k. split.
  - rewrite length_app. lia.
  - rewrite firstn_app. replace (k - length D)%nat with 0%nat by lia.
    cbn. now rewrite app_nil_r.
Qed.

Lemma joins_prefix_all (D : list jsstring) :
  D <> [] -> joins_prefix D (join_sp D).
Proof.
  intros HD. exists (length D). split.
  - destruct D; [congruence|cbn; lia].
  - now rewrite firstn_all.
Qed.

Lemma fold_overlap_zero cs : forall ps D st,
  Forall (fun t => t <> [] /\ clean t) D ->
  (forall p, In p ps -> trim p <> [] -> len (trim p) <= cs) ->
  currentChunk st = join_sp D ->
  Forall (joins_prefix D) (chunks st) ->
  currentChunk (fold_left (step cs 0) ps st) = join_sp (D ++ sents ps) /\
  Forall (joins_prefix (D ++ sents ps))
         (chunks (fold_left (step cs 0) ps st)).
Proof.
  induction ps as [|p ps IH]; intros D st HD Hps Hcur Hc.
  - cbn. rewrite app_nil_r. now split.
  - cbn [fold_left]. unfold sents. cbn [map filter]. fold (sents ps).
    assert (Hps' : forall q, In q ps -> trim q <> [] -> len (trim q) <= cs)
      by (intros q Hq; apply Hps; now right).
    unfold step at 2 4.
    destruct (is_empty (trim p)) eqn:Et; cbn [negb].
    { now apply IH. }
    assert (Hne : trim p <> []) by now apply is_empty_false.
    assert (Hp : len (trim p) <= cs) by (apply Hps; [now left|exact Hne]).
    assert (HD' : Forall (fun t => t <> [] /\ clean t) (D ++ [trim p])).
    { apply Forall_app. split; [exact HD|].
      repeat constructor; [exact Hne|apply trim_clean|apply trim_clean]. }
    assert (Hclean : trim (currentChunk st) = currentChunk st).
    { rewrite Hcur. apply trim_id, join_sp_clean. exact HD. }
    assert (Hempty : is_empty (currentChunk st) = true -> D = []).
    { intros E. apply is_empty_true in E. rewrite Hcur in E.
      apply join_sp_nil_inv in E; [exact E|].
      eapply Forall_impl; [|exact HD]. cbn. tauto. }
    destruct (Z.ltb_spec cs (len (currentChunk st) + len (trim p))).
    + destruct (is_empty (currentChunk st)) eqn:Ec; cbn [negb].
      * apply is_empty_true in Ec. rewrite Ec in *.
        change (len (@nil char)) with 0 in *. lia.
      * assert (HDne : D <> []).
        { intros ->. cbn in Hcur. rewrite Hcur in Ec. discriminate. }
        rewrite (snoc_app D (trim p) (sents ps)). apply IH; auto.
        -- cbn [currentChunk]. rewrite slice_from_zero, Hcur.
           now rewrite join_sp_snoc.
        -- cbn [chunks]. apply Forall_app. split.
           ++ eapply Forall_impl; [|exact Hc].
              intros c. apply joins_prefix_app.
           ++ repeat constructor. rewrite Hclean, Hcur.
              apply joins_prefix_app. now apply joins_prefix_all.
    + rewrite (snoc_app D (trim p) (sents ps)). apply IH; auto.
      * cbn [currentChunk].
        destruct (is_empty (currentChunk st)) eqn:Ec; cbn [negb].
        -- rewrite (Hempty eq_refl). apply is_empty_true in Ec.
           now rewrite Ec.
        -- assert (HDne : D <> []).
           { intros ->. cbn in Hcur. rewrite Hcur in Ec. discriminate. }
           rewrite Hcur. now rewrite join_sp_snoc.
      * cbn [chunks]. eapply Forall_impl; [|exact Hc].
        intros c. apply joins_prefix_app.
Qed.

(** A bound on every length, checked by computation. *)
Lemma Forall_len_leb (M : Z) (l : list jsstring) :
  forallb (fun s => len s <=? M) l = true ->
  Forall (fun s => len s <= M) l.
Proof.
  intros H. apply Forall_forall. intros s Hs.
  rewrite forallb_forall in H. now apply Z.leb_le, H.
Qed.

End ChunkerBounds.
Import ChunkerBounds.

(** ** The chunker, for every text and every setting *)

(** X1: [chunkText] returns at most as many chunks as the text has
    sentences (trimmed, non-empty pieces between separators), and every
    chunk it returns is longer than 50 characters and has no white space at
    either end, whatever the text, the chunk size and the overlap. *)
Theorem chunkText_chunks_trimmed (text : jsstring) (chunkSize overlap : Z) :
  (length (chunkText text chunkSize overlap) <= length (sentences text))%nat /\
  Forall (fun chunk => 50 < len chunk /\ trim chunk = chunk)
         (chunkText text chunkSize overlap).
Proof.
  split.
  - unfold chunkText.
    eapply Nat.le_trans; [apply filter_length_le|apply accumulate_count].
  - apply Forall_forall. intros c Hc. unfold chunkText in Hc.
    apply filter_In in Hc. destruct Hc as [Hin Hlen]. split.
    + now apply Z.ltb_lt.
    + apply trim_id.
      pose proof (accumulate_clean text chunkSize overlap) as H.
      rewrite Forall_forall in H. now apply H.
Qed.

(** X2: no chunk is longer than the text it was cut from, whatever the
    chunk size and the overlap (negative ones too); so a text of at most 50
    characters yields no chunk at all. *)
Theorem chunkText_within_text (text : jsstring) (chunkSize overlap : Z) :
  Forall (fun chunk => len chunk <= len text)
         (chunkText text chunkSize overlap) /\
  (len text <= 50 -> chunkText text chunkSize overlap = []).
Proof.
  assert (H : Forall (fun chunk => len chunk <= len text)
                     (chunkText text chunkSize overlap)).
  { apply Forall_forall. intros c Hc. unfold chunkText in Hc.
    apply filter_In in Hc. destruct Hc as [Hin _].
    pose proof (accumulate_length text chunkSize overlap) as H.
    rewrite Forall_forall in H. now apply H. }
  split; [exact H|]. intros Hshort.
  destruct (chunkText text chunkSize overlap) as [|c rest] eqn:E;
    [reflexivity|].
  assert (Hc : In c (chunkText text chunkSize overlap))
    by (rewrite E; now left).
  unfold chunkText in Hc. apply filter_In in Hc. destruct Hc as [_ Hc].
  apply Z.ltb_lt in Hc. inversion H; subst. lia.
Qed.

Lemma chunkText_within_text_witness :
  len Samples.note <= 50 /\ chunkText Samples.note 7 (-3) = [].
Proof.
  split; [discriminate|].
  apply (proj2 (chunkText_within_text Samples.note 7 (-3))). discriminate.
Defined.

(** X3: with an overlap of at least 1, no chunk is longer than the larger
    of [chunkSize + 1] and [overlap + 1 + M], where [M] bounds the length of
    every sentence of the text: a chunk may exceed the chunk size, by the
    joining space or by a sentence that follows the overlap. *)
Theorem chunkText_chunk_length
  (text : jsstring) (chunkSize overlap M : Z) :
  1 <= overlap ->
  Forall (fun sentence => len sentence <= M) (sentences text) ->
  Forall (fun chunk => len chunk <= Z.max (chunkSize + 1) (overlap + 1 + M))
         (chunkText text chunkSize overlap).
Proof.
  intros Hov HM. apply Forall_forall. intros c Hc. unfold chunkText in Hc.
  apply filter_In in Hc. destruct Hc as [Hin _].
  pose proof (accumulate_bound text chunkSize overlap M Hov HM) as H.
  rewrite Forall_forall in H. now apply H.
Qed.

Lemma chunkText_chunk_length_witness :
  map len (sentences Samples.regimen) = [56; 46; 40] /\
  map len (chunkText Samples.regimen 60 10) = [56; 57; 51] /\
  Forall (fun chunk => len chunk <= 67) (chunkText Samples.regimen 60 10).
Proof.
  split; [reflexivity|]. split; [reflexivity|].
  apply (chunkText_chunk_length Samples.regimen 60 10 56); [lia|].
  apply Forall_len_leb. reflexivity.
Defined.

(** X4: with an overlap of 0 the buffer is never cut ([slice(-0)] is the
    whole string): when no sentence is longer than the chunk size, every
    chunk is the first [k] sentences of the text joined by single spaces,
    for some [k >= 1], so that each chunk repeats all the text before it. *)
Theorem chunkText_zero_overlap (text : jsstring) (chunkSize : Z) :
  Forall (fun sentence => len sentence <= chunkSize) (sentences text) ->
  Forall (fun chunk =>
            exists k, (0 < k <= length (sentences text))%nat /\
                      chunk = join_sp (firstn k (sentences text)))
         (chunkText text chunkSize 0).
Proof.
  intros Hs.
  destruct (fold_overlap_zero chunkSize (split_sentences text) [] init)
    as [Hcur Hc].
  { constructor. }
  { intros p Hp Hne. rewrite Forall_forall in Hs. apply Hs.
    unfold sentences. apply filter_In. split.
    - now apply in_map.
    - destruct (trim p); [congruence|reflexivity]. }
  { reflexivity. }
  { constructor. }
  cbn [app] in Hcur, Hc.
  change (sents (split_sentences text)) with (sentences text) in Hcur, Hc.
  unfold chunkText, accumulate.
  set (st := fold_left (step chunkSize 0) (split_sentences text) init) in *.
  apply Forall_forall. intros c Hin. apply filter_In in Hin.
  destruct Hin as [Hin _]. rewrite Forall_forall in Hc.
  assert (Hclean : trim (currentChunk st) = currentChunk st).
  { rewrite Hcur. apply trim_id, join_sp_clean, sentences_clean. }
  destruct (is_empty (trim (currentChunk st))) eqn:E; cbn [negb] in Hin.
  - now apply Hc.
  - apply in_app_or in Hin. destruct Hin as [Hin|[<-|[]]]; [now apply Hc|].
    rewrite Hclean, Hcur. apply joins_prefix_all.
    intros Hnil. rewrite Hclean, Hcur, Hnil in E. discriminate.
Qed.

Lemma chunkText_zero_overlap_witness :
  chunkText Samples.regimen 60 0
  = [ lit "Take one tablet of ibuprofen with food every eight hours";
      lit "Take one tablet of ibuprofen with food every eight hours Do not take more than three tablets in one day";
      lit "Take one tablet of ibuprofen with food every eight hours Do not take more than three tablets in one day Stop and see a doctor if the pain stays." ] /\
  Forall (fun chunk =>
            exists k, (0 < k <= length (sentences Samples.regimen))%nat /\
                      chunk = join_sp (firstn k (sentences Samples.regimen)))
         (chunkText Samples.regimen 60 0).
Proof.
  split; [reflexivity|].
  apply (chunkText_zero_overlap Samples.regimen 60).
  apply Forall_len_leb. reflexivity.
Defined.

(** ** The store, call after call *)

Module StorageMore.

Lemma sort_Permutation {A : Type} (after : A -> A -> bool) : forall l,
  Permutation (JsArray.sort after l) l.
Proof.
  assert (Hins : forall x l, Permutation (JsArray.insert after x l) (x :: l)).
  { intros x. induction l as [|y l IH]; simpl; [reflexivity|].
    destruct (after x y); [|reflexivity].
    rewrite IH. apply perm_swap. }
  induction l as [|x l IH]; simpl; [constructor|].
  rewrite Hins. now constructor.
Qed.

Section IntegerKeys.
Context {A : Type}.
Variable key : A -> Z.

(** The comparator [(a, b) => key(a) - key(b)]. *)
Definition by_key (a b : A) : bool := 0 <? key a - key b.

Definition ascending (a b : A) : Prop := key a <= key b.

Lemma by_key_antisym (x y : A) : by_key x y = true -> by_key y x = false.
Proof. unfold by_key. intros H. apply Z.ltb_lt in H. apply Z.ltb_ge. lia. Qed.

Lemma sort_by_key_sorted (l : list A) :
  StronglySorted ascending (JsArray.sort by_key l).
Proof.
  apply Sorted_StronglySorted.
  - intros x y z. unfold ascending. lia.
  - apply (Sorted_weaken (may_precede by_key) ascending (fun _ => True)).
    + intros x y _ _ H. unfold may_precede, by_key in H.
      apply Z.ltb_ge in H. unfold ascending. lia.
    + apply Forall_forall. auto.
    + apply sort_Sorted. exact by_key_antisym.
Qed.

(** A list that is in order already is left as it is. *)
Lemma sort_sorted_id : forall l,
  StronglySorted ascending l -> JsArray.sort by_key l = l.
Proof.
  induction l as [|x l IH]; intros Hs; [reflexivity|].
  inversion Hs as [|? ? Hs' Hall]; subst.
  simpl. rewrite (IH Hs'). destruct l as [|y l]; [reflexivity|].
  simpl. inversion Hall as [|? ? Hxy _]; subst.
  unfold by_key at 1. unfold ascending in Hxy.
  destruct (Z.ltb_spec 0 (key x - key y)); [lia|reflexivity].
Qed.

End IntegerKeys.

End StorageMore.
Import StorageMore.

(** X5: [getMessagesByConversation] returns exactly the stored messages of
    the conversation (each as often as it is stored), in ascending order of
    timestamp, and leaves the process as it was. *)
Theorem getMessagesByConversation_sorted
  (conversationId : jsstring) (w : World) :
  exists found,
    getMessagesByConversation conversationId w = (Ok found, w) /\
    Permutation found
      (filter (fun m => JsMap.str_eqb (Message.conversationId m) conversationId)
              (JsMap.values (messages (storage w)))) /\
    Forall (fun m => Message.conversationId m = conversationId) found /\
    StronglySorted (fun a b => Message.timestamp a <= Message.timestamp b)
                   found.
Proof.
  eexists. split; [reflexivity|]. split; [|split].
  - apply sort_Permutation.
  - apply sort_Forall. apply Forall_forall. intros m Hm.
    apply filter_In in Hm. destruct Hm as [_ Hm]. now apply str_eqb_eq.
  - apply (sort_by_key_sorted Message.timestamp).
Qed.

(** ** Indexing, then reading back *)

Module IndexMore.

Section Entries.
Variable documentId : jsstring.
Variable processed : DocumentProcessor.ProcessedDocument.
Variable embeddings : list (list float).

(** What [indexDocument] leaves behind when it completes. *)
Definition after_indexing (w : World) : World :=
  {| storage :=
       {| messages := messages (storage w);
          conversations := conversations (storage w);
          documentChunks :=
            documentChunks (storage w)
            ++ entries documentId processed embeddings (uuids w) (clock w)
                 (S (drawn w)) (ticks w) 0
                 (DocumentProcessor.chunks processed) |};
     uuids := uuids w;
     drawn := S (drawn w) + length (DocumentProcessor.chunks processed);
     clock := clock w;
     ticks := ticks w + length (DocumentProcessor.chunks processed) |}.

Lemma entries_length us ck : forall l d t i,
  length (entries documentId processed embeddings us ck d t i l) = length l.
Proof.
  induction l as [|x r IH]; intros d t i; cbn; [reflexivity|].
  now rewrite IH.
Qed.

Lemma entries_embedding us ck : forall l d t i,
  0 <= i ->
  Forall (fun c => i <= DocumentChunk.chunkIndex c /\
                   DocumentChunk.embedding c
                   = nth_error embeddings
                       (Z.to_nat (DocumentChunk.chunkIndex c)))
         (JsMap.values (entries documentId processed embeddings us ck d t i l)).
Proof.
  induction l as [|x r IH]; intros d t i Hi; cbn; constructor.
  - cbn. split; [lia|reflexivity].
  - eapply Forall_impl; [|apply (IH (S d) (S t) (i + 1)); lia].
    cbn. intros c [H1 H2]. split; [lia|exact H2].
Qed.

Lemma entries_ascending us ck : forall l d t i,
  0 <= i ->
  StronglySorted (ascending DocumentChunk.chunkIndex)
    (JsMap.values (entries documentId processed embeddings us ck d t i l)).
Proof.
  induction l as [|x r IH]; intros d t i Hi; cbn; constructor.
  - apply IH. lia.
  - eapply Forall_impl; [|apply (entries_embedding us ck r (S d) (S t) (i + 1)); lia].
    cbn. unfold ascending. cbn. intros c [H _]. lia.
Qed.

Lemma entries_metadata us ck : forall l d t i,
  Forall (fun c =>
            option_map DocumentMetadata.fileName (DocumentChunk.metadata c)
            = Some (DocumentProcessor.fileName processed) /\
            option_map DocumentMetadata.fileId (DocumentChunk.metadata c)
            = Some (DocumentProcessor.fileId processed) /\
            option_map DocumentMetadata.totalChunks (DocumentChunk.metadata c)
            = Some (len (DocumentProcessor.chunks processed)))
         (JsMap.values (entries documentId processed embeddings us ck d t i l)).
Proof.
  induction l as [|x r IH]; intros d t i; cbn; constructor.
  - cbn. auto.
  - apply IH.
Qed.

End Entries.

(** The run of [indexDocument] when both collaborators answer and the ids
    to come are new. *)
Lemma indexDocument_run
  (gEs : list jsstring -> outcome (list (list float)))
  (pD : jsstring -> outcome DocumentProcessor.ProcessedDocument)
  (fileId : jsstring) (processed : DocumentProcessor.ProcessedDocument)
  (embeddings : list (list float)) (w : World) :
  pD fileId = Ok processed ->
  gEs (DocumentProcessor.chunks processed) = Ok embeddings ->
  NoDup (map (uuids w)
           (seq (S (drawn w)) (length (DocumentProcessor.chunks processed)))) ->
  Forall (fun id => JsMap.get id (documentChunks (storage w)) = None)
         (map (uuids w)
            (seq (S (drawn w)) (length (DocumentProcessor.chunks processed)))) ->
  indexDocument gEs pD fileId w
  = (Ok (uuids w (drawn w), len (DocumentProcessor.chunks processed)),
     after_indexing (uuids w (drawn w)) processed embeddings w).
Proof.
  intros Hp Hg Hnd Hfresh.
  set (w1 := {| storage := storage w; uuids := uuids w;
                drawn := S (drawn w); clock := clock w; ticks := ticks w |}).
  pose proof (map_all_run (uuids w (drawn w)) processed embeddings
                (DocumentProcessor.chunks processed) 0 w1 Hnd Hfresh) as Hrun.
  cbn [storage uuids drawn clock ticks w1] in Hrun.
  unfold indexDocument, bind at 1, await. rewrite Hp.
  unfold bind at 1, randomUUID. fold w1.
  unfold bind at 1. rewrite Hg.
  unfold bind at 1.
  change (map_all_from 0 _ (DocumentProcessor.chunks processed) w1)
    with (map_all_from 0 (store_one (uuids w (drawn w)) processed embeddings)
            (DocumentProcessor.chunks processed) w1).
  rewrite Hrun. reflexivity.
Qed.

(** The chunks of the new document in the store that indexing leaves. *)
Lemma chunks_of_after_indexing
  (documentId : jsstring) (processed : DocumentProcessor.ProcessedDocument)
  (embeddings : list (list float)) (w : World) :
  Forall (fun c => DocumentChunk.documentId c <> documentId)
         (JsMap.values (documentChunks (storage w))) ->
  chunks_of documentId
    (storage (after_indexing documentId processed embeddings w))
  = JsMap.values
      (entries documentId processed embeddings (uuids w) (clock w)
         (S (drawn w)) (ticks w) 0 (DocumentProcessor.chunks processed)).
Proof.
  intros Hdoc. unfold chunks_of, after_indexing. cbn [storage documentChunks].
  unfold JsMap.values. rewrite map_app, filter_app.
  rewrite filter_none, filter_all; [reflexivity| |].
  - eapply Forall_impl; [|apply entries_documentId].
    cbn. intros c ->. apply str_eqb_refl.
  - eapply Forall_impl; [|exact Hdoc].
    cbn. intros c Hc. now apply str_eqb_neq.
Qed.

End IndexMore.
Import IndexMore.

(** X6: when [indexDocument] completes for a document, its random ids being
    fresh (the document id is borne by no stored chunk, the chunk ids are
    pairwise distinct and unused), [getDocumentChunks] of the returned
    document id gives back the extracted chunks in extraction order, the
    i-th (from 0) with index i, each with the i-th embedding the provider
    returned (none when the provider returned fewer) and with the file name
    and the chunk count in its metadata. *)
Theorem getDocumentChunks_after_indexDocument
  (gEs : list jsstring -> outcome (list (list float)))
  (pD : jsstring -> outcome DocumentProcessor.ProcessedDocument)
  (fileId : jsstring) (processed : DocumentProcessor.ProcessedDocument)
  (embeddings : list (list float)) (w : World) :
  pD fileId = Ok processed ->
  gEs (DocumentProcessor.chunks processed) = Ok embeddings ->
  let documentId := uuids w (drawn w) in
  let chunkIds :=
    map (uuids w)
        (seq (S (drawn w)) (length (DocumentProcessor.chunks processed))) in
  Forall (fun c => DocumentChunk.documentId c <> documentId)
         (JsMap.values (documentChunks (storage w))) ->
  NoDup chunkIds ->
  Forall (fun id => JsMap.get id (documentChunks (storage w)) = None)
         chunkIds ->
  exists w' stored,
    indexDocument gEs pD fileId w
    = (Ok (documentId, len (DocumentProcessor.chunks processed)), w') /\
    getDocumentChunks documentId w' = (Ok stored, w') /\
    map (fun c => (DocumentChunk.content c, DocumentChunk.chunkIndex c)) stored
    = JsArray.mapi (fun chunk index => (chunk, index))
                   (DocumentProcessor.chunks processed) /\
    Forall (fun c =>
              DocumentChunk.embedding c
              = nth_error embeddings (Z.to_nat (DocumentChunk.chunkIndex c)) /\
              option_map DocumentMetadata.fileName (DocumentChunk.metadata c)
              = Some (DocumentProcessor.fileName processed) /\
              option_map DocumentMetadata.totalChunks
                         (DocumentChunk.metadata c)
              = Some (len (DocumentProcessor.chunks processed)))
           stored.
Proof.
  intros Hp Hg documentId chunkIds Hdoc Hnd Hfresh.
  exists (after_indexing documentId processed embeddings w).
  eexists. split; [|split; [reflexivity|]].
  - now apply indexDocument_run.
  - change (filter _ (JsMap.values
              (documentChunks
                 (storage (after_indexing documentId processed embeddings w)))))
      with (chunks_of documentId
              (storage (after_indexing documentId processed embeddings w))).
    rewrite (chunks_of_after_indexing _ _ _ _ Hdoc).
    change (JsArray.sort _ ?l)
      with (JsArray.sort (by_key DocumentChunk.chunkIndex) l).
    rewrite sort_sorted_id by (apply entries_ascending; lia).
    split; [apply entries_content_index|].
    pose proof (entries_embedding documentId processed embeddings
                  (uuids w) (clock w) (DocumentProcessor.chunks processed)
                  (S (drawn w)) (ticks w) 0 ltac:(lia)) as He.
    pose proof (entries_metadata documentId processed embeddings
                  (uuids w) (clock w) (DocumentProcessor.chunks processed)
                  (S (drawn w)) (ticks w) 0) as Hm.
    rewrite Forall_forall in *. intros c Hc.
    destruct (He c Hc) as [_ He']. destruct (Hm c Hc) as (Hn & _ & Ht).
    auto.
Qed.

(** The handbook (three chunks) indexed into the library (five chunks of
    another document) with a provider that returns two embeddings: the
    three chunks come back in order, the third without an embedding. *)
Lemma getDocumentChunks_after_indexDocument_witness :
  len (JsMap.values (documentChunks (storage Samples.library))) = 5 /\
  exists w' stored,
    indexDocument Samples.embed_two Samples.process_handbook (lit "file-3")
                  Samples.library
    = (Ok (uuids Samples.library 0, 3), w') /\
    getDocumentChunks (uuids Samples.library 0) w' = (Ok stored, w') /\
    map (fun c => (DocumentChunk.content c, DocumentChunk.chunkIndex c)) stored
    = JsArray.mapi (fun chunk index => (chunk, index))
                   (DocumentProcessor.chunks handbook_document) /\
    map (fun c => (len (DocumentChunk.content c), DocumentChunk.chunkIndex c))
        stored
    = [(958, 0); (984, 1); (474, 2)] /\
    Forall (fun c =>
              DocumentChunk.embedding c
              = nth_error [[1; 0]; [0; 1]]%float
                          (Z.to_nat (DocumentChunk.chunkIndex c)))
           stored.
Proof.
  split; [reflexivity|].
  destruct (getDocumentChunks_after_indexDocument
              Samples.embed_two Samples.process_handbook (lit "file-3")
              handbook_document _ Samples.library
              process_handbook_run eq_refl)
    as (w' & stored & Hrun & Hget & Hpairs & Hall).
  - apply other_documents. vm_compute. reflexivity.
  - apply distinct_NoDup. vm_compute. reflexivity.
  - apply unused_ids. vm_compute. reflexivity.
  - exists w', stored. split; [exact Hrun|]. split; [exact Hget|].
    split; [exact Hpairs|]. split.
    + apply (f_equal (map (fun p => (len (fst p), snd p)))) in Hpairs.
      rewrite map_map in Hpairs. cbn [fst snd] in Hpairs.
      etransitivity; [exact Hpairs|]. vm_compute. reflexivity.
    + eapply Forall_impl; [|exact Hall]. cbn. intros c [H _]. exact H.
Defined.

(** ** Writes to the store *)

Module WriteFacts.

(** [l'] is [l] with entries added at the end. *)
Definition extends {A : Type} (l l' : list A) : Prop :=
  exists added, l' = l ++ added.

Lemma extends_refl {A : Type} (l : list A) : extends l l.
Proof. exists []. now rewrite app_nil_r. Qed.

Lemma extends_trans {A : Type} (l1 l2 l3 : list A) :
  extends l1 l2 -> extends l2 l3 -> extends l1 l3.
Proof.
  intros [a ->] [b ->]. exists (a ++ b). now rewrite app_assoc.
Qed.

Lemma keys_set_extends {V : Type} (k : jsstring) (v : V) (m : JsMap.t V) :
  extends (JsMap.keys m) (JsMap.keys (JsMap.set k v m)).
Proof.
  destruct (JsMap.get k m) as [v0|] eqn:E.
  - rewrite (keys_set_present k v v0 m E). apply extends_refl.
  - rewrite (set_fresh k v m E). exists [k]. unfold JsMap.keys.
    now rewrite map_app.
Qed.

(** The three key lists of a store only grow at the end. *)
Definition grown (s s' : MemStorage) : Prop :=
  extends (JsMap.keys (messages s)) (JsMap.keys (messages s')) /\
  extends (JsMap.keys (conversations s)) (JsMap.keys (conversations s')) /\
  extends (JsMap.keys (documentChunks s)) (JsMap.keys (documentChunks s')).

Lemma grown_refl (s : MemStorage) : grown s s.
Proof. repeat split; apply extends_refl. Qed.

Lemma grown_trans (s1 s2 s3 : MemStorage) :
  grown s1 s2 -> grown s2 s3 -> grown s1 s3.
Proof.
  intros (A1 & B1 & C1) (A2 & B2 & C2).
  repeat split; eapply extends_trans; eassumption.
Qed.

Lemma run_grown (op : operation) (w : World) :
  grown (storage w) (storage (run op w)).
Proof.
  destruct op; cbn; try apply grown_refl.
  - repeat split; cbn; try apply extends_refl. apply keys_set_extends.
  - repeat split; cbn; try apply extends_refl. apply keys_set_extends.
  - unfold updateConversation, bind, read.
    destruct (JsMap.get id (conversations (storage w))); cbn;
      [|apply grown_refl].
    repeat split; cbn; try apply extends_refl. apply keys_set_extends.
  - repeat split; cbn; try apply extends_refl. apply keys_set_extends.
Qed.

(** The values of a map after a new key was set. *)
Lemma values_set_fresh {V : Type} (k : jsstring) (v : V) (m : JsMap.t V) :
  JsMap.get k m = None ->
  JsMap.values (JsMap.set k v m) = JsMap.values m ++ [v].
Proof.
  intros H. rewrite (set_fresh k v m H). unfold JsMap.values.
  now rewrite map_app.
Qed.

(** The message a call of [createMessage] builds, and the process it
    leaves. *)
Definition new_message (insertMessage : InsertMessage.t) (w : World)
  : Message.t :=
  {| Message.id := uuids w (drawn w);
     Message.conversationId := InsertMessage.conversationId insertMessage;
     Message.role := InsertMessage.role insertMessage;
     Message.content := InsertMessage.content insertMessage;
     Message.citations := InsertMessage.citations insertMessage;
     Message.timestamp := clock w (ticks w) |}.

Definition with_message (message : Message.t) (w : World) : World :=
  {| storage :=
       {| messages :=
            JsMap.set (Message.id message) message (messages (storage w));
          conversations := conversations (storage w);
          documentChunks := documentChunks (storage w) |};
     uuids := uuids w; drawn := S (drawn w);
     clock := clock w; ticks := S (ticks w) |}.

Lemma createMessage_run (insertMessage : InsertMessage.t) (w : World) :
  createMessage insertMessage w
  = (Ok (new_message insertMessage w),
     with_message (new_message insertMessage w) w).
Proof. reflexivity. Qed.

Definition new_conversation (insertConversation : InsertConversation.t)
  (w : World) : Conversation.t :=
  {| Conversation.id := uuids w (drawn w);
     Conversation.title := InsertConversation.title insertConversation;
     Conversation.createdAt := clock w (ticks w);
     Conversation.updatedAt := clock w (ticks w) |}.

Definition with_conversation (conversation : Conversation.t) (w : World)
  : World :=
  {| storage :=
       {| messages := messages (storage w);
          conversations :=
            JsMap.set (Conversation.id conversation) conversation
                      (conversations (storage w));
          documentChunks := documentChunks (storage w) |};
     uuids := uuids w; drawn := S (drawn w);
     clock := clock w; ticks := S (ticks w) |}.

Lemma createConversation_run
  (insertConversation : InsertConversation.t) (w : World) :
  createConversation insertConversation w
  = (Ok (new_conversation insertConversation w),
     with_conversation (new_conversation insertConversation w) w).
Proof. reflexivity. Qed.

End WriteFacts.
Import WriteFacts.

(** X7: [createMessage] stores the message under the next random id, with
    the next clock reading as timestamp and the given fields; when that id
    is not in use, the message then shows up in the listing of its own
    conversation, beside the messages listed before, and the listing of
    every other conversation is what it was. *)
Theorem createMessage_then_listed (insertMessage : InsertMessage.t) (w : World) :
  JsMap.get (uuids w (drawn w)) (messages (storage w)) = None ->
  exists message w',
    createMessage insertMessage w = (Ok message, w') /\
    message
    = {| Message.id := uuids w (drawn w);
         Message.conversationId := InsertMessage.conversationId insertMessage;
         Message.role := InsertMessage.role insertMessage;
         Message.content := InsertMessage.content insertMessage;
         Message.citations := InsertMessage.citations insertMessage;
         Message.timestamp := clock w (ticks w) |} /\
    forall conversationId,
      exists before after,
        getMessagesByConversation conversationId w = (Ok before, w) /\
        getMessagesByConversation conversationId w' = (Ok after, w') /\
        (conversationId = InsertMessage.conversationId insertMessage ->
         Permutation after (message :: before)) /\
        (conversationId <> InsertMessage.conversationId insertMessage ->
         after = before).
Proof.
  intros Hfresh.
  exists (new_message insertMessage w),
         (with_message (new_message insertMessage w) w).
  split; [apply createMessage_run|].
  split; [reflexivity|]. intros conversationId.
  eexists. eexists. split; [reflexivity|]. split; [reflexivity|].
  cbn [with_message new_message storage messages Message.id].
  rewrite (values_set_fresh _ _ _ Hfresh).
  rewrite filter_app. cbn [filter].
  change (Message.conversationId (new_message insertMessage w))
    with (InsertMessage.conversationId insertMessage).
  split.
  - intros ->. rewrite str_eqb_refl.
    rewrite sort_Permutation. rewrite <- Permutation_cons_append.
    constructor. symmetry. apply sort_Permutation.
  - intros Hne.
    replace (JsMap.str_eqb (InsertMessage.conversationId insertMessage)
                           conversationId) with false
      by (symmetry; apply str_eqb_neq; congruence).
    now rewrite app_nil_r.
Qed.

Lemma createMessage_then_listed_witness :
  exists message w' before after,
    createMessage
      {| InsertMessage.conversationId := lit "conv-1";
         InsertMessage.role := lit "user";
         InsertMessage.content := lit "Thanks";
         InsertMessage.citations := None |} Samples.chat = (Ok message, w') /\
    Message.content message = lit "Thanks" /\
    getMessagesByConversation (lit "conv-1") Samples.chat
    = (Ok before, Samples.chat) /\
    getMessagesByConversation (lit "conv-1") w' = (Ok after, w') /\
    Permutation after (message :: before).
Proof.
  destruct (createMessage_then_listed
              {| InsertMessage.conversationId := lit "conv-1";
                 InsertMessage.role := lit "user";
                 InsertMessage.content := lit "Thanks";
                 InsertMessage.citations := None |} Samples.chat eq_refl)
    as (message & w' & Hrun & Hmsg & Hlist).
  destruct (Hlist (lit "conv-1")) as (before & after & Hb & Ha & Hp & _).
  exists message, w', before, after.
  split; [exact Hrun|]. split; [now rewrite Hmsg|].
  split; [exact Hb|]. split; [exact Ha|]. now apply Hp.
Defined.

(** X8: [createConversation] stores a conversation under the next random
    id, with the given title and with one clock reading as both dates;
    [getConversation] of that id then returns it, and for every other id
    returns what it returned before. *)
Theorem createConversation_then_get
  (insertConversation : InsertConversation.t) (w : World) :
  exists conversation w',
    createConversation insertConversation w = (Ok conversation, w') /\
    conversation
    = {| Conversation.id := uuids w (drawn w);
         Conversation.title := InsertConversation.title insertConversation;
         Conversation.createdAt := clock w (ticks w);
         Conversation.updatedAt := clock w (ticks w) |} /\
    getConversation (Conversation.id conversation) w'
    = (Ok (Some conversation), w') /\
    forall id,
      id <> Conversation.id conversation ->
      fst (getConversation id w') = fst (getConversation id w).
Proof.
  exists (new_conversation insertConversation w),
         (with_conversation (new_conversation insertConversation w) w).
  split; [apply createConversation_run|]. split; [reflexivity|]. split.
  - unfold getConversation, read. cbn. now rewrite get_set_same.
  - intros id Hne. unfold getConversation, read. cbn.
    now rewrite get_set_other.
Qed.

(** X9: no call of the storage interface removes or reorders an entry:
    after every sequence of calls, the keys of each of the three maps are
    the keys it had, in the same order, followed by the keys added. *)
Theorem store_only_grows (ops : list operation) (w : World) :
  exists newMessages newConversations newChunks,
    JsMap.keys (messages (storage (run_all ops w)))
    = JsMap.keys (messages (storage w)) ++ newMessages /\
    JsMap.keys (conversations (storage (run_all ops w)))
    = JsMap.keys (conversations (storage w)) ++ newConversations /\
    JsMap.keys (documentChunks (storage (run_all ops w)))
    = JsMap.keys (documentChunks (storage w)) ++ newChunks.
Proof.
  assert (H : grown (storage w) (storage (run_all ops w))).
  { revert w. induction ops as [|op ops IH]; intros w; [apply grown_refl|].
    cbn. eapply grown_trans; [apply run_grown|apply IH]. }
  destruct H as ([a Ha] & [b Hb] & [c Hc]). now exists a, b, c.
Qed.

(** ** The index: statistics, failures, retrieval *)

Module SetFacts.

Lemma has_In (x : jsstring) (s : JsSet.t) : JsSet.has x s = true <-> In x s.
Proof.
  unfold JsSet.has. rewrite existsb_exists. split.
  - intros (y & Hy & E). apply str_eqb_eq in E. now subst.
  - intros H. exists x. split; [exact H|apply str_eqb_refl].
Qed.

Lemma add_spec (s : JsSet.t) (x : jsstring) :
  NoDup s ->
  NoDup (JsSet.add s x) /\
  (forall y, In y (JsSet.add s x) <-> In y s \/ y = x) /\
  (In x s -> JsSet.add s x = s) /\
  (~ In x s -> JsSet.add s x = s ++ [x]).
Proof.
  intros Hnd. unfold JsSet.add.
  destruct (JsSet.has x s) eqn:E.
  - apply has_In in E. repeat split; auto.
    + intros [H| ->]; auto.
    + intros H. contradiction.
  - assert (Hx : ~ In x s).
    { intros H. apply has_In in H. congruence. }
    repeat split; auto.
    + apply NoDup_app; [exact Hnd|repeat constructor; intros []|].
      intros y Hy [<-|[]]. contradiction.
    + intros H. apply in_app_or in H. destruct H as [H|[<-|[]]]; auto.
    + intros [H| ->]; apply in_or_app; [now left|right; now left].
    + intros H. contradiction.
Qed.

Lemma fold_add_spec : forall (l : list jsstring) (s : JsSet.t),
  NoDup s ->
  NoDup (fold_left JsSet.add l s) /\
  (forall y, In y (fold_left JsSet.add l s) <-> In y s \/ In y l) /\
  (length (fold_left JsSet.add l s) <= length s + length l)%nat.
Proof.
  induction l as [|x l IH]; intros s Hnd; cbn [fold_left].
  - repeat split; auto; [intros [H|[]]; exact H|cbn; lia].
  - destruct (add_spec s x Hnd) as (Hnd' & Hin & Hold & Hnew).
    destruct (IH (JsSet.add s x) Hnd') as (H1 & H2 & H3).
    split; [exact H1|]. split.
    + intros y. rewrite H2, Hin. cbn [In]. intuition.
    + assert (length (JsSet.add s x) <= S (length s))%nat.
      { unfold JsSet.add. destruct (JsSet.has x s); [lia|].
        rewrite length_app. cbn. lia. }
      cbn [length]. lia.
Qed.

Lemma of_list_spec (l : list jsstring) :
  NoDup (JsSet.of_list l) /\
  (forall y, In y (JsSet.of_list l) <-> In y l) /\
  (length (JsSet.of_list l) <= length l)%nat.
Proof.
  destruct (fold_add_spec l [] (NoDup_nil _)) as (H1 & H2 & H3).
  split; [exact H1|]. split; [|exact H3].
  intros y. unfold JsSet.of_list. rewrite H2. cbn [In]. tauto.
Qed.

Lemma of_list_app (l l' : list jsstring) :
  JsSet.of_list (l ++ l') = fold_left JsSet.add l' (JsSet.of_list l).
Proof. unfold JsSet.of_list. apply fold_left_app. Qed.

(** Adding one element again and again adds it once. *)
Lemma fold_add_same (x : jsstring) : forall (l : list jsstring) (s : JsSet.t),
  Forall (fun y => y = x) l -> In x s -> fold_left JsSet.add l s = s.
Proof.
  induction l as [|y l IH]; intros s Hall Hin; [reflexivity|].
  inversion Hall; subst. cbn [fold_left].
  assert (E : JsSet.add s x = s).
  { unfold JsSet.add. now rewrite (proj2 (has_In x s) Hin). }
  rewrite E. now apply IH.
Qed.

End SetFacts.
Import SetFacts.

(** X10: [getIndexStats] and [hasIndexedDocuments] read the store and leave
    the process as it was: [totalChunks] is the number of stored chunks,
    [uniqueDocuments] is the number of distinct document ids they bear, and
    [hasIndexedDocuments] answers [true] exactly when [totalChunks > 0]; so
    [uniqueDocuments] never exceeds [totalChunks], and one is 0 exactly when
    the other is. *)
Theorem getIndexStats_counts (w : World) :
  exists stats documents,
    getIndexStats w = (Ok stats, w) /\
    hasIndexedDocuments w = (Ok (0 <? totalChunks stats), w) /\
    totalChunks stats = len (JsMap.values (documentChunks (storage w))) /\
    NoDup documents /\
    (forall d, In d documents <->
               exists chunk,
                 In chunk (JsMap.values (documentChunks (storage w))) /\
                 DocumentChunk.documentId chunk = d) /\
    uniqueDocuments stats = len documents /\
    uniqueDocuments stats <= totalChunks stats /\
    (uniqueDocuments stats = 0 <-> totalChunks stats = 0).
Proof.
  set (chunks := JsMap.values (documentChunks (storage w))).
  exists {| totalChunks := len chunks;
            uniqueDocuments :=
              JsSet.size (JsSet.of_list (map DocumentChunk.documentId chunks)) |}.
  exists (JsSet.of_list (map DocumentChunk.documentId chunks)).
  destruct (of_list_spec (map DocumentChunk.documentId chunks))
    as (Hnd & Hin & Hlen).
  rewrite length_map in Hlen.
  split; [reflexivity|]. split; [reflexivity|]. split; [reflexivity|].
  split; [exact Hnd|]. split; [|split; [reflexivity|]].
  - intros d. rewrite Hin, in_map_iff. split.
    + intros (c & <- & Hc). now exists c.
    + intros (c & Hc & <-). now exists c.
  - cbn [totalChunks uniqueDocuments]. unfold JsSet.size, len.
    split; [lia|]. split.
    + intros H0.
      destruct chunks as [|c rest]; [reflexivity|]. exfalso.
      assert (Hc : In (DocumentChunk.documentId c)
                     (JsSet.of_list
                        (map DocumentChunk.documentId (c :: rest))))
        by (apply Hin; now left).
      destruct (JsSet.of_list (map DocumentChunk.documentId (c :: rest)));
        [destruct Hc|cbn [length] in H0; lia].
    + intros H0. lia.
Qed.

Module RetrievalFacts.

(** The callbacks of [indexDocument] never fail. *)
Lemma map_all_store_one_ok
  (documentId : jsstring) (processed : DocumentProcessor.ProcessedDocument)
  (embeddings : list (list float)) : forall l i w,
  exists r w',
    map_all_from i (store_one documentId processed embeddings) l w
    = (Ok r, w').
Proof.
  induction l as [|x l IH]; intros i w; cbn [map_all_from].
  - now exists [], w.
  - unfold bind at 1. rewrite store_one_run.
    unfold bind at 1.
    match goal with |- context [map_all_from (i + 1) _ l ?w1] =>
      destruct (IH (i + 1) w1) as (r & w' & E) end.
    rewrite E. unfold ret. do 2 eexists. reflexivity.
Qed.

Lemma candidates_length (q : list float) (k : Z) (s : MemStorage) :
  0 <= k ->
  len (map fst (chunksWithScores q k s))
  = Z.min k (len (filter has_embedding (JsMap.values (documentChunks s)))).
Proof.
  intros Hk. unfold chunksWithScores, slice_to, len.
  rewrite length_map.
  destruct (Z.ltb_spec k 0); [lia|].
  rewrite length_firstn, !sort_length, !length_map. lia.
Qed.

Lemma retrieved_stored (q : list float) (k : Z) (s : MemStorage)
  (c : DocumentChunk.t) :
  In c (map fst (chunksWithScores q k s)) ->
  In c (JsMap.values (documentChunks s)) /\ has_embedding c = true.
Proof.
  intros H. apply in_map_iff in H. destruct H as (p & <- & Hp).
  unfold chunksWithScores, slice_to in Hp. apply firstn_incl in Hp.
  apply sort_In, in_map_iff in Hp. destruct Hp as (c & <- & Hc).
  now apply filter_In in Hc.
Qed.

Lemma or_else_nonempty (x : option jsstring) (d : jsstring) :
  d <> [] -> DocumentProcessor.or_else x d <> [].
Proof.
  intros Hd. destruct x as [[|c r]|]; cbn; auto. discriminate.
Qed.

Lemma slice_to_len_le {A : Type} (k : Z) (l : list A) :
  0 <= k -> len (slice_to k l) <= k.
Proof.
  intros Hk. unfold slice_to, len.
  destruct (Z.ltb_spec k 0); [lia|].
  rewrite length_firstn. lia.
Qed.

Lemma citation_of_bounds (chunk : DocumentChunk.t) :
  Citation.source (citation_of chunk) <> [] /\
  len (Citation.excerpt (citation_of chunk)) <= 203.
Proof.
  split.
  - cbn. unfold fileName_or. apply or_else_nonempty. discriminate.
  - cbn [citation_of Citation.excerpt]. rewrite len_app.
    pose proof (slice_to_len_le 200 (DocumentChunk.content chunk)
                  ltac:(lia)).
    destruct (200 <? len (DocumentChunk.content chunk));
      [change (len (lit "...")) with 3|change (len (lit "")) with 0]; lia.
Qed.

End RetrievalFacts.
Import RetrievalFacts.

(** X11: [indexDocument] stores all or nothing: when it fails, the error is
    the one of [processDocument] or of [generateEmbeddings], passed on as it
    is, and the store is what it was. *)
Theorem indexDocument_failure_stores_nothing
  (gEs : list jsstring -> outcome (list (list float)))
  (pD : jsstring -> outcome DocumentProcessor.ProcessedDocument)
  (fileId e : jsstring) (w w' : World) :
  indexDocument gEs pD fileId w = (Throw e, w') ->
  storage w' = storage w /\
  (pD fileId = Throw e \/
   exists processed,
     pD fileId = Ok processed /\
     gEs (DocumentProcessor.chunks processed) = Throw e).
Proof.
  unfold indexDocument, bind at 1, await.
  destruct (pD fileId) as [processed|e0] eqn:Hp.
  - unfold bind at 1, randomUUID. unfold bind at 1.
    destruct (gEs (DocumentProcessor.chunks processed)) as [embeddings|e1]
      eqn:Hg.
    + unfold bind at 1.
      match goal with |- context [map_all_from 0 ?f ?l ?w1] =>
        change (map_all_from 0 f l w1)
          with (map_all_from 0
                  (store_one (uuids w (drawn w)) processed embeddings) l w1);
        destruct (map_all_store_one_ok (uuids w (drawn w)) processed
                    embeddings l 0 w1) as (r & w2 & E)
      end.
      rewrite E. cbn. discriminate.
    + intros [= <- <-]. split; [reflexivity|]. right. now exists processed.
  - intros [= <- <-]. split; [reflexivity|]. now left.
Qed.

Lemma indexDocument_failure_stores_nothing_witness :
  indexDocument Samples.embed_all Samples.process_image (lit "file-2")
                Samples.fresh
  = (Throw (lit "Failed to process document: Unsupported file type: image/png"),
     Samples.fresh) /\
  storage Samples.fresh = storage Samples.fresh /\
  (Samples.process_image (lit "file-2")
   = Throw (lit "Failed to process document: Unsupported file type: image/png")
   \/ exists processed,
        Samples.process_image (lit "file-2") = Ok processed /\
        Samples.embed_all (DocumentProcessor.chunks processed)
        = Throw (lit "Failed to process document: Unsupported file type: image/png")).
Proof.
  split; [reflexivity|].
  exact (indexDocument_failure_stores_nothing
           Samples.embed_all Samples.process_image (lit "file-2") _
           Samples.fresh Samples.fresh eq_refl).
Defined.

(** X12: [indexDocument] does not check that the provider returned one
    embedding for each chunk. When it completes, its random ids being
    fresh, a chunk of the new document that a later search returns has an
    index below the number of embeddings returned: the chunks beyond are
    stored without an embedding and no search finds them. *)
Theorem indexed_chunk_found_only_with_embedding
  (gEs : list jsstring -> outcome (list (list float)))
  (pD : jsstring -> outcome DocumentProcessor.ProcessedDocument)
  (fileId : jsstring) (processed : DocumentProcessor.ProcessedDocument)
  (embeddings : list (list float)) (w : World) :
  pD fileId = Ok processed ->
  gEs (DocumentProcessor.chunks processed) = Ok embeddings ->
  let documentId := uuids w (drawn w) in
  let chunkIds :=
    map (uuids w)
        (seq (S (drawn w)) (length (DocumentProcessor.chunks processed))) in
  Forall (fun c => DocumentChunk.documentId c <> documentId)
         (JsMap.values (documentChunks (storage w))) ->
  NoDup chunkIds ->
  Forall (fun id => JsMap.get id (documentChunks (storage w)) = None)
         chunkIds ->
  exists w',
    indexDocument gEs pD fileId w
    = (Ok (documentId, len (DocumentProcessor.chunks processed)), w') /\
    forall queryEmbedding limit found,
      searchChunksByEmbedding queryEmbedding limit w' = (Ok found, w') ->
      Forall (fun c => DocumentChunk.documentId c = documentId ->
                       0 <= DocumentChunk.chunkIndex c < len embeddings)
             found.
Proof.
  intros Hp Hg documentId chunkIds Hdoc Hnd Hfresh.
  exists (after_indexing documentId processed embeddings w).
  split; [now apply indexDocument_run|].
  intros q k found Hs. rewrite search_run in Hs. injection Hs as <-.
  apply Forall_forall. intros c Hc Hid.
  apply retrieved_stored in Hc. destruct Hc as [Hin Hemb].
  assert (Hc : In c (chunks_of documentId
                       (storage (after_indexing documentId processed
                                   embeddings w)))).
  { unfold chunks_of. apply filter_In. split; [exact Hin|].
    rewrite Hid. apply str_eqb_refl. }
  rewrite (chunks_of_after_indexing _ _ _ _ Hdoc) in Hc.
  pose proof (entries_embedding documentId processed embeddings
                (uuids w) (clock w) (DocumentProcessor.chunks processed)
                (S (drawn w)) (ticks w) 0 ltac:(lia)) as He.
  rewrite Forall_forall in He. destruct (He c Hc) as [H0 He'].
  split; [exact H0|].
  unfold has_embedding in Hemb. rewrite He' in Hemb.
  destruct (nth_error embeddings (Z.to_nat (DocumentChunk.chunkIndex c)))
    eqn:E; [|discriminate].
  assert (Hlt : (Z.to_nat (DocumentChunk.chunkIndex c) < length embeddings)%nat)
    by (apply nth_error_Some; congruence).
  unfold len. lia.
Qed.

Lemma indexed_chunk_found_only_with_embedding_witness :
  exists w',
    indexDocument Samples.embed_none Samples.process (lit "file-1")
                  Samples.fresh
    = (Ok (uuids Samples.fresh 0, 1), w') /\
    forall queryEmbedding limit found,
      searchChunksByEmbedding queryEmbedding limit w' = (Ok found, w') ->
      Forall (fun c => DocumentChunk.documentId c = uuids Samples.fresh 0 ->
                       0 <= DocumentChunk.chunkIndex c < 0)
             found.
Proof.
  apply (indexed_chunk_found_only_with_embedding
           Samples.embed_none Samples.process (lit "file-1") _ []
           Samples.fresh eq_refl eq_refl).
  - constructor.
  - repeat constructor. intros [].
  - repeat constructor.
Defined.

Module StatsFacts.

Lemma entries_document_set
  (documentId : jsstring) (processed : DocumentProcessor.ProcessedDocument)
  (embeddings : list (list float)) (us : nat -> jsstring) (ck : nat -> Date)
  (known : JsSet.t) (l : list jsstring) (d t : nat) (i : Z) :
  NoDup known -> ~ In documentId known ->
  fold_left JsSet.add
    (map DocumentChunk.documentId
       (JsMap.values (entries documentId processed embeddings us ck d t i l)))
    known
  = if is_empty l then known else known ++ [documentId].
Proof.
  intros Hnd Hnew. destruct l as [|x l]; [reflexivity|].
  cbn [entries JsMap.values map snd fold_left is_empty].
  change (DocumentChunk.documentId (stored_chunk _ _ _ _ _ _ _))
    with documentId.
  destruct (add_spec known documentId Hnd) as (_ & _ & _ & Hadd).
  rewrite (Hadd Hnew).
  apply (fold_add_same documentId).
  - pose proof (entries_documentId documentId processed embeddings us ck l
                  (S d) (S t) (i + 1)) as H.
    unfold JsMap.values in H. apply Forall_forall. intros y Hy.
    apply in_map_iff in Hy. destruct Hy as (c & <- & Hc).
    rewrite Forall_forall in H. now apply H.
  - apply in_or_app. right. now left.
Qed.

End StatsFacts.
Import StatsFacts.

(** X13: when [indexDocument] completes, its random ids being fresh,
    [getIndexStats] afterwards reports as many more chunks as were
    processed, and one more document, unless the document gave no chunk
    (a text of at most 50 characters, say): then nothing is stored and the
    document is not counted. *)
Theorem getIndexStats_after_indexDocument
  (gEs : list jsstring -> outcome (list (list float)))
  (pD : jsstring -> outcome DocumentProcessor.ProcessedDocument)
  (fileId : jsstring) (processed : DocumentProcessor.ProcessedDocument)
  (embeddings : list (list float)) (w : World) :
  pD fileId = Ok processed ->
  gEs (DocumentProcessor.chunks processed) = Ok embeddings ->
  let documentId := uuids w (drawn w) in
  let chunkIds :=
    map (uuids w)
        (seq (S (drawn w)) (length (DocumentProcessor.chunks processed))) in
  let chunksProcessed := len (DocumentProcessor.chunks processed) in
  Forall (fun c => DocumentChunk.documentId c <> documentId)
         (JsMap.values (documentChunks (storage w))) ->
  NoDup chunkIds ->
  Forall (fun id => JsMap.get id (documentChunks (storage w)) = None)
         chunkIds ->
  exists w' before after,
    getIndexStats w = (Ok before, w) /\
    indexDocument gEs pD fileId w = (Ok (documentId, chunksProcessed), w') /\
    getIndexStats w' = (Ok after, w') /\
    totalChunks after = totalChunks before + chunksProcessed /\
    uniqueDocuments after
    = uniqueDocuments before + (if chunksProcessed =? 0 then 0 else 1).
Proof.
  intros Hp Hg documentId chunkIds chunksProcessed Hdoc Hnd Hfresh.
  exists (after_indexing documentId processed embeddings w).
  eexists. eexists. split; [reflexivity|].
  split; [now apply indexDocument_run|]. split; [reflexivity|].
  cbn [totalChunks uniqueDocuments after_indexing storage documentChunks].
  unfold JsMap.values at 1 3. rewrite !map_app.
  fold (JsMap.values (documentChunks (storage w))).
  set (es := entries documentId processed embeddings (uuids w) (clock w)
               (S (drawn w)) (ticks w) 0
               (DocumentProcessor.chunks processed)).
  fold (JsMap.values es). split.
  - rewrite len_app. unfold JsMap.values at 2, len at 2.
    rewrite length_map. unfold es. rewrite entries_length. reflexivity.
  - rewrite of_list_app.
    destruct (of_list_spec
                (map DocumentChunk.documentId
                   (JsMap.values (documentChunks (storage w)))))
      as (Hset & Hin & _).
    unfold es. rewrite entries_document_set; [|exact Hset|].
    + unfold chunksProcessed.
      destruct (DocumentProcessor.chunks processed) as [|x l];
        cbn [is_empty]; [cbn; lia|].
      unfold JsSet.size. rewrite len_app.
      replace (len (x :: l) =? 0) with false; [reflexivity|].
      symmetry. apply Z.eqb_neq. unfold len. cbn [length]. lia.
    + intros H. apply Hin, in_map_iff in H. destruct H as (c & Hc & Hin').
      rewrite Forall_forall in Hdoc. now apply (Hdoc c Hin').
Qed.

(** The library holds five chunks of one document. Indexing the handbook
    (three chunks) makes it eight chunks of two documents; indexing the
    note (no chunk) leaves it at five chunks of one document. *)
Lemma getIndexStats_after_indexDocument_witness :
  (exists w' before after,
     getIndexStats Samples.library = (Ok before, Samples.library) /\
     before = {| totalChunks := 5; uniqueDocuments := 1 |} /\
     indexDocument Samples.embed_all Samples.process_handbook (lit "file-3")
                   Samples.library
     = (Ok (uuids Samples.library 0, 3), w') /\
     getIndexStats w' = (Ok after, w') /\
     totalChunks after = 8 /\ uniqueDocuments after = 2) /\
  (exists w' before after,
     getIndexStats Samples.library = (Ok before, Samples.library) /\
     indexDocument Samples.embed_all Samples.process_note (lit "file-4")
                   Samples.library
     = (Ok (uuids Samples.library 0, 0), w') /\
     getIndexStats w' = (Ok after, w') /\
     totalChunks after = 5 /\ uniqueDocuments after = 1).
Proof.
  assert (Hlib : getIndexStats Samples.library
                 = (Ok {| totalChunks := 5; uniqueDocuments := 1 |},
                    Samples.library))
    by reflexivity.
  split.
  - destruct (getIndexStats_after_indexDocument
                Samples.embed_all Samples.process_handbook (lit "file-3")
                handbook_document _ Samples.library
                process_handbook_run eq_refl)
      as (w' & before & after & Hb & Hrun & Ha & Ht & Hu).
    + apply other_documents. vm_compute. reflexivity.
    + apply distinct_NoDup. vm_compute. reflexivity.
    + apply unused_ids. vm_compute. reflexivity.
    + assert (E : before = {| totalChunks := 5; uniqueDocuments := 1 |})
        by congruence.
      exists w', before, after. split; [exact Hb|]. split; [exact E|].
      split; [exact Hrun|]. split; [exact Ha|].
      rewrite Ht, Hu, E. split; reflexivity.
  - destruct (getIndexStats_after_indexDocument
                Samples.embed_all Samples.process_note (lit "file-4")
                note_document _ Samples.library
                process_note_run eq_refl)
      as (w' & before & after & Hb & Hrun & Ha & Ht & Hu).
    + apply other_documents. vm_compute. reflexivity.
    + apply distinct_NoDup. vm_compute. reflexivity.
    + apply unused_ids. vm_compute. reflexivity.
    + assert (E : before = {| totalChunks := 5; uniqueDocuments := 1 |})
        by congruence.
      exists w', before, after. split; [exact Hb|].
      split; [exact Hrun|]. split; [exact Ha|].
      rewrite Ht, Hu, E. split; reflexivity.
Defined.

(** X14: the query functions only read: whatever the providers answer, and
    also when they fail, [queryRAG], [queryRAGStream], [hasIndexedDocuments]
    and [getIndexStats] leave the store, the ids and the clock as they
    were. *)
Theorem queries_leave_process_unchanged
  (gE : jsstring -> outcome (list float))
  (gC : jsstring -> jsstring -> outcome jsstring)
  (gS : jsstring -> jsstring -> TokenStream)
  (question : jsstring) (w : World) :
  snd (queryRAG gE gC question w) = w /\
  snd (queryRAGStream gE gS question w) = w /\
  snd (hasIndexedDocuments w) = w /\
  snd (getIndexStats w) = w.
Proof.
  rewrite queryRAG_run, queryRAGStream_run.
  repeat split.
  - destruct (gE question) as [q|e]; [|reflexivity].
    destruct (len (retrieved q w) =? 0); [reflexivity|].
    destruct (gC question _); reflexivity.
  - destruct (gE question) as [q|e]; [|reflexivity]. cbv zeta.
    destruct (len (retrieved q w) =? 0); reflexivity.
Qed.

(** X15: the search has no similarity threshold: for a limit [k >= 0] it
    returns exactly [min(k, n)] chunks, where [n] is the number of stored
    chunks with a non-empty embedding, however dissimilar to the query they
    are. *)
Theorem searchChunksByEmbedding_count
  (queryEmbedding : list float) (k : Z) (w : World) :
  0 <= k ->
  exists found,
    searchChunksByEmbedding queryEmbedding k w = (Ok found, w) /\
    len found
    = Z.min k (len (filter has_embedding
                           (JsMap.values (documentChunks (storage w))))).
Proof.
  intros Hk. eexists. split; [apply search_run|].
  now apply candidates_length.
Qed.

Lemma searchChunksByEmbedding_count_witness :
  exists found,
    searchChunksByEmbedding [0; -1]%float 2 Samples.library
    = (Ok found, Samples.library) /\
    len found = 2.
Proof.
  destruct (searchChunksByEmbedding_count [0; -1]%float 2 Samples.library)
    as (found & Hrun & Hlen); [lia|].
  exists found. split; [exact Hrun|]. rewrite Hlen. reflexivity.
Defined.

(** X16: a successful [queryRAG] leaves the process as it was and returns
    one citation for each of the [min(5, n)] chunks retrieved, [n] being
    the number of stored chunks with a non-empty embedding; no citation has
    an empty source or an excerpt of more than 203 characters; and an answer
    without citations is the fallback message. *)
Theorem queryRAG_citations_bounded
  (gE : jsstring -> outcome (list float))
  (gC : jsstring -> jsstring -> outcome jsstring)
  (question : jsstring) (w : World) (r : RAGResponse) (w' : World) :
  queryRAG gE gC question w = (Ok r, w') ->
  w' = w /\
  len (citations r)
  = Z.min 5 (len (filter has_embedding
                         (JsMap.values (documentChunks (storage w))))) /\
  Forall (fun c => Citation.source c <> [] /\ len (Citation.excerpt c) <= 203)
         (citations r) /\
  (citations r = [] -> answer r = fallbackMessage).
Proof.
  rewrite queryRAG_run.
  destruct (gE question) as [q|e]; [|discriminate].
  pose proof (candidates_length q 5 (storage w) ltac:(lia)) as Hlen.
  fold (retrieved q w) in Hlen.
  destruct (len (retrieved q w) =? 0) eqn:E.
  - intros [= <- <-]. cbn [citations answer].
    apply Z.eqb_eq in E. rewrite <- Hlen, E.
    repeat split; auto.
  - destruct (gC question _) as [a|e]; [|discriminate].
    intros [= <- <-]. cbn [citations answer].
    split; [reflexivity|]. split; [|split].
    + unfold len at 1. rewrite length_map. exact Hlen.
    + apply Forall_forall. intros c Hc. apply in_map_iff in Hc.
      destruct Hc as (chunk & <- & _). apply citation_of_bounds.
    + intros Hnil. apply map_eq_nil in Hnil.
      rewrite Hnil in E. discriminate.
Qed.

Lemma queryRAG_citations_bounded_witness :
  let r := {| answer := lit "Drink water and rest.";
              citations := map citation_of [Samples.c_long; Samples.c_north] |} in
  queryRAG Samples.embed_east Samples.complete (lit "What helps?")
           Samples.archive
  = (Ok r, Samples.archive) /\
  len (citations r) = 2 /\
  Forall (fun c => Citation.source c <> [] /\ len (Citation.excerpt c) <= 203)
         (citations r).
Proof.
  intros r. split; [reflexivity|].
  destruct (queryRAG_citations_bounded
              Samples.embed_east Samples.complete (lit "What helps?")
              Samples.archive r Samples.archive eq_refl)
    as (_ & Hlen & Hall & _).
  split; [rewrite Hlen; reflexivity|exact Hall].
Defined.

(** ** The document processor *)

Module DocumentFacts.
Import DocumentProcessor.

(** Every white-space character of [s] is a space and no two are adjacent;
    [after_space] tells that a space stands just before [s]. *)
Fixpoint spaced (after_space : bool) (s : jsstring) : bool :=
  match s with
  | [] => true
  | c :: r =>
      if is_space c
      then (c =? 32)%N && negb after_space && spaced true r
      else spaced false r
  end.

Lemma normalize_spaced : forall s b, spaced b (normalize_ws b s) = true.
Proof.
  induction s as [|c r IH]; intros b; cbn [normalize_ws]; [reflexivity|].
  destruct (is_space c) eqn:E.
  - destruct b; [apply IH|].
    cbn [spaced]. change (is_space 32%N) with true.
    rewrite N.eqb_refl. cbn [negb andb]. apply IH.
  - cbn [spaced]. rewrite E. apply IH.
Qed.

Lemma spaced_chars : forall s b,
  spaced b s = true -> Forall (fun c => is_space c = true -> c = 32%N) s.
Proof.
  induction s as [|c r IH]; intros b H; constructor; cbn [spaced] in H.
  - intros E. rewrite E in H.
    apply andb_true_iff in H. destruct H as [H _].
    apply andb_true_iff in H. destruct H as [H _]. now apply N.eqb_eq.
  - destruct (is_space c).
    + apply andb_true_iff in H. destruct H as [_ H]. now apply (IH true).
    + now apply (IH false).
Qed.

Lemma spaced_fixed : forall s b, spaced b s = true -> normalize_ws b s = s.
Proof.
  induction s as [|c r IH]; intros b H; [reflexivity|].
  cbn [spaced] in H. cbn [normalize_ws].
  destruct (is_space c).
  - apply andb_true_iff in H. destruct H as [H Hr].
    apply andb_true_iff in H. destruct H as [Hc Hb].
    apply N.eqb_eq in Hc. destruct b; [discriminate|].
    now rewrite (IH true Hr), Hc.
  - now rewrite (IH false H).
Qed.

Lemma spaced_prefix : forall p q b, spaced b (p ++ q) = true -> spaced b p = true.
Proof.
  induction p as [|c p IH]; intros q b H; [reflexivity|].
  cbn [app spaced] in *. destruct (is_space c).
  - apply andb_true_iff in H. destruct H as [H Hr].
    rewrite H. now apply (IH q true).
  - now apply (IH q false).
Qed.

Lemma spaced_drop : forall s b,
  spaced b s = true -> spaced false (drop_while is_space s) = true.
Proof.
  induction s as [|c r IH]; intros b H; [reflexivity|].
  cbn [drop_while]. destruct (is_space c) eqn:E.
  - cbn [spaced] in H. rewrite E in H.
    apply andb_true_iff in H. destruct H as [_ H]. now apply (IH true).
  - cbn [spaced] in *. now rewrite E in *.
Qed.

Lemma spaced_trim (s : jsstring) :
  spaced false s = true -> spaced false (trim s) = true.
Proof.
  intros H. unfold trim.
  set (d := drop_while is_space s).
  assert (Hd : spaced false d = true) by now apply (spaced_drop s false).
  destruct (drop_while_suffix is_space (rev d)) as [p Hp].
  assert (E : d = rev (drop_while is_space (rev d)) ++ rev p).
  { rewrite <- (rev_involutive d) at 1. rewrite Hp at 1.
    now rewrite rev_app_distr. }
  rewrite E in Hd. now apply spaced_prefix in Hd.
Qed.

Lemma limit_newlines_id : forall s n,
  Forall (fun c => is_space c = true -> c = 32%N) s ->
  limit_newlines n s = s.
Proof.
  induction s as [|c r IH]; intros n H; [reflexivity|].
  inversion H as [|? ? Hc Hr]; subst. cbn [limit_newlines].
  destruct (N.eqb_spec c 10) as [->|Hne].
  - specialize (Hc eq_refl). discriminate.
  - now rewrite (IH 0%nat Hr).
Qed.

(** The content of a processed document, from the extracted text. *)
Definition cleaned (raw : jsstring) : jsstring :=
  trim (limit_newlines 0 (normalize_ws false raw)).

Lemma cleaned_spaced (raw : jsstring) : spaced false (cleaned raw) = true.
Proof.
  unfold cleaned.
  rewrite limit_newlines_id
    by (apply (spaced_chars _ false), normalize_spaced).
  apply spaced_trim, normalize_spaced.
Qed.

(** How [processDocument] ends, case by case. *)
Lemma processDocument_cases
  (getFileMetadata : jsstring -> outcome FileMetadata)
  (downloadDriveFile : jsstring -> outcome Buffer)
  (pdfParse mammoth : Buffer -> outcome jsstring)
  (utf8 : Buffer -> jsstring) (fileId : jsstring) :
  match processDocument getFileMetadata downloadDriveFile pdfParse mammoth
                        utf8 fileId
  with
  | Throw e => exists cause, e = lit "Failed to process document: " ++ cause
  | Ok d =>
      exists raw,
        d = {| fileId := fileId;
               fileName := fileName d;
               docMimeType := docMimeType d;
               content := cleaned raw;
               chunks := chunkText (cleaned raw) 1000 200 |} /\
        In (docMimeType d)
           [lit "application/pdf";
            lit "application/vnd.openxmlformats-officedocument.wordprocessingml.document";
            lit "text/plain"]
  end.
Proof.
  unfold processDocument.
  destruct (getFileMetadata fileId) as [metadata|e]; cbn [and_then rethrow];
    [|eauto].
  destruct (downloadDriveFile fileId) as [buffer|e]; cbn [and_then rethrow];
    [|eauto].
  set (mime := or_else (mimeType metadata) (lit "unknown")).
  destruct (JsMap.str_eqb mime (lit "application/pdf")) eqn:E1.
  { apply str_eqb_eq in E1. unfold extractPdfText.
    destruct (pdfParse buffer) as [raw|e]; cbn [and_then rethrow]; [|eauto].
    exists raw. split; [reflexivity|]. cbn [docMimeType]. now left. }
  destruct (JsMap.str_eqb mime (lit "application/vnd.openxmlformats-officedocument.wordprocessingml.document")) eqn:E2.
  { apply str_eqb_eq in E2. unfold extractDocxText.
    destruct (mammoth buffer) as [raw|e]; cbn [and_then rethrow]; [|eauto].
    exists raw. split; [reflexivity|]. cbn [docMimeType]. right. now left. }
  destruct (JsMap.str_eqb mime (lit "text/plain")) eqn:E3.
  { apply str_eqb_eq in E3. cbn [and_then rethrow].
    exists (extractPlainText utf8 buffer). split; [reflexivity|].
    cbn [docMimeType]. right. right. now left. }
  cbn [and_then rethrow]. eauto.
Qed.

End DocumentFacts.
Import DocumentFacts.

(** X17: every failure of [processDocument] carries the prefix
    ["Failed to process document: "]; and when the metadata and the content
    of the file are obtained but the MIME type (["unknown"] when the
    metadata has none) is none of the three supported ones, the failure is
    ["Failed to process document: Unsupported file type: "] followed by the
    type. *)
Theorem processDocument_failures
  (getFileMetadata : jsstring -> outcome DocumentProcessor.FileMetadata)
  (downloadDriveFile : jsstring -> outcome DocumentProcessor.Buffer)
  (pdfParse mammoth : DocumentProcessor.Buffer -> outcome jsstring)
  (utf8 : DocumentProcessor.Buffer -> jsstring) (fileId : jsstring) :
  let run :=
    DocumentProcessor.processDocument getFileMetadata downloadDriveFile
      pdfParse mammoth utf8 fileId in
  (forall e, run = Throw e ->
             exists cause, e = lit "Failed to process document: " ++ cause) /\
  (forall metadata buffer,
     getFileMetadata fileId = Ok metadata ->
     downloadDriveFile fileId = Ok buffer ->
     let mimeType :=
       DocumentProcessor.or_else (DocumentProcessor.mimeType metadata)
                                 (lit "unknown") in
     ~ In mimeType
          [lit "application/pdf";
           lit "application/vnd.openxmlformats-officedocument.wordprocessingml.document";
           lit "text/plain"] ->
     run = Throw (lit "Failed to process document: "
                  ++ lit "Unsupported file type: " ++ mimeType)).
Proof.
  intros run. split.
  - intros e He.
    pose proof (processDocument_cases getFileMetadata downloadDriveFile
                  pdfParse mammoth utf8 fileId) as H.
    fold run in H. now rewrite He in H.
  - intros metadata buffer Hm Hb mimeType Hno.
    unfold run, DocumentProcessor.processDocument. rewrite Hm.
    cbn [DocumentProcessor.and_then]. rewrite Hb.
    cbn [DocumentProcessor.and_then]. fold mimeType.
    cbn [In] in Hno.
    destruct (JsMap.str_eqb mimeType (lit "application/pdf")) eqn:E1;
      [apply str_eqb_eq in E1; exfalso; apply Hno; auto|].
    destruct (JsMap.str_eqb mimeType (lit "application/vnd.openxmlformats-officedocument.wordprocessingml.document")) eqn:E2;
      [apply str_eqb_eq in E2; exfalso; apply Hno; auto|].
    destruct (JsMap.str_eqb mimeType (lit "text/plain")) eqn:E3;
      [apply str_eqb_eq in E3; exfalso; apply Hno; auto|].
    reflexivity.
Qed.

Lemma processDocument_failures_witness :
  Samples.process_image (lit "file-2")
  = Throw (lit "Failed to process document: Unsupported file type: image/png").
Proof.
  apply (proj2 (processDocument_failures
                  Samples.drive_image_metadata Samples.drive_download
                  Samples.no_parser Samples.no_parser Samples.ascii
                  (lit "file-2"))
               {| DocumentProcessor.name := Some (lit "scan.png");
                  DocumentProcessor.mimeType := Some (lit "image/png") |}
               Samples.leaflet eq_refl eq_refl).
  cbn [In]. intros [H|[H|[H|[]]]]; discriminate H.
Defined.

(** X18: a document that [processDocument] returns has the requested file
    id and one of the three supported MIME types; in its content every
    white-space character is a space (so no line break or tab is left),
    no two spaces are adjacent (normalising again changes nothing) and
    neither end is a space; and its chunks are those of [chunkText] on that
    content with the default chunk size 1000 and overlap 200. *)
Theorem processDocument_content_clean
  (getFileMetadata : jsstring -> outcome DocumentProcessor.FileMetadata)
  (downloadDriveFile : jsstring -> outcome DocumentProcessor.Buffer)
  (pdfParse mammoth : DocumentProcessor.Buffer -> outcome jsstring)
  (utf8 : DocumentProcessor.Buffer -> jsstring) (fileId : jsstring)
  (document : DocumentProcessor.ProcessedDocument) :
  DocumentProcessor.processDocument getFileMetadata downloadDriveFile
    pdfParse mammoth utf8 fileId = Ok document ->
  let content := DocumentProcessor.content document in
  DocumentProcessor.fileId document = fileId /\
  In (DocumentProcessor.docMimeType document)
     [lit "application/pdf";
      lit "application/vnd.openxmlformats-officedocument.wordprocessingml.document";
      lit "text/plain"] /\
  Forall (fun c => is_space c = true -> c = 32%N) content /\
  DocumentProcessor.normalize_ws false content = content /\
  trim content = content /\
  DocumentProcessor.chunks document = chunkText content 1000 200.
Proof.
  intros Hrun content.
  pose proof (processDocument_cases getFileMetadata downloadDriveFile
                pdfParse mammoth utf8 fileId) as H.
  rewrite Hrun in H. destruct H as (raw & Hd & Hmime).
  assert (Hc : content = cleaned raw) by (unfold content; now rewrite Hd).
  split; [now rewrite Hd|]. split; [exact Hmime|].
  pose proof (cleaned_spaced raw) as Hs. rewrite <- Hc in Hs.
  split; [now apply (spaced_chars _ false)|].
  split; [now apply spaced_fixed|].
  split.
  - rewrite Hc. unfold cleaned. apply trim_id, trim_clean.
  - rewrite Hd at 1. cbn [DocumentProcessor.chunks]. now rewrite Hc.
Qed.

Lemma processDocument_content_clean_witness :
  exists document,
    Samples.process (lit "file-1") = Ok document /\
    DocumentProcessor.content document
    = lit "Aspirin reduces fever. It also thins the blood! Ask a doctor? Always." /\
    DocumentProcessor.normalize_ws false (DocumentProcessor.content document)
    = DocumentProcessor.content document /\
    DocumentProcessor.chunks document
    = chunkText (DocumentProcessor.content document) 1000 200.
Proof.
  eexists. split; [reflexivity|]. split; [reflexivity|].
  match goal with |- context [DocumentProcessor.chunks ?d] =>
    destruct (processDocument_content_clean
                Samples.drive_metadata Samples.drive_download
                Samples.no_parser Samples.no_parser Samples.ascii
                (lit "file-1") d eq_refl)
      as (_ & _ & _ & Hn & _ & Hc)
  end.
  split; [exact Hn|exact Hc].
Defined.

(** X19: the second replacement of the clean-up is dead code: once every
    run of white space (line feeds included) has been replaced by one
    space, [replace(/\n{3,}/g, '\n\n')] changes nothing, whatever the
    text. *)
Theorem limit_newlines_after_normalize (raw : jsstring) :
  DocumentProcessor.limit_newlines 0
    (DocumentProcessor.normalize_ws false raw)
  = DocumentProcessor.normalize_ws false raw /\
  ~ In 10%N (DocumentProcessor.normalize_ws false raw).
Proof.
  pose proof (spaced_chars _ false (normalize_spaced raw false)) as H.
  split; [now apply limit_newlines_id|].
  intros Hin. rewrite Forall_forall in H.
  specialize (H 10%N Hin eq_refl). discriminate.
Qed.

(** ** The provider calls *)

Module ProviderFacts.
Import DocumentProcessor.

Lemma rethrow_prefix {A : Type} (prefix : jsstring) (o : outcome A)
  (e : jsstring) :
  rethrow prefix o = Throw e -> exists cause, e = prefix ++ cause.
Proof. destruct o as [a|e0]; cbn; [discriminate|]. intros [= <-]. eauto. Qed.

Lemma rethrow_ok {A : Type} (prefix : jsstring) (o : outcome A) (a : A) :
  rethrow prefix o = Ok a -> o = Ok a.
Proof. destruct o; cbn; congruence. Qed.

Lemma yielded_nonempty : forall received,
  Forall (fun token => token <> []) (OpenAI.yielded received).
Proof.
  induction received as [|chunk rest IH]; cbn [OpenAI.yielded]; [constructor|].
  destruct (OpenAI.content_of chunk) as [[|c r]|]; auto.
  constructor; [discriminate|exact IH].
Qed.

(** The text of a chunk of the provider's stream, empty when it has none. *)
Definition text_of (chunk : OpenAI.ChatCompletionChunk) : jsstring :=
  match OpenAI.content_of chunk with Some text => text | None => [] end.

Lemma yielded_concat : forall received,
  concat (OpenAI.yielded received) = concat (map text_of received).
Proof.
  induction received as [|chunk rest IH]; cbn [OpenAI.yielded map concat];
    [reflexivity|].
  unfold text_of at 1.
  destruct (OpenAI.content_of chunk) as [[|c r]|]; cbn [concat app];
    now rewrite IH.
Qed.

Lemma generateChatCompletionStream_tokens_facts
  (create : OpenAI.ChatParams -> outcome OpenAI.Stream)
  (userMessage context : jsstring) :
  let run := OpenAI.generateChatCompletionStream create userMessage context in
  Forall (fun token => token <> []) (tokens run) /\
  (forall e, failure run = Some e ->
             exists cause, e = lit "Failed to generate response: " ++ cause).
Proof.
  intros run. unfold run, OpenAI.generateChatCompletionStream.
  destruct (create _) as [stream|e0]; cbn [tokens failure].
  - split; [apply yielded_nonempty|].
    intros e He. destruct (OpenAI.broken stream) as [j|]; [|discriminate].
    exists j. injection He as He. now rewrite <- He.
  - split; [constructor|]. intros e He. exists e0.
    injection He as He. now rewrite <- He.
Qed.

Lemma apology_nonempty : OpenAI.apology <> [].
Proof. discriminate. Qed.

Lemma completion_nonempty
  (create : OpenAI.ChatParams -> outcome OpenAI.ChatCompletion)
  (undefined_read : jsstring -> jsstring)
  (userMessage context a : jsstring) :
  OpenAI.generateChatCompletion create undefined_read userMessage context
  = Ok a ->
  a <> [].
Proof.
  unfold OpenAI.generateChatCompletion. intros H. apply rethrow_ok in H.
  destruct (create _) as [response|e]; cbn [and_then] in H; [|discriminate].
  destruct (OpenAI.choices response) as [|choice rest]; [discriminate|].
  injection H as <-.
  destruct (OpenAI.content (OpenAI.message choice)) as [[|c r]|]; cbn;
    discriminate.
Qed.

End ProviderFacts.
Import ProviderFacts.

(** X20: [generateChatCompletion] never returns an empty string: it returns
    the provider's text, or the fixed apology when the first choice has no
    text ([null] or [""]); and every failure, the provider's or the one of
    an answer without choices, carries the prefix
    ["Failed to generate response: "]. *)
Theorem generateChatCompletion_never_empty
  (create : OpenAI.ChatParams -> outcome OpenAI.ChatCompletion)
  (undefined_read : jsstring -> jsstring)
  (userMessage context : jsstring) :
  let run :=
    OpenAI.generateChatCompletion create undefined_read userMessage context in
  (forall a, run = Ok a -> a <> []) /\
  (forall e, run = Throw e ->
             exists cause, e = lit "Failed to generate response: " ++ cause) /\
  (forall response choice rest,
     create (OpenAI.chat_params userMessage context false) = Ok response ->
     OpenAI.choices response = choice :: rest ->
     run = Ok (match OpenAI.content (OpenAI.message choice) with
               | Some (c :: r) => c :: r
               | _ => OpenAI.apology
               end)) /\
  (forall response,
     create (OpenAI.chat_params userMessage context false) = Ok response ->
     OpenAI.choices response = [] ->
     run = Throw (lit "Failed to generate response: "
                  ++ undefined_read (lit "message"))).
Proof.
  intros run. split; [|split; [|split]].
  - intros a. apply completion_nonempty.
  - intros e. apply rethrow_prefix.
  - intros response choice rest Hc Hch.
    unfold run, OpenAI.generateChatCompletion. rewrite Hc.
    cbn [DocumentProcessor.and_then]. rewrite Hch. reflexivity.
  - intros response Hc Hch.
    unfold run, OpenAI.generateChatCompletion. rewrite Hc.
    cbn [DocumentProcessor.and_then]. now rewrite Hch.
Qed.

Lemma generateChatCompletion_never_empty_witness :
  OpenAI.generateChatCompletion Samples.sdk_silent Samples.v8_undefined_read
    (lit "What helps?") (lit "Rest.")
  = Ok (lit "I apologize, but I couldn't generate a response. Please try again.").
Proof.
  apply (proj1 (proj2 (proj2 (generateChatCompletion_never_empty
                                Samples.sdk_silent Samples.v8_undefined_read
                                (lit "What helps?") (lit "Rest."))))
               _ _ [] eq_refl eq_refl).
Defined.

(** X21: the tokens of [generateChatCompletionStream] are never empty, and
    put together they are the texts of the provider's chunks put together
    (a chunk without choice, delta or text gives nothing); a failure of the
    call or of the stream ends the tokens with an error that carries the
    prefix ["Failed to generate response: "], after the tokens delivered
    before it. *)
Theorem generateChatCompletionStream_tokens
  (create : OpenAI.ChatParams -> outcome OpenAI.Stream)
  (userMessage context : jsstring) :
  let run := OpenAI.generateChatCompletionStream create userMessage context in
  Forall (fun token => token <> []) (tokens run) /\
  (forall e, failure run = Some e ->
             exists cause, e = lit "Failed to generate response: " ++ cause) /\
  (forall stream,
     create (OpenAI.chat_params userMessage context true) = Ok stream ->
     concat (tokens run) = concat (map text_of (OpenAI.delivered stream)) /\
     failure run
     = option_map (app (lit "Failed to generate response: "))
                  (OpenAI.broken stream)) /\
  (forall e,
     create (OpenAI.chat_params userMessage context true) = Throw e ->
     tokens run = [] /\
     failure run = Some (lit "Failed to generate response: " ++ e)).
Proof.
  intros run. unfold run, OpenAI.generateChatCompletionStream.
  destruct (create _) as [stream|e0]; cbn [tokens failure].
  - split; [apply yielded_nonempty|]. split; [|split].
    + intros e He. destruct (OpenAI.broken stream) as [j|]; [|discriminate].
      exists j. injection He as He. now rewrite <- He.
    + intros s [= <-]. split; [apply yielded_concat|reflexivity].
    + discriminate.
  - split; [constructor|]. split; [|split].
    + intros e He. exists e0. injection He as He. now rewrite <- He.
    + discriminate.
    + intros e [= <-]. now split.
Qed.

Lemma generateChatCompletionStream_tokens_witness :
  let run :=
    OpenAI.generateChatCompletionStream Samples.sdk_stream
      (lit "What helps?") (lit "Rest.") in
  tokens run = [lit "Drink"; lit " water"] /\
  concat (tokens run) = lit "Drink water" /\
  failure run = Some (lit "Failed to generate response: socket hang up").
Proof.
  intros run. split; [reflexivity|].
  destruct (proj1 (proj2 (proj2 (generateChatCompletionStream_tokens
                                   Samples.sdk_stream
                                   (lit "What helps?") (lit "Rest."))))
                  _ eq_refl) as [Hc Hf].
  split; [etransitivity; [exact Hc|reflexivity]|exact Hf].
Defined.

(** X22: [generateEmbedding] returns the first vector of the provider's
    answer and fails on an answer without vectors; [generateEmbeddings]
    returns all the vectors of the answer in order, however many texts were
    sent; a failure of either carries its own prefix. *)
Theorem generateEmbedding_results
  (create : OpenAI.EmbeddingParams -> outcome OpenAI.CreateEmbeddingResponse)
  (undefined_read : jsstring -> jsstring)
  (text : jsstring) (texts : list jsstring) :
  let one := OpenAI.generateEmbedding create undefined_read text in
  let many := OpenAI.generateEmbeddings create texts in
  let asked input :=
    create {| OpenAI.embedding_model := lit "text-embedding-3-small";
              OpenAI.input := input |} in
  (forall e, one = Throw e ->
             exists cause, e = lit "Failed to generate embedding: " ++ cause) /\
  (forall e, many = Throw e ->
             exists cause, e = lit "Failed to generate embeddings: " ++ cause) /\
  (forall response,
     asked (OpenAI.One text) = Ok response ->
     one = match OpenAI.data response with
           | item :: _ => Ok (OpenAI.embedding item)
           | [] => Throw (lit "Failed to generate embedding: "
                          ++ undefined_read (lit "embedding"))
           end) /\
  (forall response,
     asked (OpenAI.Many texts) = Ok response ->
     many = Ok (map OpenAI.embedding (OpenAI.data response))).
Proof.
  intros one many asked. split; [|split; [|split]].
  - intros e. apply rethrow_prefix.
  - intros e. apply rethrow_prefix.
  - intros response H. unfold one, OpenAI.generateEmbedding.
    unfold asked in H. rewrite H. cbn [DocumentProcessor.and_then].
    destruct (OpenAI.data response); reflexivity.
  - intros response H. unfold many, OpenAI.generateEmbeddings.
    unfold asked in H. rewrite H. reflexivity.
Qed.

(** X23: with the completion of lib/openai.ts behind it, [queryRAG] never
    returns an empty answer, whatever the store holds and whatever the
    provider sends. *)
Theorem queryRAG_answer_never_empty
  (gE : jsstring -> outcome (list float))
  (create : OpenAI.ChatParams -> outcome OpenAI.ChatCompletion)
  (undefined_read : jsstring -> jsstring)
  (question : jsstring) (w : World) (r : RAGResponse) (w' : World) :
  queryRAG gE (OpenAI.generateChatCompletion create undefined_read)
           question w = (Ok r, w') ->
  answer r <> [].
Proof.
  rewrite queryRAG_run.
  destruct (gE question) as [q|e]; [|discriminate].
  destruct (len (retrieved q w) =? 0).
  - intros [= <- <-]. discriminate.
  - destruct (OpenAI.generateChatCompletion create undefined_read question _)
      as [a|e] eqn:E; [|discriminate].
    intros [= <- <-]. cbn [answer].
    now apply completion_nonempty in E.
Qed.

Lemma queryRAG_answer_never_empty_witness :
  let r := {| answer := OpenAI.apology;
              citations := map citation_of [Samples.c_long; Samples.c_north] |} in
  queryRAG Samples.embed_east
    (OpenAI.generateChatCompletion Samples.sdk_silent
                                   Samples.v8_undefined_read)
    (lit "What helps?") Samples.archive
  = (Ok r, Samples.archive) /\
  answer r <> [].
Proof.
  intros r. split; [reflexivity|].
  apply (queryRAG_answer_never_empty
           Samples.embed_east Samples.sdk_silent Samples.v8_undefined_read
           (lit "What helps?") Samples.archive r Samples.archive eq_refl).
Defined.

(** X24: with the streaming completion of lib/openai.ts behind it,
    [queryRAGStream] never yields an empty token, on the fallback path or
    elsewhere; and when it fails after the question was embedded, the error
    carries the prefix ["Failed to generate response: "]. *)
Theorem queryRAGStream_tokens_never_empty
  (gE : jsstring -> outcome (list float))
  (create : OpenAI.ChatParams -> outcome OpenAI.Stream)
  (question : jsstring) (w : World)
  (events : list event) (ending : outcome unit) (w' : World) :
  queryRAGStream gE (OpenAI.generateChatCompletionStream create) question w
  = ((events, ending), w') ->
  Forall (fun chunk => match chunk with
                       | TokenEvent data => data <> []
                       | CitationsEvent _ => True
                       end) events /\
  (forall q e, gE question = Ok q -> ending = Throw e ->
               exists cause, e = lit "Failed to generate response: " ++ cause).
Proof.
  intros Hrun.
  assert (H : match queryRAGStream gE
                      (OpenAI.generateChatCompletionStream create) question w
              with
              | ((evs, fin), _) =>
                  Forall (fun chunk => match chunk with
                                       | TokenEvent data => data <> []
                                       | CitationsEvent _ => True
                                       end) evs /\
                  (forall q e, gE question = Ok q -> fin = Throw e ->
                     exists cause,
                       e = lit "Failed to generate response: " ++ cause)
              end).
  { rewrite queryRAGStream_run.
    destruct (gE question) as [q|e]; [|split; [constructor|discriminate]].
    cbv zeta. destruct (len (retrieved q w) =? 0).
    - split; [|discriminate].
      constructor; [exact I|]. rewrite fallback_code_points, map_map.
      apply Forall_forall. intros ev Hev. apply in_map_iff in Hev.
      destruct Hev as (c & <- & _). discriminate.
    - destruct (generateChatCompletionStream_tokens_facts create question
                  (build_context (retrieved q w))) as (Ht & Hf).
      split.
      + constructor; [exact I|]. apply Forall_forall. intros ev Hev.
        apply in_map_iff in Hev. destruct Hev as (t & <- & Ht').
        rewrite Forall_forall in Ht. now apply Ht.
      + intros q' e _ He. unfold stream_end in He.
        destruct (failure _) as [e'|] eqn:E; [|discriminate].
        injection He as <-. now apply Hf. }
  rewrite Hrun in H. exact H.
Qed.

Lemma generateEmbedding_results_witness :
  OpenAI.generateEmbedding Samples.sdk_no_vectors Samples.v8_undefined_read
    (lit "What helps?")
  = Throw (lit "Failed to generate embedding: Cannot read properties of undefined (reading 'embedding')").
Proof.
  apply (proj1 (proj2 (proj2 (generateEmbedding_results
                                Samples.sdk_no_vectors
                                Samples.v8_undefined_read
                                (lit "What helps?") [])))
               {| OpenAI.data := [] |} eq_refl).
Defined.

Lemma queryRAGStream_tokens_never_empty_witness :
  let events :=
    [ CitationsEvent (map citation_of [Samples.c_long; Samples.c_north]);
      TokenEvent (lit "Drink"); TokenEvent (lit " water") ] in
  queryRAGStream Samples.embed_east
    (OpenAI.generateChatCompletionStream Samples.sdk_stream)
    (lit "What helps?") Samples.archive
  = ((events,
      Throw (lit "Failed to generate response: socket hang up")),
     Samples.archive) /\
  Forall (fun chunk => match chunk with
                       | TokenEvent data => data <> []
                       | CitationsEvent _ => True
                       end) events.
Proof.
  intros events. split; [reflexivity|].
  apply (proj1 (queryRAGStream_tokens_never_empty
                  Samples.embed_east Samples.sdk_stream (lit "What helps?")
                  Samples.archive events _ Samples.archive eq_refl)).
Defined.

(** ** The chat handlers *)

Module RoutesFacts.
Import Routes.

(** [convId] and the process after "Create or get conversation". *)
Definition opening (message : jsstring) (conversationId : option jsstring)
  (w : World) : jsstring * World :=
  match conversationId with
  | Some (c :: r) => (c :: r, w)
  | _ =>
      let conversation :=
        new_conversation
          {| InsertConversation.title := Some (slice_to 50 message) |} w in
      (Conversation.id conversation, with_conversation conversation w)
  end.

Lemma conversation_for_run (message : jsstring)
  (conversationId : option jsstring) (w : World) :
  conversation_for message conversationId w
  = (Ok (fst (opening message conversationId w)),
     snd (opening message conversationId w)).
Proof. destruct conversationId as [[|c r]|]; reflexivity. Qed.

Definition user_insert (convId message : jsstring) : InsertMessage.t :=
  {| InsertMessage.conversationId := convId;
     InsertMessage.role := lit "user";
     InsertMessage.content := message;
     InsertMessage.citations := None |}.

Definition assistant_insert (convId content : jsstring)
  (citations : list Citation.t) : InsertMessage.t :=
  {| InsertMessage.conversationId := convId;
     InsertMessage.role := lit "assistant";
     InsertMessage.content := content;
     InsertMessage.citations := Some citations |}.

(** The conversation id of a request, its user message, and the process
    when the question is put to the RAG service. *)
Definition conv_of (request : ChatRequest.t) (w : World) : jsstring :=
  fst (opening (ChatRequest.message request)
               (ChatRequest.conversationId request) w).

Definition user_of (request : ChatRequest.t) (w : World) : Message.t :=
  new_message (user_insert (conv_of request w) (ChatRequest.message request))
    (snd (opening (ChatRequest.message request)
                  (ChatRequest.conversationId request) w)).

Definition asked (request : ChatRequest.t) (w : World) : World :=
  with_message (user_of request w)
    (snd (opening (ChatRequest.message request)
                  (ChatRequest.conversationId request) w)).

Lemma opening_chunks (message : jsstring) (conversationId : option jsstring)
  (w : World) :
  documentChunks (storage (snd (opening message conversationId w)))
  = documentChunks (storage w) /\
  messages (storage (snd (opening message conversationId w)))
  = messages (storage w).
Proof. destruct conversationId as [[|c r]|]; split; reflexivity. Qed.

Lemma asked_chunks (request : ChatRequest.t) (w : World) :
  documentChunks (storage (asked request w)) = documentChunks (storage w).
Proof. unfold asked. cbn. apply opening_chunks. Qed.

Lemma asked_messages (request : ChatRequest.t) (w : World) :
  messages (storage (asked request w))
  = JsMap.set (Message.id (user_of request w)) (user_of request w)
              (messages (storage w)).
Proof.
  unfold asked. cbn [with_message storage messages].
  now rewrite (proj2 (opening_chunks _ _ w)).
Qed.

Lemma asked_conversations (request : ChatRequest.t) (w : World) :
  conversations (storage (asked request w))
  = conversations
      (storage (snd (opening (ChatRequest.message request)
                             (ChatRequest.conversationId request) w))).
Proof. reflexivity. Qed.

Lemma retrieved_same (q : list float) (w w1 : World) :
  documentChunks (storage w1) = documentChunks (storage w) ->
  retrieved q w1 = retrieved q w.
Proof.
  intros H. unfold retrieved, chunksWithScores. now rewrite H.
Qed.

Lemma queryRAG_world gE gC (question : jsstring) (w : World) :
  snd (queryRAG gE gC question w) = w.
Proof.
  rewrite queryRAG_run.
  destruct (gE question) as [q|e]; [|reflexivity].
  destruct (len (retrieved q w) =? 0); [reflexivity|].
  destruct (gC question _); reflexivity.
Qed.

Lemma queryRAGStream_world gE gS (question : jsstring) (w : World) :
  snd (queryRAGStream gE gS question w) = w.
Proof.
  rewrite queryRAGStream_run.
  destruct (gE question) as [q|e]; [|reflexivity]. cbv zeta.
  destruct (len (retrieved q w) =? 0); reflexivity.
Qed.

Lemma queryRAG_elsewhere gE gC (question : jsstring) (w w1 : World) :
  documentChunks (storage w1) = documentChunks (storage w) ->
  queryRAG gE gC question w1 = (fst (queryRAG gE gC question w), w1).
Proof.
  intros H. rewrite !queryRAG_run.
  destruct (gE question) as [q|e]; [|reflexivity].
  rewrite (retrieved_same q w w1 H).
  destruct (len (retrieved q w) =? 0); [reflexivity|].
  destruct (gC question _); reflexivity.
Qed.

Lemma queryRAGStream_elsewhere gE gS (question : jsstring) (w w1 : World) :
  documentChunks (storage w1) = documentChunks (storage w) ->
  queryRAGStream gE gS question w1
  = (fst (queryRAGStream gE gS question w), w1).
Proof.
  intros H. rewrite !queryRAGStream_run.
  destruct (gE question) as [q|e]; [|reflexivity]. cbv zeta.
  rewrite (retrieved_same q w w1 H).
  destruct (len (retrieved q w) =? 0); reflexivity.
Qed.

(** The reply of [POST /api/chat] to an accepted body. *)
Lemma post_chat_run gE gC details (input : option Json.value)
  (request : ChatRequest.t) (w : World) :
  parse_chat input = Some request ->
  post_chat gE gC details input w =
  match fst (queryRAG gE gC (ChatRequest.message request) w) with
  | Ok r =>
      let assistant :=
        new_message
          (assistant_insert (conv_of request w) (answer r)
                            (RagService.citations r))
          (asked request w) in
      (Json 200
         (ChatBody
            {| ChatResponse.messageId := Message.id assistant;
               ChatResponse.conversationId := conv_of request w;
               ChatResponse.content := answer r;
               ChatResponse.citations := RagService.citations r;
               ChatResponse.timestamp := Message.timestamp assistant |}),
       with_message assistant (asked request w))
  | Throw e =>
      (Json 500 (ErrorBody (lit "Failed to process message") e),
       asked request w)
  end.
Proof.
  intros Hp. unfold post_chat. rewrite Hp. cbv zeta.
  unfold or_500, bind at 1. rewrite conversation_for_run.
  unfold bind at 1, store_user_message. rewrite createMessage_run.
  fold (user_insert (conv_of request w) (ChatRequest.message request)).
  fold (conv_of request w). fold (user_of request w). fold (asked request w).
  unfold bind at 1.
  rewrite (queryRAG_elsewhere gE gC _ w (asked request w)
             (asked_chunks request w)).
  destruct (fst (queryRAG gE gC (ChatRequest.message request) w)) as [r|e];
    [|reflexivity].
  unfold bind at 1. rewrite createMessage_run. reflexivity.
Qed.

(** A chunk of the generator as the frame the handler writes for it. *)
Definition frame_of (convId : jsstring) (chunk : event) : frame :=
  match chunk with
  | CitationsEvent data => InitFrame convId data
  | TokenEvent data => TokenFrame data
  end.

Definition token_text (chunk : event) : jsstring :=
  match chunk with
  | CitationsEvent _ => []
  | TokenEvent data => data
  end.

(** The citations of the last citations event, if there was one. *)
Definition citations_sent (chunks : list event) : list Citation.t :=
  fold_left (fun sent chunk =>
               match chunk with
               | CitationsEvent data => data
               | TokenEvent _ => sent
               end) chunks [].

Lemma on_chunk_fold (convId : jsstring) : forall evs st,
  fold_left (on_chunk convId) evs st
  = {| fullContent := fullContent st ++ concat (map token_text evs);
       citations :=
         fold_left (fun sent chunk =>
                      match chunk with
                      | CitationsEvent data => data
                      | TokenEvent _ => sent
                      end) evs (citations st);
       written := written st ++ map (frame_of convId) evs |}.
Proof.
  induction evs as [|ev evs IH]; intros st; cbn [fold_left map concat].
  - destruct st. cbn. now rewrite !app_nil_r.
  - rewrite IH. destruct ev; cbn; now rewrite <- !app_assoc.
Qed.

(** The reply of [POST /api/chat/stream] to an accepted body. *)
Lemma post_chat_stream_run gE gS details (input : option Json.value)
  (request : ChatRequest.t) (w : World) :
  parse_chat input = Some request ->
  post_chat_stream gE gS details input w =
  let evs := fst (fst (queryRAGStream gE gS (ChatRequest.message request) w)) in
  match snd (fst (queryRAGStream gE gS (ChatRequest.message request) w)) with
  | Ok _ =>
      let assistant :=
        new_message
          (assistant_insert (conv_of request w)
                            (concat (map token_text evs))
                            (citations_sent evs))
          (asked request w) in
      (EventStream sse_headers
         (map (frame_of (conv_of request w)) evs
          ++ [DoneFrame (Message.id assistant) (Message.timestamp assistant)]),
       with_message assistant (asked request w))
  | Throw e =>
      (EventStream sse_headers
         (map (frame_of (conv_of request w)) evs ++ [ErrorFrame e]),
       asked request w)
  end.
Proof.
  intros Hp. unfold post_chat_stream. rewrite Hp. cbv zeta.
  unfold bind at 1. rewrite conversation_for_run.
  unfold bind at 1, store_user_message. rewrite createMessage_run.
  fold (user_insert (conv_of request w) (ChatRequest.message request)).
  fold (conv_of request w). fold (user_of request w). fold (asked request w).
  unfold ret.
  rewrite (queryRAGStream_elsewhere gE gS _ w (asked request w)
             (asked_chunks request w)).
  destruct (fst (queryRAGStream gE gS (ChatRequest.message request) w))
    as [evs ending].
  rewrite on_chunk_fold. cbn [fullContent citations written app fst snd].
  fold (citations_sent evs).
  destruct ending as [u|e]; [|reflexivity].
  rewrite createMessage_run. reflexivity.
Qed.

End RoutesFacts.
Import RoutesFacts.

(** X25: the two chat handlers accept a body exactly when it is an object
    whose [message] is a non-empty string and whose [conversationId] is
    missing or a string; to any other body both answer 400 with
    ["Validation error"] and leave the process untouched: nothing is
    stored and no id is drawn. *)
Theorem chat_validation
  (gE : jsstring -> outcome (list float))
  (gC : jsstring -> jsstring -> outcome jsstring)
  (gS : jsstring -> jsstring -> TokenStream)
  (details : option Json.value -> jsstring)
  (input : option Json.value) (w : World) :
  (Routes.parse_chat input <> None <->
   exists properties message,
     input = Some (Json.JObject properties) /\
     JsMap.get (lit "message") properties = Some (Json.JString message) /\
     message <> [] /\
     (JsMap.get (lit "conversationId") properties = None \/
      exists conversationId,
        JsMap.get (lit "conversationId") properties
        = Some (Json.JString conversationId))) /\
  (Routes.parse_chat input = None ->
   Routes.post_chat gE gC details input w
   = (Routes.Json 400
        (Routes.ValidationBody (lit "Validation error") (details input)), w) /\
   Routes.post_chat_stream gE gS details input w
   = (Routes.Json 400
        (Routes.ValidationBody (lit "Validation error") (details input)), w)).
Proof.
  split.
  - split.
    + unfold Routes.parse_chat, Zod.object.
      destruct input as [[| | | |items|properties]|]; try congruence.
      destruct (JsMap.get (lit "message") properties)
        as [[| | |[|c r]| |]|] eqn:Em; cbn [Zod.string_min1];
        try congruence.
      destruct (JsMap.get (lit "conversationId") properties)
        as [[| | |s| |]|] eqn:Ec; cbn [Zod.string_optional];
        try congruence; intros _; exists properties, (c :: r);
        (split; [reflexivity|]); (split; [exact Em|]);
        (split; [discriminate|]); eauto.
    + intros (properties & message & -> & Hm & Hne & Hc).
      unfold Routes.parse_chat, Zod.object. rewrite Hm.
      destruct message as [|c r]; [congruence|]. cbn [Zod.string_min1].
      destruct Hc as [->|[s ->]]; discriminate.
  - intros H. unfold Routes.post_chat, Routes.post_chat_stream.
    rewrite H. now split.
Qed.

Lemma chat_validation_witness :
  Routes.parse_chat Samples.no_message = None /\
  Routes.post_chat Samples.embed_east Samples.complete Samples.details
    Samples.no_message Samples.archive
  = (Routes.Json 400
       (Routes.ValidationBody (lit "Validation error")
          (lit "Validation error: Message cannot be empty at message")),
     Samples.archive).
Proof.
  split; [reflexivity|].
  apply (proj1 (proj2 (chat_validation
                         Samples.embed_east Samples.complete
                         Samples.complete_stream Samples.details
                         Samples.no_message Samples.archive) eq_refl)).
Defined.



(** X27: neither chat handler checks that a conversation id it is given
    exists. Given a non-empty id, both leave the conversations as they
    are, known id or not; given none, or the empty string, both create a
    conversation under the next random id, entitled with the first 50
    characters of the message, whatever happens to the question
    afterwards. *)
Theorem chat_conversation_created_iff_missing
  (gE : jsstring -> outcome (list float))
  (gC : jsstring -> jsstring -> outcome jsstring)
  (gS : jsstring -> jsstring -> TokenStream)
  (details : option Json.value -> jsstring)
  (input : option Json.value) (request : Routes.ChatRequest.t) (w : World) :
  Routes.parse_chat input = Some request ->
  let after_chat := snd (Routes.post_chat gE gC details input w) in
  let after_stream := snd (Routes.post_chat_stream gE gS details input w) in
  match Routes.ChatRequest.conversationId request with
  | Some (c :: rest) =>
      conversations (storage after_chat) = conversations (storage w) /\
      conversations (storage after_stream) = conversations (storage w)
  | _ =>
      let created :=
        {| Conversation.id := uuids w (drawn w);
           Conversation.title :=
             Some (slice_to 50 (Routes.ChatRequest.message request));
           Conversation.createdAt := clock w (ticks w);
           Conversation.updatedAt := clock w (ticks w) |} in
      len (slice_to 50 (Routes.ChatRequest.message request)) <= 50 /\
      getConversation (uuids w (drawn w)) after_chat
      = (Ok (Some created), after_chat) /\
      getConversation (uuids w (drawn w)) after_stream
      = (Ok (Some created), after_stream)
  end.
Proof.
  intros Hp after_chat after_stream.
  assert (Hchat : conversations (storage after_chat)
                  = conversations (storage (asked request w))).
  { unfold after_chat. rewrite (post_chat_run gE gC details input request w Hp).
    destruct (fst (queryRAG gE gC _ w)); reflexivity. }
  assert (Hstream : conversations (storage after_stream)
                    = conversations (storage (asked request w))).
  { unfold after_stream.
    rewrite (post_chat_stream_run gE gS details input request w Hp).
    cbv zeta. destruct (snd (fst (queryRAGStream gE gS _ w))); reflexivity. }
  rewrite asked_conversations in Hchat, Hstream.
  unfold getConversation, read. rewrite Hchat, Hstream.
  unfold opening.
  destruct (Routes.ChatRequest.conversationId request) as [[|c rest]|];
    cbn [snd].
  - cbv zeta. split; [apply slice_to_len_le; lia|].
    cbn [with_conversation new_conversation storage conversations
         Conversation.id InsertConversation.title].
    rewrite get_set_same. now split.
  - now split.
  - cbv zeta. split; [apply slice_to_len_le; lia|].
    cbn [with_conversation new_conversation storage conversations
         Conversation.id InsertConversation.title].
    rewrite get_set_same. now split.
Qed.

Lemma chat_conversation_created_iff_missing_witness :
  conversations
    (storage (snd (Routes.post_chat Samples.embed_east Samples.complete
                     Samples.details Samples.follow_up Samples.chat)))
  = conversations (storage Samples.chat) /\
  conversations
    (storage (snd (Routes.post_chat_stream Samples.embed_east
                     Samples.complete_stream Samples.details
                     Samples.follow_up Samples.chat)))
  = conversations (storage Samples.chat).
Proof.
  exact (chat_conversation_created_iff_missing
           Samples.embed_east Samples.complete Samples.complete_stream
           Samples.details Samples.follow_up
           {| Routes.ChatRequest.message := lit "And for a child?";
              Routes.ChatRequest.conversationId := Some (lit "conv-1") |}
           Samples.chat eq_refl).
Defined.

(** X28: when the body is accepted and the RAG query fails,
    [POST /api/chat] answers 500 with ["Failed to process message"] and the
    message of the error, and what it stored before the query stays: the
    user message is in the store, and no assistant message is added. *)
Theorem post_chat_failure_keeps_question
  (gE : jsstring -> outcome (list float))
  (gC : jsstring -> jsstring -> outcome jsstring)
  (details : option Json.value -> jsstring)
  (input : option Json.value) (request : Routes.ChatRequest.t)
  (e : jsstring) (w : World) :
  Routes.parse_chat input = Some request ->
  queryRAG gE gC (Routes.ChatRequest.message request) w = (Throw e, w) ->
  exists user w',
    Routes.post_chat gE gC details input w
    = (Routes.Json 500
         (Routes.ErrorBody (lit "Failed to process message") e), w') /\
    (Message.role user, Message.content user, Message.citations user)
    = (lit "user", Routes.ChatRequest.message request, None) /\
    messages (storage w')
    = JsMap.set (Message.id user) user (messages (storage w)) /\
    JsMap.get (Message.id user) (messages (storage w')) = Some user.
Proof.
  intros Hp Hq.
  pose proof (post_chat_run gE gC details input request w Hp) as Hrun.
  rewrite Hq in Hrun. cbn [fst] in Hrun.
  exists (user_of request w), (asked request w).
  split; [exact Hrun|]. split; [reflexivity|].
  rewrite asked_messages. split; [reflexivity|apply get_set_same].
Qed.

Lemma post_chat_failure_keeps_question_witness :
  exists user w',
    Routes.post_chat Samples.embed_down Samples.complete Samples.details
      Samples.first_question Samples.archive
    = (Routes.Json 500
         (Routes.ErrorBody (lit "Failed to process message")
            (lit "Failed to generate embedding: 429 quota exceeded")), w') /\
    Message.content user = lit "What helps against fever?" /\
    JsMap.get (Message.id user) (messages (storage w')) = Some user.
Proof.
  destruct (post_chat_failure_keeps_question
              Samples.embed_down Samples.complete Samples.details
              Samples.first_question
              {| Routes.ChatRequest.message := lit "What helps against fever?";
                 Routes.ChatRequest.conversationId := None |}
              (lit "Failed to generate embedding: 429 quota exceeded")
              Samples.archive eq_refl eq_refl)
    as (user & w' & Hrun & Hu & _ & Hget).
  exists user, w'. split; [exact Hrun|].
  split; [now injection Hu|exact Hget].
Defined.

(** X29: to an accepted body [POST /api/chat/stream] never answers with a
    status 500: it opens an event stream and writes one frame for each
    chunk of [queryRAGStream], in order (an init frame with the
    conversation id for the citations, a token frame for each token), then
    one last frame. When the generator returns, the last frame is the done
    frame with the id and timestamp of the assistant message just stored,
    whose content is the tokens sent put together and whose citations are
    those sent; when the generator throws, the last frame is the error
    frame with the message of the error, and no assistant message is
    stored (the user message stays). *)
Theorem post_chat_stream_frames
  (gE : jsstring -> outcome (list float))
  (gS : jsstring -> jsstring -> TokenStream)
  (details : option Json.value -> jsstring)
  (input : option Json.value) (request : Routes.ChatRequest.t)
  (chunks : list event) (ending : outcome unit) (w : World) :
  Routes.parse_chat input = Some request ->
  queryRAGStream gE gS (Routes.ChatRequest.message request) w
  = ((chunks, ending), w) ->
  exists convId user final w',
    Routes.post_chat_stream gE gS details input w
    = (Routes.EventStream Routes.sse_headers
         (map (frame_of convId) chunks ++ [final]), w') /\
    (Message.conversationId user, Message.role user, Message.content user)
    = (convId, lit "user", Routes.ChatRequest.message request) /\
    match ending with
    | Ok _ =>
        exists assistant,
          final = Routes.DoneFrame (Message.id assistant)
                                   (Message.timestamp assistant) /\
          (Message.conversationId assistant, Message.role assistant,
           Message.content assistant, Message.citations assistant)
          = (convId, lit "assistant", concat (map token_text chunks),
             Some (citations_sent chunks)) /\
          messages (storage w')
          = JsMap.set (Message.id assistant) assistant
              (JsMap.set (Message.id user) user (messages (storage w)))
    | Throw e =>
        final = Routes.ErrorFrame e /\
        messages (storage w')
        = JsMap.set (Message.id user) user (messages (storage w))
    end.
Proof.
  intros Hp Hq.
  pose proof (post_chat_stream_run gE gS details input request w Hp) as Hrun.
  rewrite Hq in Hrun. cbn [fst snd] in Hrun. cbv zeta in Hrun.
  exists (conv_of request w), (user_of request w).
  destruct ending as [u|e].
  - eexists. eexists. split; [exact Hrun|]. split; [reflexivity|].
    eexists. split; [reflexivity|]. split; [reflexivity|].
    cbn [with_message storage messages]. now rewrite asked_messages.
  - eexists. eexists. split; [exact Hrun|]. split; [reflexivity|].
    split; [reflexivity|]. apply asked_messages.
Qed.

Lemma post_chat_stream_frames_witness :
  exists convId w',
    Routes.post_chat_stream Samples.embed_east Samples.stream_broken
      Samples.details Samples.first_question Samples.archive
    = (Routes.EventStream Routes.sse_headers
         [ Routes.InitFrame convId
             (map citation_of [Samples.c_long; Samples.c_north]);
           Routes.TokenFrame (lit "Drink");
           Routes.ErrorFrame
             (lit "Failed to generate response: socket hang up") ], w').
Proof.
  destruct (post_chat_stream_frames
              Samples.embed_east Samples.stream_broken Samples.details
              Samples.first_question
              {| Routes.ChatRequest.message := lit "What helps against fever?";
                 Routes.ChatRequest.conversationId := None |}
              [ CitationsEvent
                  (map citation_of [Samples.c_long; Samples.c_north]);
                TokenEvent (lit "Drink") ]
              (Throw (lit "Failed to generate response: socket hang up"))
              Samples.archive eq_refl eq_refl)
    as (convId & user & final & w' & Hrun & _ & Hfinal & _).
  exists convId, w'. rewrite Hrun, Hfinal. reflexivity.
Defined.

(** ** The document route *)

Module ProcessRouteFacts.

Lemma indexDocument_throw_keeps_storage
  (gEs : list jsstring -> outcome (list (list float)))
  (pD : jsstring -> outcome DocumentProcessor.ProcessedDocument)
  (fileId e : jsstring) (w w' : World) :
  indexDocument gEs pD fileId w = (Throw e, w') -> storage w' = storage w.
Proof.
  unfold indexDocument, bind at 1, await.
  destruct (pD fileId) as [processed|e0]; [|now intros [= <- <-]].
  unfold bind at 1, randomUUID. unfold bind at 1.
  destruct (gEs (DocumentProcessor.chunks processed)) as [embeddings|e1];
    [|now intros [= <- <-]].
  unfold bind at 1.
  match goal with |- context [map_all_from 0 ?f ?l ?w1] =>
    change (map_all_from 0 f l w1)
      with (map_all_from 0
              (store_one (uuids w (drawn w)) processed embeddings) l w1);
    destruct (map_all_store_one_ok (uuids w (drawn w)) processed
                embeddings l 0 w1) as (r & w2 & E)
  end.
  rewrite E. cbn. discriminate.
Qed.

End ProcessRouteFacts.
Import ProcessRouteFacts.

(** X30: [POST /api/documents/process] refuses with 400 and an untouched
    process every body that is not an object with non-empty strings as
    [fileId] and [fileName] (the file name is required although nothing
    reads it afterwards); it answers 500 with
    ["Failed to process document"] and the message of the error when
    [indexDocument] fails; and unless it answers 200 the store is what it
    was before the request. *)
Theorem post_documents_process_all_or_nothing
  (gEs : list jsstring -> outcome (list (list float)))
  (pD : jsstring -> outcome DocumentProcessor.ProcessedDocument)
  (details : option Json.value -> jsstring)
  (input : option Json.value) (w : World) :
  let run := Routes.post_documents_process gEs pD details input w in
  (Routes.parse_process input <> None <->
   exists properties fileId fileName,
     input = Some (Json.JObject properties) /\
     JsMap.get (lit "fileId") properties = Some (Json.JString fileId) /\
     JsMap.get (lit "fileName") properties = Some (Json.JString fileName) /\
     fileId <> [] /\ fileName <> []) /\
  (Routes.parse_process input = None ->
   run = (Routes.Json 400
            (Routes.ValidationBody (lit "Validation error") (details input)),
          w)) /\
  (forall request e w1,
     Routes.parse_process input = Some request ->
     indexDocument gEs pD (Routes.ProcessDocumentRequest.fileId request) w
     = (Throw e, w1) ->
     run = (Routes.Json 500
              (Routes.ErrorBody (lit "Failed to process document") e), w1)) /\
  (forall request documentId chunksProcessed w1,
     Routes.parse_process input = Some request ->
     indexDocument gEs pD (Routes.ProcessDocumentRequest.fileId request) w
     = (Ok (documentId, chunksProcessed), w1) ->
     run = (Routes.Json 200
              (Routes.ProcessBody
                 {| Routes.ProcessDocumentResponse.documentId := documentId;
                    Routes.ProcessDocumentResponse.chunksProcessed :=
                      chunksProcessed;
                    Routes.ProcessDocumentResponse.status := lit "success" |}),
            w1)) /\
  (forall status body w',
     run = (Routes.Json status body, w') ->
     status = 200 \/ storage w' = storage w).
Proof.
  intros run. split; [|split; [|split; [|split]]].
  - split.
    + unfold Routes.parse_process, Zod.object.
      destruct input as [[| | | |items|properties]|]; try congruence.
      destruct (JsMap.get (lit "fileId") properties)
        as [[| | |[|c r]| |]|] eqn:Ei; cbn [Zod.string_min1];
        try congruence.
      destruct (JsMap.get (lit "fileName") properties)
        as [[| | |[|c' r']| |]|] eqn:En; cbn [Zod.string_min1];
        try congruence.
      intros _. exists properties, (c :: r), (c' :: r').
      repeat split; auto; discriminate.
    + intros (properties & fileId & fileName & -> & Hi & Hn & Hi' & Hn').
      unfold Routes.parse_process, Zod.object. rewrite Hi, Hn.
      destruct fileId as [|c r]; [congruence|].
      destruct fileName as [|c' r']; [congruence|]. discriminate.
  - intros H. unfold run, Routes.post_documents_process. now rewrite H.
  - intros request e w1 Hp Hi.
    unfold run, Routes.post_documents_process. rewrite Hp.
    unfold Routes.or_500, bind. now rewrite Hi.
  - intros request documentId chunksProcessed w1 Hp Hi.
    unfold run, Routes.post_documents_process. rewrite Hp.
    unfold Routes.or_500, bind. now rewrite Hi.
  - intros status body w'. unfold run, Routes.post_documents_process.
    destruct (Routes.parse_process input) as [request|].
    + unfold Routes.or_500, bind.
      destruct (indexDocument gEs pD _ w) as [[result|e] w1] eqn:Hi.
      * unfold ret. intros [= <- _ _]. now left.
      * intros [= _ _ <-]. right.
        exact (indexDocument_throw_keeps_storage gEs pD _ e w w1 Hi).
    + unfold Routes.invalid. intros [= _ _ <-]. now right.
Qed.

Lemma post_documents_process_all_or_nothing_witness :
  Routes.post_documents_process Samples.embed_all Samples.process_image
    Samples.details Samples.picture Samples.fresh
  = (Routes.Json 500
       (Routes.ErrorBody (lit "Failed to process document")
          (lit "Failed to process document: Unsupported file type: image/png")),
     Samples.fresh).
Proof.
  apply (proj1 (proj2 (proj2 (post_documents_process_all_or_nothing
                                Samples.embed_all Samples.process_image
                                Samples.details Samples.picture
                                Samples.fresh)))
               {| Routes.ProcessDocumentRequest.fileId := lit "file-2";
                  Routes.ProcessDocumentRequest.fileName := lit "scan.png" |}
               _ Samples.fresh eq_refl eq_refl).
Defined.
